(** * Pipeline Manager: a shallow embedding of the console's client logic

    The development follows the TypeScript sources of the console:
    - [lib/execution-client.ts] (fetching, filtering, sorting and paging tasks),
    - [lib/mock-data.ts] (the mock data source and its download rule),
    - the monitor page (download availability, pagination state),
    - [components/execution-form.tsx] (validation and coercion of parameters),
    - the new-pipeline page and the edit modal (form validation, save),
    - [context/pipeline-store] (the catalog and its persisted snapshot).

    Conventions.  A JavaScript string is a [string] whose characters stand
    for UTF-16 code units below 256.  A [Date] is the Invalid Date or a time
    value, a number of milliseconds since the epoch in [Z].  A JavaScript
    number is a binary64 value, kept as the exact rational it denotes
    ([Finite]), with both zeros identified.  An object used as a
    string-keyed record is the finite map of its own properties, read and
    written through [Object.prototype] as the language does. *)

From Stdlib Require Import ZArith QArith Qreduction Lia Ascii Sorted.
From stdpp Require Import base option list strings gmap sorting.

(** ** Host functions of the JavaScript runtime *)

Module JS.

Local Open Scope Z_scope.

Definition code (c : ascii) : Z := Z.of_N (N_of_ascii c).

(** WhiteSpace and LineTerminator code units below 256: TAB, LF, VT, FF, CR,
    SP and NBSP. *)
Definition isWhiteSpace (c : ascii) : bool :=
  let n := code c in
  ((9 <=? n) && (n <=? 13)) || (n =? 32) || (n =? 160).

Fixpoint trimStart (s : string) : string :=
  match s with
  | String c r => if isWhiteSpace c then trimStart r else s
  | EmptyString => EmptyString
  end.

Fixpoint trimEnd (s : string) : string :=
  match s with
  | String c r =>
      match trimEnd r with
      | EmptyString => if isWhiteSpace c then EmptyString else String c EmptyString
      | r' => String c r'
      end
  | EmptyString => EmptyString
  end.

(** [String.prototype.trim] *)
Definition trim (s : string) : string := trimEnd (trimStart s).

(** A string is falsy exactly when it is empty. *)
Definition truthy (s : string) : bool :=
  match s with EmptyString => false | _ => true end.

(** *** Numbers *)

Inductive number :=
  | NaN
  | Infinity (negative : bool)
  | Finite (q : Q).

Definition ofZ (z : Z) : number := Finite (inject_Z z).

Definition negate (x : number) : number :=
  match x with
  | NaN => NaN
  | Infinity b => Infinity (negb b)
  | Finite q => Finite (Qred (Qopp q))
  end.

(** [floor (log2 (n / d))] for positive [n] and [d]. *)
Definition floorLog2 (n d : Z) : Z :=
  let k := Z.log2 n - Z.log2 d in
  let below :=
    if 0 <=? k then n <? d * 2 ^ k else n * 2 ^ (- k) <? d in
  if below then k - 1 else k.

(** The binary64 value nearest to [n / d] (ties to even), for [0 <= n] and
    [0 < d]: 53-bit significands, least exponent -1074, overflow to
    infinity. *)
Definition roundToDouble (n d : Z) : number :=
  if n =? 0 then Finite 0 else
  let k := floorLog2 n d in
  let e := Z.max (k - 52) (-1074) in
  let num := if 0 <=? e then n else n * 2 ^ (- e) in
  let den := if 0 <=? e then d * 2 ^ e else d in
  let m := num / den in
  let r := num mod den in
  let m' := if (den <? 2 * r) || ((den =? 2 * r) && Z.odd m) then m + 1 else m in
  if (0 <=? e) && (2 ^ 1024 <=? m' * 2 ^ e) then Infinity false
  else if 0 <=? e then Finite (inject_Z (m' * 2 ^ e))
  else Finite (Qred (Qmake m' (Z.to_pos (2 ^ (- e))))).

(** The value of the decimal numeral [mant * 10 ^ exp10]. *)
Definition decimalToDouble (mant exp10 : Z) : number :=
  if 0 <=? exp10 then roundToDouble (mant * 10 ^ exp10) 1
  else roundToDouble mant (10 ^ (- exp10)).

Definition isNaN (x : number) : bool :=
  match x with NaN => true | _ => false end.

(** [Number.isInteger] *)
Definition isInteger (x : number) : bool :=
  match x with
  | Finite q => Pos.eqb (Qden (Qred q)) 1
  | _ => false
  end.

(** The value of a digit in a radix up to 36, as [parseInt] and the
    numeric literals read it. *)
Definition digitValue (radix : Z) (c : ascii) : option Z :=
  let n := code c in
  let v :=
    if (48 <=? n) && (n <=? 57) then n - 48
    else if (97 <=? n) && (n <=? 122) then n - 87
    else if (65 <=? n) && (n <=? 90) then n - 55
    else 36 in
  if v <? radix then Some v else None.

(** Reads the longest run of digits: the number read so far, how many
    digits were read, and the rest of the input. *)
Fixpoint scanDigits (radix : Z) (s : string) (acc : Z) (count : Z) : Z * Z * string :=
  match s with
  | String c r =>
      match digitValue radix c with
      | Some v => scanDigits radix r (acc * radix + v) (count + 1)
      | None => (acc, count, s)
      end
  | EmptyString => (acc, count, s)
  end.

(** An optional sign, [-] or [+]. *)
Definition scanSign (s : string) : bool * string :=
  match s with
  | String c r =>
      if code c =? 45 then (true, r)
      else if code c =? 43 then (false, r)
      else (false, s)
  | EmptyString => (false, s)
  end.

(** ExponentPart, when one is present: [e] or [E], an optional sign and at
    least one digit. *)
Definition scanExponent (s : string) : Z * string :=
  match s with
  | String c r =>
      if (code c =? 101) || (code c =? 69) then
        let '(neg, r1) := scanSign r in
        let '(e, count, r2) := scanDigits 10 r1 0 0 in
        if 0 <? count then ((if neg then - e else e), r2) else (0, s)
      else (0, s)
  | EmptyString => (0, s)
  end.

(** The longest prefix that is a StrUnsignedDecimalLiteral without the
    [Infinity] case, with the rest of the input. *)
Definition scanUnsignedDecimal (s : string) : option (number * string) :=
  let '(int, icount, r1) := scanDigits 10 s 0 0 in
  let '(mant, fcount, r2) :=
    match r1 with
    | String "." r =>
        let '(m, total, r') := scanDigits 10 r int icount in
        (m, total - icount, r')
    | _ => (int, 0, r1)
    end in
  if icount + fcount =? 0 then None
  else
    let '(e, r3) := scanExponent r2 in
    Some (decimalToDouble mant (e - fcount), r3).

(** The rest of [s] after the prefix [p], when [s] starts with [p]. *)
Fixpoint stripPrefix (p s : string) : option string :=
  match p with
  | EmptyString => Some s
  | String a p' =>
      match s with
      | String b s' => if Ascii.eqb a b then stripPrefix p' s' else None
      | EmptyString => None
      end
  end.

(** The longest prefix that is a StrDecimalLiteral. *)
Definition scanDecimalLiteral (s : string) : option (number * string) :=
  let '(neg, r) := scanSign s in
  let signed (x : number) := if neg then negate x else x in
  match stripPrefix "Infinity" r with
  | Some r' => Some (Infinity neg, r')
  | None =>
      match scanUnsignedDecimal r with
      | Some (x, r') => Some (signed x, r')
      | None => None
      end
  end.

(** NonDecimalIntegerLiteral: [0x], [0o] or [0b] and at least one digit. *)
Definition nonDecimalRadix (s : string) : option (Z * string) :=
  match s with
  | String z (String c r) =>
      let n := code c in
      if negb (code z =? 48) then None
      else if (n =? 120) || (n =? 88) then Some (16, r)
      else if (n =? 111) || (n =? 79) then Some (8, r)
      else if (n =? 98) || (n =? 66) then Some (2, r)
      else None
  | _ => None
  end.

(** [Number(s)] on a string: StringToNumber. *)
Definition Number (s : string) : number :=
  let t := trim s in
  match t with
  | EmptyString => Finite 0
  | _ =>
      match nonDecimalRadix t with
      | Some (radix, r) =>
          match scanDigits radix r 0 0 with
          | (v, count, EmptyString) => if 0 <? count then roundToDouble v 1 else NaN
          | _ => NaN
          end
      | None =>
          match scanDecimalLiteral t with
          | Some (x, EmptyString) => x
          | _ => NaN
          end
      end
  end.

(** [Number.parseFloat(s)] *)
Definition parseFloat (s : string) : number :=
  match scanDecimalLiteral (trimStart s) with
  | Some (x, _) => x
  | None => NaN
  end.

(** [Number.parseInt(s)] with no radix argument. *)
Definition parseInt (s : string) : number :=
  let '(neg, r) := scanSign (trimStart s) in
  let '(radix, r) :=
    match r with
    | String z (String c r') =>
        if (code z =? 48) && ((code c =? 120) || (code c =? 88)) then (16, r')
        else (10, r)
    | _ => (10, r)
    end in
  let '(v, count, _) := scanDigits radix r 0 0 in
  if count =? 0 then NaN
  else if neg then negate (roundToDouble v 1) else roundToDouble v 1.

(** *** Values and [JSON.parse] *)

(** The values the console handles: what [JSON.parse] returns, what a
    parameter holds and what is submitted.  An object keeps its properties
    in insertion order. *)
#[warnings="-register-all"]
Inductive JSValue :=
  | VNull
  | VBool (b : bool)
  | VNumber (x : number)
  | VString (s : string)
  | VArray (items : list JSValue)
  | VObject (props : list (string * JSValue)).

Definition isArray (v : JSValue) : bool :=
  match v with VArray _ => true | _ => false end.

(** [typeof v === "object"]: objects, arrays and [null]. *)
Definition typeofObject (v : JSValue) : bool :=
  match v with VNull | VArray _ | VObject _ => true | _ => false end.

Definition isNull (v : JSValue) : bool :=
  match v with VNull => true | _ => false end.

(** Defining a property: a key already present keeps its place and takes
    the new value. *)
Fixpoint setProperty (props : list (string * JSValue)) (k : string) (v : JSValue)
  : list (string * JSValue) :=
  match props with
  | [] => [(k, v)]
  | (k', v') :: rest =>
      if String.eqb k' k then (k, v) :: rest else (k', v') :: setProperty rest k v
  end.

(** JSON white space: TAB, LF, CR and SP. *)
Definition isJSONWhiteSpace (c : ascii) : bool :=
  let n := code c in
  (n =? 9) || (n =? 10) || (n =? 13) || (n =? 32).

Fixpoint skipWhiteSpace (s : string) : string :=
  match s with
  | String c r => if isJSONWhiteSpace c then skipWhiteSpace r else s
  | EmptyString => EmptyString
  end.

Definition asciiOfZ (n : Z) : ascii := ascii_of_N (Z.to_N n).

Definition isQuote (c : ascii) : bool := code c =? 34.

(** The four hexadecimal digits of a [\u] escape. *)
Definition scanHex4 (s : string) : option (Z * string * string) :=
  match s with
  | String a (String b (String c (String d r))) =>
      match digitValue 16 a, digitValue 16 b, digitValue 16 c, digitValue 16 d with
      | Some x, Some y, Some z, Some w =>
          Some (((x * 16 + y) * 16 + z) * 16 + w,
                String a (String b (String c (String d EmptyString))), r)
      | _, _, _, _ => None
      end
  | _ => None
  end.

(** The characters of a JSON string after its opening quote.  An escaped
    code unit of 256 or more stays written as its escape. *)
Fixpoint scanStringChars (s : string) : option (string * string) :=
  match s with
  | EmptyString => None
  | String c r =>
      let n := code c in
      if n =? 34 then Some (EmptyString, r)
      else if n <? 32 then None
      else if n =? 92 then
        match r with
        | String e r1 =>
            let simple (x : Z) :=
              match scanStringChars r1 with
              | Some (str, rest) => Some (String (asciiOfZ x) str, rest)
              | None => None
              end in
            let m := code e in
            if (m =? 34) || (m =? 92) || (m =? 47) then simple m
            else if m =? 98 then simple 8
            else if m =? 102 then simple 12
            else if m =? 110 then simple 10
            else if m =? 114 then simple 13
            else if m =? 116 then simple 9
            else if m =? 117 then
              match r1 with
              | String a (String b (String c' (String d r2))) =>
                  match scanHex4 r1 with
                  | Some (u, digits, _) =>
                      match scanStringChars r2 with
                      | Some (str, rest) =>
                          if u <? 256 then Some (String (asciiOfZ u) str, rest)
                          else Some (String.append (String c (String e digits)) str, rest)
                      | None => None
                      end
                  | None => None
                  end
              | _ => None
              end
            else None
        | EmptyString => None
        end
      else
        match scanStringChars r with
        | Some (str, rest) => Some (String c str, rest)
        | None => None
        end
  end.

(** A JSON number: an optional minus sign, an integer part with no
    superfluous leading zero, an optional fraction with at least one digit
    and an optional exponent. *)
Definition scanJSONNumber (s : string) : option (number * string) :=
  let '(neg, r) :=
    match s with
    | String c r => if Ascii.eqb c "-" then (true, r) else (false, s)
    | EmptyString => (false, s)
    end in
  let '(int, icount, r1) := scanDigits 10 r 0 0 in
  let leadingZero :=
    match r with
    | String c _ => Ascii.eqb c "0" && (1 <? icount)
    | EmptyString => false
    end in
  if (icount =? 0) || leadingZero then None
  else
    let fraction :=
      match r1 with
      | String c r2 =>
          if Ascii.eqb c "." then
            let '(m, total, r3) := scanDigits 10 r2 int 0 in
            if 0 <? total then Some (m, total, r3) else None
          else Some (int, 0, r1)
      | EmptyString => Some (int, 0, r1)
      end in
    match fraction with
    | Some (mant, fcount, r4) =>
        let '(e, r5) := scanExponent r4 in
        let x := decimalToDouble mant (e - fcount) in
        Some ((if neg then negate x else x), r5)
    | None => None
    end.

(** The rest of [s] after the character [c], when [s] starts with it. *)
Definition expect (c : ascii) (s : string) : option string :=
  match s with
  | String c' r => if Ascii.eqb c c' then Some r else None
  | EmptyString => None
  end.

(** A JSON value at the start of [s], after white space; the elements of
    an array after its opening bracket; the members of an object after its
    opening brace.  Each returns the rest of the input. *)
Fixpoint parseValue (fuel : nat) (s : string) {struct fuel} : option (JSValue * string) :=
  match fuel with
  | O => None
  | S fuel' =>
      match skipWhiteSpace s with
      | String c r =>
          if Ascii.eqb c "n" then
            match stripPrefix "ull" r with Some r' => Some (VNull, r') | None => None end
          else if Ascii.eqb c "t" then
            match stripPrefix "rue" r with Some r' => Some (VBool true, r') | None => None end
          else if Ascii.eqb c "f" then
            match stripPrefix "alse" r with Some r' => Some (VBool false, r') | None => None end
          else if isQuote c then
            match scanStringChars r with
            | Some (str, r') => Some (VString str, r')
            | None => None
            end
          else if Ascii.eqb c "[" then
            match expect "]" (skipWhiteSpace r) with
            | Some r' => Some (VArray [], r')
            | None => parseElements fuel' r []
            end
          else if Ascii.eqb c "{" then
            match expect "}" (skipWhiteSpace r) with
            | Some r' => Some (VObject [], r')
            | None => parseMembers fuel' r []
            end
          else
            match scanJSONNumber (String c r) with
            | Some (x, r') => Some (VNumber x, r')
            | None => None
            end
      | EmptyString => None
      end
  end
with parseElements (fuel : nat) (s : string) (acc : list JSValue) {struct fuel}
  : option (JSValue * string) :=
  match fuel with
  | O => None
  | S fuel' =>
      match parseValue fuel' s with
      | Some (v, r) =>
          match skipWhiteSpace r with
          | String c r' =>
              if Ascii.eqb c "," then parseElements fuel' r' (acc ++ [v])
              else if Ascii.eqb c "]" then Some (VArray (acc ++ [v]), r')
              else None
          | EmptyString => None
          end
      | None => None
      end
  end
with parseMembers (fuel : nat) (s : string) (acc : list (string * JSValue)) {struct fuel}
  : option (JSValue * string) :=
  match fuel with
  | O => None
  | S fuel' =>
      match skipWhiteSpace s with
      | String c r =>
          match (if isQuote c then scanStringChars r else None) with
          | Some (k, r1) =>
              match expect ":" (skipWhiteSpace r1) with
              | Some r2 =>
                  match parseValue fuel' r2 with
                  | Some (v, r3) =>
                      match skipWhiteSpace r3 with
                      | String c' r' =>
                          if Ascii.eqb c' "," then parseMembers fuel' r' (setProperty acc k v)
                          else if Ascii.eqb c' "}" then Some (VObject (setProperty acc k v), r')
                          else None
                      | EmptyString => None
                      end
                  | None => None
                  end
              | None => None
              end
          | None => None
          end
      | EmptyString => None
      end
  end.

(** [JSON.parse(text)]: [None] stands for the SyntaxError it throws.  A
    parse needs no more fuel than twice the number of characters it consumes,
    so no text is rejected for lack of fuel. *)
Definition JSON_parse (text : string) : option JSValue :=
  match parseValue (2 * String.length text + 2) text with
  | Some (v, r) =>
      match skipWhiteSpace r with
      | EmptyString => Some v
      | _ => None
      end
  | None => None
  end.

(** *** Objects as records of named values

    An object made by a literal inherits from [Object.prototype].  Reading
    a name the object does not have as an own property finds the member of
    the prototype of that name when there is one: a function, or under
    [__proto__] the prototype itself.  Every other name reads
    [undefined]. *)
Definition objectPrototypeNames : list string :=
  ["constructor"; "__defineGetter__"; "__defineSetter__"; "hasOwnProperty";
   "__lookupGetter__"; "__lookupSetter__"; "isPrototypeOf";
   "propertyIsEnumerable"; "toString"; "valueOf"; "__proto__"; "toLocaleString"].

Inductive Property (A : Type) :=
  | Own (v : A)
  | Inherited
  | Undefined.
Arguments Own {A} v.
Arguments Inherited {A}.
Arguments Undefined {A}.

(** [o[k]], for the own properties [o] of an object literal. *)
Definition readProperty {A} (o : gmap string A) (k : string) : Property A :=
  match o !! k with
  | Some v => Own v
  | None => if bool_decide (k ∈ objectPrototypeNames) then Inherited else Undefined
  end.

(** [o[k] = v] for a string [v] and an object literal [o].  Under
    [__proto__] the assignment calls the setter of the prototype, which
    ignores a value that is neither an object nor [null]; every other name
    becomes an own property, and an own property takes the value. *)
Definition assignString (o : gmap string string) (k v : string) : gmap string string :=
  match o !! k with
  | Some _ => <[k := v]> o
  | None => if String.eqb k "__proto__" then o else <[k := v]> o
  end.

(** [String(value)] for the member of [Object.prototype] of a name: the
    prototype itself, or a function, whose text has this form (the standard
    leaves its white space to the implementation; [constructor] is the
    function [Object]). *)
Definition memberText (name : string) : string :=
  if String.eqb name "__proto__" then "[object Object]"
  else "function " +:+ (if String.eqb name "constructor" then "Object" else name)
         +:+ "() { [native code] }".

(** *** Arrays *)

Section ArraySort.
Context {A : Type}.
Variable compareFn : A → A → Z.

(** [x] goes in front of the first element it does not have to follow. *)
Fixpoint insertSorted (x : A) (l : list A) : list A :=
  match l with
  | [] => [x]
  | y :: l' => if compareFn x y <=? 0 then x :: y :: l' else y :: insertSorted x l'
  end.

(** [Array.prototype.sort(compareFn)].  The sort is stable, and for a
    comparator that is a consistent ordering its result does not depend on
    the algorithm; a stable insertion sort computes it. *)
Definition sort (l : list A) : list A := foldr insertSorted [] l.

(** [Array.prototype.slice(start, end)] *)
Definition slice (l : list A) (start finish : Z) : list A :=
  let len := Z.of_nat (length l) in
  let clamp (i : Z) := if i <? 0 then Z.max (len + i) 0 else Z.min i len in
  let k := clamp start in
  take (Z.to_nat (clamp finish - k)) (drop (Z.to_nat k) l).
End ArraySort.

(** *** Dates *)

Definition msPerDay : Z := 86400000.

(** The greatest time value of a Date: 100,000,000 days from the epoch on
    either side. *)
Definition maxTimeValue : Z := 8640000000000000.

Definition validTime (t : Z) : Prop := - maxTimeValue <= t <= maxTimeValue.

(** Year, month and day of the month of a day number counted from
    1970-01-01, in the proleptic Gregorian calendar.  Days are counted in
    400-year eras that start on a first of March. *)
Definition civilFromDays (day : Z) : Z * Z * Z :=
  let z := day + 719468 in
  let era := z / 146097 in
  let doe := z mod 146097 in
  let yoe := (doe - doe / 1460 + doe / 36524 - doe / 146096) / 365 in
  let doy := doe - (365 * yoe + yoe / 4 - yoe / 100) in
  let mp := (5 * doy + 2) / 153 in
  let d := doy - (153 * mp + 2) / 5 + 1 in
  let m := if mp <? 10 then mp + 3 else mp - 9 in
  let y := yoe + era * 400 + (if m <=? 2 then 1 else 0) in
  (y, m, d).

(** MakeDay: the day number of a year, month and day of the month. *)
Definition daysFromCivil (y m d : Z) : Z :=
  let y' := if m <=? 2 then y - 1 else y in
  let era := y' / 400 in
  let yoe := y' mod 400 in
  let mp := if 2 <? m then m - 3 else m + 9 in
  let doy := (153 * mp + 2) / 5 + d - 1 in
  let doe := yoe * 365 + yoe / 4 - yoe / 100 + doy in
  era * 146097 + doe - 719468.

Definition isLeapYear (y : Z) : bool :=
  (y mod 4 =? 0) && (negb (y mod 100 =? 0) || (y mod 400 =? 0)).

Definition daysInMonth (y m : Z) : Z :=
  if m =? 2 then (if isLeapYear y then 29 else 28)
  else if (m =? 4) || (m =? 6) || (m =? 9) || (m =? 11) then 30
  else 31.

(** [n] in decimal on [width] digits. *)
Fixpoint pad (width : nat) (n : Z) : string :=
  match width with
  | O => EmptyString
  | S w => String (asciiOfZ (48 + (n / 10 ^ Z.of_nat w) mod 10)) (pad w n)
  end.

(** Reads exactly [width] decimal digits. *)
Fixpoint scanFixed (width : nat) (s : string) (acc : Z) : option (Z * string) :=
  match width with
  | O => Some (acc, s)
  | S w =>
      match s with
      | String c r =>
          match digitValue 10 c with
          | Some v => scanFixed w r (acc * 10 + v)
          | None => None
          end
      | EmptyString => None
      end
  end.

(** [Date.prototype.toISOString]: [YYYY-MM-DDTHH:mm:ss.sssZ], the year on
    six digits with a sign outside 0..9999. *)
Definition toISOString (t : Z) : string :=
  let '(y, m, d) := civilFromDays (t / msPerDay) in
  let ms := t mod msPerDay in
  let year :=
    if (0 <=? y) && (y <=? 9999) then pad 4 y
    else if y <? 0 then String "-" (pad 6 (- y))
    else String "+" (pad 6 y) in
  year +:+ "-" +:+ pad 2 m +:+ "-" +:+ pad 2 d
    +:+ "T" +:+ pad 2 (ms / 3600000)
    +:+ ":" +:+ pad 2 ((ms / 60000) mod 60)
    +:+ ":" +:+ pad 2 ((ms / 1000) mod 60)
    +:+ "." +:+ pad 3 (ms mod 1000) +:+ "Z".

Definition scanYear (s : string) : option (Z * string) :=
  match s with
  | String c r =>
      if Ascii.eqb c "+" then scanFixed 6 r 0
      else if Ascii.eqb c "-" then
        match scanFixed 6 r 0 with
        | Some (y, r') => if y =? 0 then None else Some (- y, r')
        | None => None
        end
      else scanFixed 4 s 0
  | EmptyString => None
  end.

(** A field of [width] digits and the character that ends it. *)
Definition scanField (width : nat) (terminator : ascii) (s : string) : option (Z * string) :=
  '(v, r) ← scanFixed width s 0;
  r ← expect terminator r;
  Some (v, r).

(** The time value of a string in the format of [toISOString], as the Date
    constructor reads it; [None] for any other string. *)
Definition parseISOString (s : string) : option Z :=
  '(y, r) ← scanYear s;
  r ← expect "-" r;
  '(m, r) ← scanField 2 "-" r;
  '(d, r) ← scanField 2 "T" r;
  '(h, r) ← scanField 2 ":" r;
  '(mi, r) ← scanField 2 ":" r;
  '(sec, r) ← scanField 2 "." r;
  '(ms, r) ← scanField 3 "Z" r;
  let t := daysFromCivil y m d * msPerDay + h * 3600000 + mi * 60000 + sec * 1000 + ms in
  if decide (r = EmptyString
             ∧ 1 <= m <= 12 ∧ 1 <= d <= daysInMonth y m
             ∧ h <= 23 ∧ mi <= 59 ∧ sec <= 59
             ∧ - maxTimeValue <= t <= maxTimeValue)
  then Some t else None.

(** A [Date]: the Invalid Date, or a time value. *)
Inductive DateValue :=
  | InvalidDate
  | TimeValue (t : Z).

(** [Date.prototype.toJSON], as [JSON.stringify] calls it: the ISO string,
    and [null] for the Invalid Date. *)
Definition dateToJSON (d : DateValue) : JSValue :=
  match d with
  | TimeValue t => VString (toISOString t)
  | InvalidDate => VNull
  end.

End JS.

(** ** Pipelines *)

Module PipelineTypes.

(** [types/pipeline]: a parameter has a key, a type out of six and a
    value.  The declaration leaves the value optional; the parameters the
    console builds all have one ([null] in the parameters table and in the
    edit modal, [param.value ?? null] in [MyPipelines]), and a parameter
    without the property is outside the model. *)
Inductive ParameterType := TInt | TNumber | TFloat | TString | TList | TDict.

Record PipelineParameter := {
  key : string;
  type : ParameterType;
  value : JS.JSValue;
}.

(** What [created_at] holds in an entry of the catalog: the [Date] of the
    declaration, or what JSON has left of it once the entry has been
    through [localStorage], its text or [null]. *)
Inductive DateProperty :=
  | ADate (d : JS.DateValue)
  | AText (s : string)
  | ANull.

(** The date properties of an entry of the catalog.  The declaration has
    [created_at: Date].  The objects [MyPipelines] builds have [createdAt:
    Date] in its place, between [description] and [parameters], and no
    [created_at].  The load effect of the store sets [createdAt] on every
    entry it loads: an entry that has [created_at] gets it as its last
    property. *)
Inductive Dates :=
  | Mapped (createdAt : JS.DateValue)
  | Declared (created_at : DateProperty) (createdAt : option JS.DateValue).

(** A pipeline: the properties in the order [id], [name], [description],
    the date, [parameters]. *)
Record Pipeline := {
  id : string;
  name : string;
  description : string;
  dates : Dates;
  parameters : list PipelineParameter;
}.

#[export] Instance ParameterType_eq_dec : EqDecision ParameterType.
Proof. solve_decision. Defined.

End PipelineTypes.

(** ** The execution form: [components/execution-form.tsx] *)

Module ExecutionForm.
Import JS PipelineTypes.

(** How a call ends: normally, or by throwing an [Error] with a message. *)
Inductive Completion :=
  | Normal
  | Throw (message : string).

(** [try { body } catch { handler }] *)
Definition tryCatch (body handler : Completion) : Completion :=
  match body with
  | Normal => Normal
  | Throw _ => handler
  end.

Definition validateParameterValue (key value : string) (type : ParameterType) : Completion :=
  match type with
  | TInt =>
      if negb (isInteger (Number value)) then Throw "Valor deve ser um número inteiro"
      else Normal
  | TNumber | TFloat =>
      if isNaN (Number value) then Throw "Valor deve ser um número" else Normal
  | TList =>
      tryCatch
        match JSON_parse value with
        | Some parsed =>
            if negb (isArray parsed) then Throw "Valor deve ser um array JSON válido"
            else Normal
        | None => Throw "SyntaxError"
        end
        (Throw "Valor deve ser um array JSON válido")
  | TDict =>
      tryCatch
        match JSON_parse value with
        | Some parsed =>
            if negb (typeofObject parsed) || isNull parsed || isArray parsed
            then Throw "Valor deve ser um objeto JSON válido"
            else Normal
        | None => Throw "SyntaxError"
        end
        (Throw "Valor deve ser um objeto JSON válido")
  | TString => Normal
  end.

(** What one run of [validateValues] leaves behind: the own properties of
    [newErrors], and the calls it made to [validateParameterValue], in
    order, each with the key, what [values[param.key]] read and the type. *)
Record Validation := {
  newErrors : gmap string string;
  checks : list (string * Property string * ParameterType);
}.

(** The body of the loop of [validateValues] for one parameter.  [values]
    and [newErrors] are object literals: the entry is read through
    [Object.prototype], so that under a name of the prototype an entry the
    user never typed is not [undefined], and [Number] and [JSON.parse] in
    [validateParameterValue] see it as its text; the error is assigned
    through the prototype, which ignores it under [__proto__]. *)
Definition validateParameter (values : gmap string string)
    (run : Validation) (param : PipelineParameter) : Validation :=
  let entry := readProperty values (key param) in
  let check (text : string) :=
    let call := (key param, entry, type param) in
    match validateParameterValue (key param) text (type param) with
    | Throw message =>
        {| newErrors := assignString (newErrors run) (key param) message;
           checks := checks run ++ [call] |}
    | Normal =>
        {| newErrors := newErrors run; checks := checks run ++ [call] |}
    end in
  match entry with
  | Undefined | Own EmptyString =>
      {| newErrors := assignString (newErrors run) (key param) "Valor é obrigatório";
         checks := checks run |}
  | Own value => check value
  | Inherited => check (memberText (key param))
  end.

Definition validateValues (pipeline : Pipeline) (values : gmap string string) : Validation :=
  foldl (validateParameter values) {| newErrors := ∅; checks := [] |} (parameters pipeline).

(** [Object.keys(newErrors).length === 0] *)
Definition noErrors (run : Validation) : bool := bool_decide (size (newErrors run) = 0%nat).

(** The value a parameter is submitted with: the [switch] of
    [processValues].  [None] stands for the SyntaxError of [JSON.parse]. *)
Definition coerce (type : ParameterType) (value : string) : option JSValue :=
  match type with
  | TInt => Some (VNumber (parseInt value))
  | TNumber | TFloat => Some (VNumber (parseFloat value))
  | TList | TDict => JSON_parse value
  | TString => Some (VString value)
  end.

(** A value of [processedValues]: a value of JSON, or the member of
    [Object.prototype] that the property is named after, which is what a
    [string] parameter is given when [values[param.key]] read that
    member. *)
Inductive Processed :=
  | Value (v : JSValue)
  | Member.

(** The prototype of [processedValues]: [Object.prototype] as the literal
    gives it, or what an assignment to [__proto__] has made it. *)
Inductive Prototype :=
  | ObjectPrototype
  | NoPrototype
  | ValuePrototype (v : JSValue).

Record ProcessedValues := {
  own : gmap string Processed;
  prototype : Prototype;
}.

(** [processedValues[k] = w].  A name other than [__proto__] becomes an own
    property, and so does [__proto__] when it is one already, when the
    object has no prototype, or when its prototype is an object that
    [JSON.parse] made with a property of that name.  Otherwise the
    assignment reaches the setter of [Object.prototype]: an array or an
    object becomes the prototype, [null] takes the prototype away, the
    member of the name is [Object.prototype] itself, and any other value is
    ignored. *)
Definition assign (o : ProcessedValues) (k : string) (w : Processed) : ProcessedValues :=
  let define := {| own := <[k := w]> (own o); prototype := prototype o |} in
  let setter :=
    match w with
    | Value (VArray items) => {| own := own o; prototype := ValuePrototype (VArray items) |}
    | Value (VObject props) => {| own := own o; prototype := ValuePrototype (VObject props) |}
    | Value VNull => {| own := own o; prototype := NoPrototype |}
    | Value _ => o
    | Member => {| own := own o; prototype := ObjectPrototype |}
    end in
  if negb (String.eqb k "__proto__") then define
  else
    match own o !! k with
    | Some _ => define
    | None =>
        match prototype o with
        | NoPrototype => define
        | ValuePrototype (VObject props) =>
            if bool_decide (k ∈ props.*1) then define else setter
        | _ => setter
        end
    end.

(** The body of the loop of [processValues] for one parameter: the entry
    is read as in [validateValues], and [Number.parseInt],
    [Number.parseFloat] and [JSON.parse] take a member of the prototype by
    its text. *)
Definition processParameter (values : gmap string string)
    (processedValues : option ProcessedValues) (param : PipelineParameter)
  : option ProcessedValues :=
  processed ← processedValues;
  match readProperty values (key param) with
  | Undefined => Some processed
  | Own value =>
      v ← coerce (type param) value;
      Some (assign processed (key param) (Value v))
  | Inherited =>
      match type param with
      | TString => Some (assign processed (key param) Member)
      | t =>
          v ← coerce t (memberText (key param));
          Some (assign processed (key param) (Value v))
      end
  end.

Definition processValues (pipeline : Pipeline) (values : gmap string string)
  : option ProcessedValues :=
  foldl (processParameter values) (Some {| own := ∅; prototype := ObjectPrototype |})
    (parameters pipeline).

(** What a click on the execute button does: nothing but showing the
    errors, a call of [onExecute] with the processed values, or the error
    result shown when processing throws. *)
Inductive Execute :=
  | Blocked (errors : gmap string string)
  | Submitted (processedValues : ProcessedValues)
  | Failed.

Definition handleExecute (pipeline : Pipeline) (values : gmap string string) : Execute :=
  let run := validateValues pipeline values in
  if negb (noErrors run) then Blocked (newErrors run)
  else
    match processValues pipeline values with
    | Some processedValues => Submitted processedValues
    | None => Failed
    end.

End ExecutionForm.

(** ** The pipeline forms: the new-pipeline page and the edit modal *)

Module PipelineForm.
Import JS PipelineTypes.
Local Open Scope Z_scope.

(** The keys of the error record: [name], [description] and
    [param_<index>_key]. *)
Inductive ErrorKey :=
  | ErrName
  | ErrDescription
  | ErrParamKey (index : nat).

#[export] Instance ErrorKey_eq_dec : EqDecision ErrorKey.
Proof. solve_decision. Defined.

#[export] Instance ErrorKey_countable : Countable ErrorKey.
Proof.
  refine (inj_countable'
    (λ k, match k with
          | ErrName => inl true
          | ErrDescription => inl false
          | ErrParamKey i => inr i
          end)
    (λ x, match x with
          | inl true => ErrName
          | inl false => ErrDescription
          | inr i => ErrParamKey i
          end) _).
  by intros [].
Defined.

Definition isLetter (c : ascii) : bool :=
  let n := code c in
  ((97 <=? n) && (n <=? 122)) || ((65 <=? n) && (n <=? 90)).

Definition isDigit (c : ascii) : bool :=
  let n := code c in (48 <=? n) && (n <=? 57).

Definition isUnderscore (c : ascii) : bool := code c =? 95.

Fixpoint allChars (f : ascii → bool) (s : string) : bool :=
  match s with
  | String c r => f c && allChars f r
  | EmptyString => true
  end.

(** [keyRegex.test(key)] for [/^[a-zA-Z_][a-zA-Z0-9_]*$/] *)
Definition keyRegex (key : string) : bool :=
  match key with
  | String c r =>
      (isLetter c || isUnderscore c)
      && allChars (λ x, isLetter x || isDigit x || isUnderscore x) r
  | EmptyString => false
  end.

(** The loop over the parameters, with the set of keys seen and the error
    record it updates. *)
Fixpoint validateParameters (index : nat) (parameters : list PipelineParameter)
    (uniqueKeys : gset string) (newErrors : gmap ErrorKey string) : gmap ErrorKey string :=
  match parameters with
  | [] => newErrors
  | param :: rest =>
      if negb (truthy (trim (key param))) then
        validateParameters (S index) rest uniqueKeys
          (<[ErrParamKey index := "Chave é obrigatória"]> newErrors)
      else if negb (keyRegex (key param)) then
        validateParameters (S index) rest uniqueKeys
          (<[ErrParamKey index :=
               "Chave deve começar com letra ou _ e conter apenas letras, números e _"]>
             newErrors)
      else if bool_decide (key param ∈ uniqueKeys) then
        validateParameters (S index) rest uniqueKeys
          (<[ErrParamKey index := "Chave deve ser única"]> newErrors)
      else
        validateParameters (S index) rest ({[key param]} ∪ uniqueKeys) newErrors
  end.

Definition validateName (name : string) (newErrors : gmap ErrorKey string)
  : gmap ErrorKey string :=
  if negb (truthy (trim name)) then <[ErrName := "Nome é obrigatório"]> newErrors
  else if (String.length name <? 3)%nat then
    <[ErrName := "Nome deve ter pelo menos 3 caracteres"]> newErrors
  else if (60 <? String.length name)%nat then
    <[ErrName := "Nome deve ter no máximo 60 caracteres"]> newErrors
  else newErrors.

Definition validateDescription (description : string) (newErrors : gmap ErrorKey string)
  : gmap ErrorKey string :=
  if (255 <? String.length description)%nat then
    <[ErrDescription := "Descrição deve ter no máximo 255 caracteres"]> newErrors
  else newErrors.

(** The errors [validateForm] sets; the page and the modal have the same
    function. *)
Definition formErrors (name description : string) (parameters : list PipelineParameter)
  : gmap ErrorKey string :=
  validateParameters 0%nat parameters ∅
    (validateDescription description (validateName name ∅)).

(** [validateForm]: its result is [Object.keys(newErrors).length === 0]. *)
Definition validateForm (name description : string) (parameters : list PipelineParameter)
  : bool :=
  bool_decide (size (formErrors name description parameters) = 0%nat).

End PipelineForm.

(** ** The edit modal *)

Module EditPipelineModal.
Import JS PipelineTypes.

(** [{ ...param, value: null }] *)
Definition clearValue (param : PipelineParameter) : PipelineParameter :=
  {| key := key param; type := type param; value := VNull |}.

(** The state of the modal: the pipeline it was opened for and the fields
    being edited. *)
Record Modal := {
  pipeline : Pipeline;
  name : string;
  description : string;
  parameters : list PipelineParameter;
}.

(** The initial state for a pipeline. *)
Definition open (p : Pipeline) : Modal :=
  {| pipeline := p;
     name := PipelineTypes.name p;
     description := PipelineTypes.description p;
     parameters := clearValue <$> PipelineTypes.parameters p |}.

(** What [handleSave] passes to [updatePipeline], when the form is valid. *)
Definition handleSave (m : Modal) : option Pipeline :=
  if PipelineForm.validateForm (name m) (description m) (parameters m) then
    let processedParams := clearValue <$> parameters m in
    Some {| id := id (pipeline m);
            PipelineTypes.name := name m;
            PipelineTypes.description := description m;
            dates := dates (pipeline m);
            PipelineTypes.parameters := processedParams |}
  else None.

End EditPipelineModal.

(** ** The catalog store: [context/pipeline-store] *)

Module PipelineStore.
Import JS PipelineTypes.

(** What [JSON.parse(JSON.stringify(v))] gives back for a value: a number
    that is not finite is written as [null]. *)
Fixpoint jsonCopy (v : JSValue) : JSValue :=
  match v with
  | VNumber (Finite _) => v
  | VNumber _ => VNull
  | VArray items => VArray (map jsonCopy items)
  | VObject props => VObject (map (λ kv, let '(k, x) := kv in (k, jsonCopy x)) props)
  | _ => v
  end.

Definition typeName (t : ParameterType) : string :=
  match t with
  | TInt => "int"
  | TNumber => "number"
  | TFloat => "float"
  | TString => "string"
  | TList => "list"
  | TDict => "dict"
  end.

Definition typeOfName (s : string) : option ParameterType :=
  if String.eqb s "int" then Some TInt
  else if String.eqb s "number" then Some TNumber
  else if String.eqb s "float" then Some TFloat
  else if String.eqb s "string" then Some TString
  else if String.eqb s "list" then Some TList
  else if String.eqb s "dict" then Some TDict
  else None.

(** A text kept in [localStorage], known by the value [JSON.parse] reads
    from it; [Unparsable] is a text it rejects. *)
Inductive StoredText :=
  | Unparsable
  | TextOf (v : JSValue).

Definition stringifyParameter (param : PipelineParameter) : JSValue :=
  VObject [("key", VString (key param));
           ("type", VString (typeName (type param)));
           ("value", jsonCopy (value param))].

(** What JSON writes for [created_at]: a [Date] by its [toJSON]. *)
Definition datePropertyJSON (c : DateProperty) : JSValue :=
  match c with
  | ADate d => dateToJSON d
  | AText s => VString s
  | ANull => VNull
  end.

(** The properties of a pipeline after [description], in their order. *)
Definition stringifyDates (dates : Dates) (parameters : JSValue)
  : list (string * JSValue) :=
  match dates with
  | Mapped createdAt =>
      [("createdAt", dateToJSON createdAt); ("parameters", parameters)]
  | Declared created_at None =>
      [("created_at", datePropertyJSON created_at); ("parameters", parameters)]
  | Declared created_at (Some createdAt) =>
      [("created_at", datePropertyJSON created_at); ("parameters", parameters);
       ("createdAt", dateToJSON createdAt)]
  end.

Definition stringifyPipeline (pipeline : Pipeline) : JSValue :=
  VObject ([("id", VString (id pipeline));
            ("name", VString (name pipeline));
            ("description", VString (description pipeline))]
           ++ stringifyDates (dates pipeline)
                (VArray (stringifyParameter <$> parameters pipeline))).

(** [JSON.stringify(pipelines)] *)
Definition stringify (pipelines : list Pipeline) : StoredText :=
  TextOf (VArray (stringifyPipeline <$> pipelines)).

Fixpoint lookupProperty (k : string) (props : list (string * JSValue)) : option JSValue :=
  match props with
  | [] => None
  | (k', v) :: rest => if String.eqb k' k then Some v else lookupProperty k rest
  end.

Definition getProperty (k : string) (v : JSValue) : option JSValue :=
  match v with
  | VObject props => lookupProperty k props
  | _ => None
  end.

Definition getString (k : string) (v : JSValue) : option string :=
  match getProperty k v with
  | Some (VString s) => Some s
  | _ => None
  end.

(** The names of the properties of an object, in their order. *)
Definition keys (v : JSValue) : list string :=
  match v with
  | VObject props => props.*1
  | _ => []
  end.

(** An element of the array of parameters that is a parameter of the
    model: an object with [key], [type] and [value], in this order. *)
Definition readParameter (v : JSValue) : option PipelineParameter :=
  if bool_decide (keys v = ["key"; "type"; "value"]) then
    k ← getString "key" v;
    t ← getString "type" v ≫= typeOfName;
    x ← getProperty "value" v;
    Some {| key := k; type := t; value := x |}
  else None.

(** [new Date(pipeline.createdAt)] for what the property holds in a parsed
    entry.  No property gives the Invalid Date, [null] the epoch and a
    string in the format of [toISOString] its time value.  Every other
    string, be it in a shorter form of that format or in one whose reading
    the standard leaves to the implementation, and every other value is
    outside the model: [None]. *)
Definition newDate (value : option JSValue) : option DateValue :=
  match value with
  | None => Some InvalidDate
  | Some VNull => Some (TimeValue 0)
  | Some (VString s) => TimeValue <$> parseISOString s
  | Some _ => None
  end.

(** What JSON has left under [created_at]; [None] for a value that is
    neither a string nor [null]. *)
Definition readDateProperty (value : JSValue) : option DateProperty :=
  match value with
  | VString s => Some (AText s)
  | VNull => Some ANull
  | _ => None
  end.

(** [{ ...pipeline, createdAt: new Date(pipeline.createdAt) }] for a parsed
    entry with the properties of a pipeline in one of the three orders the
    store writes them in; [None] for every other value: what the spread
    makes of it is not a pipeline of the model. *)
Definition readPipeline (v : JSValue) : option Pipeline :=
  i ← getString "id" v;
  n ← getString "name" v;
  d ← getString "description" v;
  ps ← match getProperty "parameters" v with
       | Some (VArray items) => mapM readParameter items
       | _ => None
       end;
  dates ←
    (if bool_decide (keys v = ["id"; "name"; "description"; "createdAt"; "parameters"])
     then Mapped <$> newDate (getProperty "createdAt" v)
     else if bool_decide
               (keys v = ["id"; "name"; "description"; "created_at"; "parameters"]
                ∨ keys v = ["id"; "name"; "description"; "created_at"; "parameters";
                            "createdAt"])
     then
       c ← getProperty "created_at" v ≫= readDateProperty;
       date ← newDate (getProperty "createdAt" v);
       Some (Declared c (Some date))
     else None);
  Some {| id := i; name := n; description := d; dates := dates; parameters := ps |}.

(** What the loading effect does with the text under [pipelines]. *)
Inductive Load :=
  | NotSet
  | Loaded (pipelinesWithDates : list Pipeline)
  | Foreign.

(** The loading effect.  The catalog is not set when there is no text,
    when [JSON.parse] throws, and when what it returns has no [map] or has
    [null] among its elements, whose [createdAt] cannot be read: the
    [catch] logs the error.  An array of pipelines is loaded.  Any other
    array is mapped and set as well; its entries are not pipelines of the
    model, which has nothing to say about such a catalog: [Foreign]. *)
Definition loadEffect (storage : option StoredText) : Load :=
  match storage with
  | Some (TextOf (VArray items)) =>
      if existsb isNull items then NotSet
      else
        match mapM readPipeline items with
        | Some pipelinesWithDates => Loaded pipelinesWithDates
        | None => Foreign
        end
  | _ => NotSet
  end.

(** The provider: its state, what [localStorage] holds under [pipelines],
    and the texts written there so far, oldest first. *)
Record Store := {
  pipelines : list Pipeline;
  localStorage : option StoredText;
  writes : list StoredText;
}.

(** The effect on [pipelines]: [localStorage.setItem("pipelines",
    JSON.stringify(pipelines))]. *)
Definition saveEffect (s : Store) : Store :=
  {| pipelines := pipelines s;
     localStorage := Some (stringify (pipelines s));
     writes := writes s ++ [stringify (pipelines s)] |}.

(** [setPipelinesState(update)]: the new array is a fresh one, the provider
    renders again and the effect on [pipelines] runs. *)
Definition setPipelinesState (update : list Pipeline → list Pipeline) (s : Store) : Store :=
  saveEffect
    {| pipelines := update (pipelines s);
       localStorage := localStorage s;
       writes := writes s |}.

Definition addPipeline (pipeline : Pipeline) : Store → Store :=
  setPipelinesState (λ prev, prev ++ [pipeline]).

Definition updatePipeline (updatedPipeline : Pipeline) : Store → Store :=
  setPipelinesState (λ prev,
    (λ pipeline, if decide (id pipeline = id updatedPipeline) then updatedPipeline else pipeline)
      <$> prev).

Definition deletePipeline (id' : string) : Store → Store :=
  setPipelinesState (λ prev, filter (λ pipeline, id pipeline ≠ id') prev).

Definition setPipelines (newPipelines : list Pipeline) : Store → Store :=
  setPipelinesState (λ _, newPipelines).

(** Mounting the provider over a storage.  The first render has the empty
    catalog; the loading effect reads the stored text, then the saving effect
    writes the empty catalog; the loaded catalog, if there is one, is set
    next and saved by the effect of the second render.  There is no store
    of the model over a foreign array. *)
Definition firstCommit (storage : option StoredText) : Store :=
  saveEffect {| pipelines := []; localStorage := storage; writes := [] |}.

Definition mount (storage : option StoredText) : option Store :=
  match loadEffect storage with
  | NotSet => Some (firstCommit storage)
  | Loaded pipelinesWithDates =>
      Some (setPipelinesState (λ _, pipelinesWithDates) (firstCommit storage))
  | Foreign => None
  end.

(** A later session over what this one left in [localStorage]. *)
Definition reload (s : Store) : option Store := mount (localStorage s).

End PipelineStore.

(** ** Executions *)

Module ExecutionTypes.

(** [PENDING], [STARTED], [SUCCESS] and [FAILURE] are the statuses of
    [types/execution]; the mock data also has [RUNNING]. *)
Inductive ExecutionStatus := PENDING | STARTED | RUNNING | SUCCESS | FAILURE.

#[export] Instance ExecutionStatus_eq_dec : EqDecision ExecutionStatus.
Proof. solve_decision. Defined.

Record LogEntry := {
  mensagem : string;
  data : string;
}.

Record Execution := {
  requestId : string;
  pipelineName : string;
  version : string;
  params : string;
  status : ExecutionStatus;
  retryCount : Z;
  createdAt : Z;
  startedAt : option Z;
  finishedAt : option Z;
  outputType : option string;
  outputPath : option string;
  error : option string;
  logs : list LogEntry;
}.

(** The status of a filter: a status or ["ALL"]. *)
Inductive StatusFilter :=
  | ALL
  | Only (s : ExecutionStatus).

(** [ExecutionFilter]; every field may be undefined.  [statusFilter] is its
    field [status]. *)
Record ExecutionFilter := {
  search : option string;
  statusFilter : option StatusFilter;
  dateFrom : option Z;
  dateTo : option Z;
}.

End ExecutionTypes.

(** ** Fetching executions: [lib/execution-client.ts] and [lib/mock-data.ts] *)

Module ExecutionClient.
Import JS ExecutionTypes.
Local Open Scope Z_scope.

(** [s.includes(sub)] *)
Fixpoint includes (s sub : string) : bool :=
  String.prefix sub s ||
  match s with
  | String _ r => includes r sub
  | EmptyString => false
  end.

(** A task record as the API returns it. *)
Record RawTask := {
  request_id : string;
  notebook_name : string;
  raw_version : string;
  raw_params : string;
  raw_status : ExecutionStatus;
  retry_count : Z;
  created_at : string;
  started_at : option string;
  finished_at : option string;
  output_type : option string;
  output_path : option string;
  raw_error : option string;
  raw_logs : option (list LogEntry);
}.

Section Environment.
(** What the host decides: [String.prototype.toLowerCase], the end of the
    local day of a date ([setHours(23, 59, 59, 999)]), and the Date
    constructor on the timestamps of the API. *)
Variable toLowerCase : string → string.
Variable endOfDay : Z → Z.
Variable newDate : string → Z.

(** [raw ? new Date(raw) : null] *)
Definition dateOrNull (raw : option string) : option Z :=
  match raw with
  | Some s => if truthy s then Some (newDate s) else None
  | None => None
  end.

Definition mapTaskToExecution (raw : RawTask) : Execution :=
  {| requestId := request_id raw;
     pipelineName := notebook_name raw;
     version := raw_version raw;
     params := raw_params raw;
     status := raw_status raw;
     retryCount := retry_count raw;
     createdAt := newDate (created_at raw);
     startedAt := dateOrNull (started_at raw);
     finishedAt := dateOrNull (finished_at raw);
     outputType := output_type raw;
     outputPath := output_path raw;
     error := raw_error raw;
     logs := default [] (raw_logs raw) |}.

Definition matchesSearch (s : string) (e : Execution) : bool :=
  includes (toLowerCase (requestId e)) s
  || includes (toLowerCase (pipelineName e)) s
  || includes (toLowerCase (version e)) s.

(** The four filters, which both data sources apply in this order. *)
Definition applyFilters (filters : ExecutionFilter) (executions : list Execution)
  : list Execution :=
  let executions :=
    match search filters with
    | Some text =>
        if truthy text then
          filter (λ e, matchesSearch (toLowerCase text) e = true) executions
        else executions
    | None => executions
    end in
  let executions :=
    match statusFilter filters with
    | Some (Only s) => filter (λ e, status e = s) executions
    | _ => executions
    end in
  let executions :=
    match dateFrom filters with
    | Some from => filter (λ e, from <= createdAt e) executions
    | None => executions
    end in
  match dateTo filters with
  | Some to => filter (λ e, createdAt e <= endOfDay to) executions
  | None => executions
  end.

(** The comparator of [fetchExecutions]. *)
Definition byCreatedAtDesc (a b : Execution) : Z := createdAt b - createdAt a.

(** The executions before the page is cut out. *)
Definition fetchedExecutions (data : list RawTask) (filters : ExecutionFilter)
  : list Execution :=
  sort byCreatedAtDesc (applyFilters filters (mapTaskToExecution <$> data)).

(** [fetchExecutions] on a response [data] of the API: the page and the
    total. *)
Definition fetchExecutions (data : list RawTask) (filters : ExecutionFilter)
    (page pageSize : Z) : list Execution * Z :=
  let executions := fetchedExecutions data filters in
  let total := Z.of_nat (length executions) in
  let offset := (page - 1) * pageSize in
  (slice executions offset (offset + pageSize), total).

(** The comparator of [getMockExecutions]. *)
Definition byFinishedAtDesc (a b : Execution) : Z :=
  match finishedAt a, finishedAt b with
  | None, None => 0
  | None, _ => 1
  | _, None => -1
  | Some fa, Some fb => fb - fa
  end.

Definition sortedMockExecutions (mockExecutions : list Execution)
    (filters : ExecutionFilter) : list Execution :=
  sort byFinishedAtDesc (applyFilters filters mockExecutions).

(** [getMockExecutions] over the module's list [mockExecutions]. *)
Definition getMockExecutions (mockExecutions : list Execution)
    (filters : ExecutionFilter) (page pageSize : Z) : list Execution * Z :=
  let filtered := sortedMockExecutions mockExecutions filters in
  let start := (page - 1) * pageSize in
  (slice filtered start (start + pageSize), Z.of_nat (length filtered)).
End Environment.

Definition getMockExecutionById (mockExecutions : list Execution) (id : string)
  : option Execution :=
  List.find (λ exec, String.eqb (requestId exec) id) mockExecutions.

Record DownloadResult := {
  success : bool;
  message : option string;
}.

(** [downloadMockFile] at the time [now]. *)
Definition downloadMockFile (mockExecutions : list Execution) (now : Z) (id : string)
  : DownloadResult :=
  match getMockExecutionById mockExecutions id with
  | None => {| success := false; message := Some "Execução não encontrada" |}
  | Some execution =>
      if negb (bool_decide (status execution = SUCCESS)) then
        {| success := false;
           message := Some "Arquivo disponível apenas para execuções bem-sucedidas" |}
      else
        match finishedAt execution with
        | None => {| success := false; message := Some "Execução não finalizada" |}
        | Some finished =>
            let threeHoursInMs := 3 * 60 * 60 * 1000 in
            if threeHoursInMs <? now - finished then
              {| success := false;
                 message :=
                   Some "Arquivo expirado (disponível por até 3 horas após a conclusão)" |}
            else {| success := true; message := None |}
        end
  end.

End ExecutionClient.

(** ** The monitor page *)

Module Monitor.
Import JS ExecutionTypes.
Local Open Scope Z_scope.

(** [isDownloadAvailable] at the time [now] that [Date.now()] returns. *)
Definition isDownloadAvailable (now : Z) (execution : Execution) : bool :=
  match finishedAt execution with
  | Some finished =>
      if negb (bool_decide (status execution = SUCCESS)) then false
      else
        let threeHours := 3 * 60 * 60 * 1000 in
        now - finished <=? threeHours
  | None =>
      (* [status !== "SUCCESS" || !finishedAt]: either way the result is false *)
      false
  end.

Definition getExpiryDate (finished : Z) : Z := finished + 3 * 60 * 60 * 1000.

(** The cell of the availability column. *)
Inductive Availability :=
  | Countdown (expiryDate : Z)
  | Expirado
  | NoAvailability.

Definition availabilityCell (now : Z) (execution : Execution) : Availability :=
  match finishedAt execution with
  | Some finished =>
      if bool_decide (status execution = SUCCESS) then
        if isDownloadAvailable now execution then Countdown (getExpiryDate finished)
        else Expirado
      else NoAvailability
  | None => NoAvailability
  end.

(** The [disabled] attribute of the download button. *)
Definition downloadDisabled (now : Z) (execution : Execution) : bool :=
  negb (isDownloadAvailable now execution).

Definition downloadTooltip (now : Z) (execution : Execution) : string :=
  if isDownloadAvailable now execution then "Baixar arquivo"
  else if bool_decide (status execution = SUCCESS) then "Arquivo expirado"
  else "Download indisponível".

(** The state of the page that paging depends on. *)
Record State := {
  executions : list Execution;
  totalExecutions : Z;
  currentPage : Z;
  pageSize : Z;
  filters : ExecutionFilter;
}.

Definition initialState : State :=
  {| executions := [];
     totalExecutions := 0;
     currentPage := 1;
     pageSize := 10;
     filters := {| search := Some EmptyString; statusFilter := Some ALL;
                   dateFrom := None; dateTo := None |} |}.

(** [Math.ceil(a / b)] for a positive [b]. *)
Definition ceilDiv (a b : Z) : Z := - ((- a) / b).

Definition totalPages (s : State) : Z := ceilDiv (totalExecutions s) (pageSize s).

(** A change of one field of the filters: the [key] and [value] of
    [handleFilterChange]. *)
Inductive FilterChange :=
  | SetSearch (value : option string)
  | SetStatus (value : option StatusFilter)
  | SetDateFrom (value : option Z)
  | SetDateTo (value : option Z).

Definition changeFilter (change : FilterChange) (f : ExecutionFilter) : ExecutionFilter :=
  match change with
  | SetSearch v =>
      {| search := v; statusFilter := statusFilter f; dateFrom := dateFrom f; dateTo := dateTo f |}
  | SetStatus v =>
      {| search := search f; statusFilter := v; dateFrom := dateFrom f; dateTo := dateTo f |}
  | SetDateFrom v =>
      {| search := search f; statusFilter := statusFilter f; dateFrom := v; dateTo := dateTo f |}
  | SetDateTo v =>
      {| search := search f; statusFilter := statusFilter f; dateFrom := dateFrom f; dateTo := v |}
  end.

Definition setCurrentPage (update : Z → Z) (s : State) : State :=
  {| executions := executions s;
     totalExecutions := totalExecutions s;
     currentPage := update (currentPage s);
     pageSize := pageSize s;
     filters := filters s |}.

Definition handleFilterChange (change : FilterChange) (s : State) : State :=
  setCurrentPage (λ _, 1)
    {| executions := executions s;
       totalExecutions := totalExecutions s;
       currentPage := currentPage s;
       pageSize := pageSize s;
       filters := changeFilter change (filters s) |}.

(** The click handlers of the two paging buttons. *)
Definition previousPage (s : State) : State :=
  setCurrentPage (λ prev, Z.max (prev - 1) 1) s.

Definition nextPage (s : State) : State :=
  setCurrentPage (λ prev, Z.min (prev + 1) (totalPages s)) s.

(** The result of [loadExecutions]: the page and the total it was given. *)
Definition loaded (list : list Execution) (total : Z) (s : State) : State :=
  {| executions := list;
     totalExecutions := total;
     currentPage := currentPage s;
     pageSize := pageSize s;
     filters := filters s |}.

(** The paging buttons are rendered only when there is more than one page,
    and each is disabled at its end of the range. *)
Definition previousEnabled (s : State) : bool :=
  (1 <? totalPages s) && negb (currentPage s =? 1).

Definition nextEnabled (s : State) : bool :=
  (1 <? totalPages s) && negb (currentPage s =? totalPages s).

(** What can happen to the page: a filter changes, an enabled paging button
    is clicked, or a fetch resolves with a page and the length of the
    filtered list. *)
Inductive step : State → State → Prop :=
  | step_filter change s :
      step s (handleFilterChange change s)
  | step_previous s :
      previousEnabled s = true → step s (previousPage s)
  | step_next s :
      nextEnabled s = true → step s (nextPage s)
  | step_loaded list total s :
      0 <= total → step s (loaded list total s).

Inductive reachable : State → Prop :=
  | reachable_initial : reachable initialState
  | reachable_step s s' : reachable s → step s s' → reachable s'.

End Monitor.

(** ** More host functions: numbers and values as text *)

Module JSText.
Import JS.
Local Open Scope Z_scope.

(** The decimal digits of [n], most significant first, in front of [acc]. *)
Fixpoint digits (fuel : nat) (n : Z) (acc : string) : string :=
  match fuel with
  | O => acc
  | S fuel' =>
      let acc' := String (asciiOfZ (48 + n mod 10)) acc in
      if n <? 10 then acc' else digits fuel' (n / 10) acc'
  end.

(** [n.toString()] for an integer [0 <= n]; a number has no more decimal
    digits than binary ones. *)
Definition toString (n : Z) : string := digits (S (Z.to_nat (Z.log2 n))) n EmptyString.

(** [s.padStart(targetLength, fill)] for a filler of one character. *)
Definition padStart (targetLength : nat) (fill : ascii) (s : string) : string :=
  Nat.iter (targetLength - String.length s) (String fill) s.

(** The double quote, code unit 34, and the reverse solidus. *)
Definition quotationMark : string := String (asciiOfZ 34) EmptyString.
Definition reverseSolidus : string := String (asciiOfZ 92) EmptyString.

Definition hexDigit (n : Z) : ascii := asciiOfZ (if n <? 10 then 48 + n else 87 + n).

(** QuoteJSONString on one code unit: the two-character escapes, [\u00xx]
    for the other control characters, and the character itself otherwise. *)
Definition escapeChar (c : ascii) : string :=
  let n := code c in
  if (n =? 34) || (n =? 92) then reverseSolidus +:+ String c EmptyString
  else if n =? 8 then reverseSolidus +:+ "b"
  else if n =? 12 then reverseSolidus +:+ "f"
  else if n =? 10 then reverseSolidus +:+ "n"
  else if n =? 13 then reverseSolidus +:+ "r"
  else if n =? 9 then reverseSolidus +:+ "t"
  else if n <? 32 then
    reverseSolidus +:+ "u00"
      +:+ String (hexDigit (n / 16)) (String (hexDigit (n mod 16)) EmptyString)
  else String c EmptyString.

Fixpoint escape (s : string) : string :=
  match s with
  | String c r => escapeChar c +:+ escape r
  | EmptyString => EmptyString
  end.

Definition quoteJSONString (s : string) : string :=
  quotationMark +:+ escape s +:+ quotationMark.

(** A number in a JSON text: [null] for NaN and the infinities, the
    decimal digits for an integer below [2 ^ 53] in magnitude.  The text of
    the other numbers, the shortest decimal that reads back as the number,
    is outside the model: [None]. *)
Definition numberText (x : number) : option string :=
  match x with
  | Finite q =>
      if Pos.eqb (Qden q) 1 && (Z.abs (Qnum q) <? 2 ^ 53) then
        Some ((if Qnum q <? 0 then "-" else "") +:+ toString (Z.abs (Qnum q)))
      else None
  | _ => Some "null"
  end.

(** The texts of the elements of an array or of the members of an object,
    joined by commas. *)
Fixpoint joinTexts (l : list (option string)) : option string :=
  match l with
  | [] => Some EmptyString
  | [x] => x
  | x :: l' =>
      match x, joinTexts l' with
      | Some a, Some b => Some (a +:+ "," +:+ b)
      | _, _ => None
      end
  end.

(** [JSON.stringify(v)] with no indentation. *)
Fixpoint JSON_stringify (v : JSValue) : option string :=
  match v with
  | VNull => Some "null"
  | VBool b => Some (if b then "true" else "false")
  | VNumber x => numberText x
  | VString s => Some (quoteJSONString s)
  | VArray items =>
      match joinTexts (map JSON_stringify items) with
      | Some body => Some ("[" +:+ body +:+ "]")
      | None => None
      end
  | VObject props =>
      let member (kv : string * JSValue) : option string :=
        let '(k, x) := kv in
        match JSON_stringify x with
        | Some a => Some (quoteJSONString k +:+ ":" +:+ a)
        | None => None
        end in
      match joinTexts (map member props) with
      | Some body => Some ("{" +:+ body +:+ "}")
      | None => None
      end
  end.

(** An object has one property of a name: the keys of every object in
    the value are distinct. *)
Fixpoint distinctKeys (v : JSValue) : bool :=
  match v with
  | VArray items => forallb distinctKeys items
  | VObject props =>
      bool_decide (NoDup props.*1)
      && forallb (λ kv, let '(_, x) := kv in distinctKeys x) props
  | _ => true
  end.

End JSText.

(** ** The entry fields of the execution form *)

Module ExecutionFormFields.
Import JS JSText PipelineTypes ExecutionForm.

Definition getInputTypeForParameterType (type : ParameterType) : string :=
  match type with
  | TInt | TNumber | TFloat => "number"
  | _ => "text"
  end.

Definition getPlaceholderForType (type : ParameterType) : string :=
  match type with
  | TInt => "42"
  | TNumber | TFloat => "3.14"
  | TString => "texto"
  | TList => "[1, 2, 3]"
  | TDict => "{" +:+ quotationMark +:+ "chave" +:+ quotationMark +:+ ": "
             +:+ quotationMark +:+ "valor" +:+ quotationMark +:+ "}"
  end.

(** The two records of the form's state that typing changes. *)
Record Fields := {
  values : gmap string string;
  errors : gmap string string;
}.

(** [errors[key]] as a condition: there is a message and it is not empty,
    or the key is a name of [Object.prototype], whose member is an object. *)
Definition hasError (errors : gmap string string) (key : string) : bool :=
  match readProperty errors key with
  | Own message => truthy message
  | Inherited => true
  | Undefined => false
  end.

Definition handleValueChange (key value : string) (type : ParameterType) (s : Fields) : Fields :=
  {| values := <[key := value]> (values s);
     errors := if hasError (errors s) key then delete key (errors s) else errors s |}.

Definition setErrors (newErrors : gmap string string) (s : Fields) : Fields :=
  {| values := values s; errors := newErrors |}.

(** The state after a click on the execute button: [validateValues] ends
    with [setErrors(newErrors)]. *)
Definition clicked (pipeline : Pipeline) (s : Fields) : Fields :=
  setErrors (newErrors (validateValues pipeline (values s))) s.

End ExecutionFormFields.

(** ** The execute page: [app/execute-pipeline/page.tsx] *)

Module ExecutePipeline.
Import JS PipelineTypes ExecutionForm.







End ExecutePipeline.

(** ** The parameters table: [components/parameters-table.tsx] *)

Module ParametersTable.
Import JS PipelineTypes.

Definition addParameter (parameters : list PipelineParameter) : list PipelineParameter :=
  parameters ++ [{| key := ""; type := TString; value := VNull |}].

(** [parameters.filter((_, i) => i !== index)] *)
Definition removeParameter (index : nat) (parameters : list PipelineParameter)
  : list PipelineParameter :=
  (filter (λ entry, entry.1 ≠ index) (imap pair parameters)).*2.

(** The field and the value of a call of [updateParameter]: the table
    calls it with ["key"] and the text of the input, and with ["type"] and
    the type selected. *)
Inductive FieldValue :=
  | KeyField (value : string)
  | TypeField (value : ParameterType).

(** [{ ...param, [field]: value }] *)
Definition setField (param : PipelineParameter) (field : FieldValue) : PipelineParameter :=
  match field with
  | KeyField k => {| key := k; type := type param; value := value param |}
  | TypeField t => {| key := key param; type := t; value := value param |}
  end.

(** [updateParameter] at the index of a row.  Past the end of the array the
    assignment would add an object with the one field only, which is not a
    parameter: [None]. *)
Definition updateParameter (index : nat) (field : FieldValue)
    (parameters : list PipelineParameter) : option (list PipelineParameter) :=
  match parameters !! index with
  | Some param => Some (<[index := setField param field]> parameters)
  | None => None
  end.

End ParametersTable.

(** ** Submitting a new pipeline: [app/new-pipeline/page.tsx] *)

Module NewPipeline.
Import JS PipelineTypes.

(** A parameter as the request carries it: [{ name, type }]. *)
Record RequestParameter := {
  name : string;
  type : ParameterType;
}.

Record Payload := {
  payloadName : string;
  payloadDescription : string;
  payloadParameters : list RequestParameter;
}.

(** The body [handleSubmit] posts; [None] when it returns before the
    request because [validateForm] failed. *)
Definition handleSubmit (name' description : string) (parameters : list PipelineParameter)
  : option Payload :=
  if negb (PipelineForm.validateForm name' description parameters) then None
  else
    Some {| payloadName := name';
            payloadDescription := description;
            payloadParameters :=
              (λ param, {| name := key param; type := PipelineTypes.type param |})
                <$> parameters |}.

End NewPipeline.

(** ** The catalog in a session *)

Module CatalogSession.
Import PipelineTypes PipelineStore.

(** The operations the provider hands to the pages. *)
Inductive Operation :=
  | Add (pipeline : Pipeline)
  | Update (updatedPipeline : Pipeline)
  | Delete (id' : string)
  | SetAll (newPipelines : list Pipeline).

Definition perform (s : Store) (op : Operation) : Store :=
  match op with
  | Add p => addPipeline p s
  | Update p => updatePipeline p s
  | Delete i => deletePipeline i s
  | SetAll l => setPipelines l s
  end.

(** A session: the provider is mounted over the storage and the pages
    perform operations. *)
Definition session (storage : option StoredText) (ops : list Operation) : option Store :=
  (λ mounted, foldl perform mounted ops) <$> mount storage.

End CatalogSession.

(** ** The text in [localStorage] *)

Module StorageText.
Import JS JSText PipelineTypes PipelineStore.

(** A parameter and a pipeline of the catalog as the values
    [JSON.stringify] walks; the [Date] gives its [toJSON]. *)
Definition parameterValue (param : PipelineParameter) : JSValue :=
  VObject [("key", VString (key param));
           ("type", VString (typeName (type param)));
           ("value", value param)].

Definition pipelineValue (pipeline : Pipeline) : JSValue :=
  VObject ([("id", VString (id pipeline));
            ("name", VString (name pipeline));
            ("description", VString (description pipeline))]
           ++ stringifyDates (dates pipeline)
                (VArray (parameterValue <$> parameters pipeline))).

(** The text the saving effect hands to [localStorage.setItem]. *)
Definition storedText (pipelines : list Pipeline) : option string :=
  JSON_stringify (VArray (pipelineValue <$> pipelines)).

(** What the loading effect makes of the text under [pipelines]. *)
Definition storedAs (text : string) : StoredText :=
  match JSON_parse text with
  | Some v => TextOf v
  | None => Unparsable
  end.

End StorageText.

(** ** The edit modal on the catalog *)

Module EditPipelineActions.
Import PipelineTypes EditPipelineModal PipelineStore.

(** [handleSave] on the catalog: [updatePipeline] is called when the form
    is valid, and nothing is when it is not. *)
Definition saveChanges (m : Modal) (s : Store) : Store :=
  match handleSave m with
  | Some updatedPipeline => updatePipeline updatedPipeline s
  | None => s
  end.

(** [handleDelete]: [deletePipeline(pipeline.id)] *)
Definition handleDelete (m : Modal) : Store → Store :=
  deletePipeline (id (pipeline m)).

End EditPipelineActions.

(** ** The countdown of the monitor: [components/countdown-timer.tsx] *)

Module CountdownTimer.
Import JS JSText.
Local Open Scope Z_scope.

(** The state of the component. *)
Record Timer := {
  timeLeft : string;
  isExpired : bool;
}.

Definition initialTimer : Timer := {| timeLeft := EmptyString; isExpired := false |}.

(** [calculateTimeLeft] at the time [now]. *)
Definition calculateTimeLeft (expiryDate now : Z) (s : Timer) : Timer :=
  let difference := expiryDate - now in
  if difference <=? 0 then {| timeLeft := "Expirado"; isExpired := true |}
  else
    let hours := difference / (1000 * 60 * 60) in
    let minutes := (difference mod (1000 * 60 * 60)) / (1000 * 60) in
    let seconds := (difference mod (1000 * 60)) / 1000 in
    {| timeLeft :=
         padStart 2 "0" (toString hours) +:+ ":" +:+ padStart 2 "0" (toString minutes)
           +:+ ":" +:+ padStart 2 "0" (toString seconds);
       isExpired := isExpired s |}.

End CountdownTimer.

(** ** The rows and the paging label of the monitor *)

Module MonitorView.
Import JS ExecutionTypes Monitor.
Local Open Scope Z_scope.

(** [execution.finishedAt && !isDownloadAvailable(execution)]: the row is
    shown muted. *)
Definition isExpired (now : Z) (execution : Execution) : bool :=
  match finishedAt execution with
  | Some _ => negb (isDownloadAvailable now execution)
  | None => false
  end.

(** [handleDownload]: the request id [downloadFile] is called with, if it
    is called. *)
Definition handleDownload (now : Z) (execution : Execution) : option string :=
  if negb (isDownloadAvailable now execution) then None
  else Some (requestId execution).

(** The numbers of the label [Mostrando a a b de c execuções]. *)
Definition pagingLabel (s : State) : Z * Z * Z :=
  ((currentPage s - 1) * pageSize s + 1,
   Z.min (currentPage s * pageSize s) (totalExecutions s),
   totalExecutions s).

(** The label and the buttons are rendered when [totalPages > 1]. *)
Definition pagingShown (s : State) : bool := 1 <? totalPages s.

Section Environment.
Variable toLowerCase : string → string.
Variable endOfDay : Z → Z.
Variable newDate : string → Z.

(** [loadExecutions] when the request succeeds with the response [data]. *)
Definition loadExecutions (data : list ExecutionClient.RawTask) (s : State) : State :=
  let '(list, total) :=
    ExecutionClient.fetchExecutions toLowerCase endOfDay newDate data
      (filters s) (currentPage s) (pageSize s) in
  loaded list total s.
End Environment.

End MonitorView.

(** * Properties *)

(** ** Dates: the ISO string of a date reads back as the date *)

Module DateFacts.
Import JS.
Local Open Scope Z_scope.

Lemma digitValue_digit (d : Z) :
  0 <= d <= 9 → digitValue 10 (asciiOfZ (48 + d)) = Some d.
Proof.
  intros H.
  assert (d = 0 ∨ d = 1 ∨ d = 2 ∨ d = 3 ∨ d = 4 ∨ d = 5 ∨ d = 6 ∨ d = 7 ∨ d = 8 ∨ d = 9)
    as Hd by lia.
  repeat (destruct Hd as [-> | Hd]; [done|]). by subst.
Qed.

Lemma append_cons (c : ascii) (s r : string) :
  String c s +:+ r = String c (s +:+ r).
Proof. reflexivity. Qed.

Lemma scanFixed_pad (w : nat) (n acc : Z) (rest : string) :
  0 <= n →
  scanFixed w (pad w n +:+ rest) acc = Some (acc * 10 ^ Z.of_nat w + n mod 10 ^ Z.of_nat w, rest).
Proof.
  intros Hn. revert acc. induction w as [|w IH]; intros acc.
  - simpl. rewrite Z.mod_1_r. do 2 f_equal. lia.
  - cbn [pad]. rewrite append_cons. cbn [scanFixed].
    rewrite digitValue_digit
      by (pose proof (Z.mod_pos_bound (n / 10 ^ Z.of_nat w) 10); lia).
    rewrite IH. do 2 f_equal.
    rewrite Nat2Z.inj_succ, Z.pow_succ_r by lia.
    rewrite (Z.mul_comm 10), Z.rem_mul_r by lia. lia.
Qed.

Lemma scanFixed_pad_small (w : nat) (n : Z) (rest : string) :
  0 <= n < 10 ^ Z.of_nat w →
  scanFixed w (pad w n +:+ rest) 0 = Some (n, rest).
Proof.
  intros Hn. rewrite scanFixed_pad by lia. rewrite Z.mod_small by lia. done.
Qed.

(** *** The calendar *)

(** The year of a day of a 400-year era, as [civilFromDays] computes it,
    and the first day of a year of the era. *)
Definition yearOfEra (doe : Z) : Z :=
  (doe - doe / 1460 + doe / 36524 - doe / 146096) / 365.

Definition yearStart (yoe : Z) : Z := 365 * yoe + yoe / 4 - yoe / 100.

(** The year that ends with a 29th of February. *)
Definition longYear (yoe : Z) : bool := isLeapYear (yoe + 1).

(** What is checked for each of the 400 years: the formula gives the year
    on its first and on its last day but one, and the year is not longer
    than the calendar has it. *)
Definition yearCheck (yoe : Z) : bool :=
  (yearOfEra (yearStart yoe) =? yoe)
  && (yearOfEra (yearStart (yoe + 1) - 1) =? yoe)
  && (0 <=? yearStart yoe)
  && (yearStart (yoe + 1) <=? 146096)
  && (yearStart (yoe + 1) - yearStart yoe <=? 365 + (if longYear yoe then 1 else 0)).

(** What is checked for each day of a year: its month and day of the month
    are those of a calendar date. *)
Definition dayCheck (long : bool) (doy : Z) : bool :=
  let mp := (5 * doy + 2) / 153 in
  let d := doy - (153 * mp + 2) / 5 + 1 in
  let m := if mp <? 10 then mp + 3 else mp - 9 in
  (0 <=? mp) && (mp <=? 11) && (1 <=? d)
  && (d <=? (if m =? 2 then (if long then 29 else 28) else daysInMonth 1 m)).

Fixpoint checkRange (check : Z → bool) (n : nat) (from : Z) : bool :=
  match n with
  | O => true
  | S k => check from && checkRange check k (from + 1)
  end.

Lemma checkRange_spec (check : Z → bool) (n : nat) (from z : Z) :
  checkRange check n from = true → from <= z < from + Z.of_nat n → check z = true.
Proof.
  revert from. induction n as [|n IH]; intros from; [lia|].
  cbn [checkRange]. intros [H1 H2]%andb_prop Hz.
  destruct (decide (z = from)) as [->|]; [done|]. apply (IH (from + 1)); [done | lia].
Qed.

Lemma yearCheck_true (yoe : Z) : 0 <= yoe < 400 → yearCheck yoe = true.
Proof.
  intros H. apply (checkRange_spec yearCheck 400 0); [vm_compute; reflexivity | lia].
Qed.

Lemma dayCheck_true (long : bool) (doy : Z) :
  0 <= doy < 365 + (if long then 1 else 0) → dayCheck long doy = true.
Proof.
  intros H. destruct long.
  - apply (checkRange_spec (dayCheck true) 366 0); [vm_compute; reflexivity | lia].
  - apply (checkRange_spec (dayCheck false) 365 0); [vm_compute; reflexivity | lia].
Qed.

(** The formula does not decrease from a day to a later day. *)
Lemma yearOfEra_mono (a b : Z) :
  0 <= a <= b → b < 146096 → yearOfEra a <= yearOfEra b.
Proof.
  intros Hab Hb. unfold yearOfEra. apply Z.div_le_mono; [lia|].
  rewrite (Z.div_small a 146096), (Z.div_small b 146096) by lia.
  pose proof (Z.div_mod a 1460 ltac:(lia)). pose proof (Z.mod_pos_bound a 1460 ltac:(lia)).
  pose proof (Z.div_mod b 1460 ltac:(lia)). pose proof (Z.mod_pos_bound b 1460 ltac:(lia)).
  pose proof (Z.div_le_mono a b 36524 ltac:(lia) ltac:(lia)).
  lia.
Qed.

(** Every day of the era but the last is a day of one of its years. *)
Lemma year_of_day (n : nat) (doe : Z) :
  (n <= 400)%nat → 0 <= doe < yearStart (Z.of_nat n) →
  ∃ yoe, 0 <= yoe < Z.of_nat n ∧ yearStart yoe <= doe < yearStart (yoe + 1).
Proof.
  induction n as [|n IH]; intros Hn Hdoe.
  - change (yearStart (Z.of_nat 0)) with 0 in Hdoe. lia.
  - destruct (Z.lt_ge_cases doe (yearStart (Z.of_nat n))) as [Hlt | Hge].
    + assert (Hn' : (n <= 400)%nat) by lia.
      assert (Hdoe' : 0 <= doe < yearStart (Z.of_nat n)) by lia.
      destruct (IH Hn' Hdoe') as (yoe & Hyoe & Hday).
      exists yoe. split; [lia | done].
    + exists (Z.of_nat n). split; [lia|]. split; [done|].
      replace (Z.of_nat n + 1) with (Z.of_nat (S n)) by lia. apply Hdoe.
Qed.

(** The year and the day of the year of a day of the era. *)
Lemma year_and_day (doe : Z) :
  0 <= doe < 146097 →
  0 <= yearOfEra doe < 400
  ∧ 0 <= doe - yearStart (yearOfEra doe)
       < 365 + (if longYear (yearOfEra doe) then 1 else 0).
Proof.
  intros Hdoe. destruct (decide (doe = 146096)) as [->|Hlast].
  { vm_compute. repeat split; discriminate. }
  destruct (year_of_day 400 doe) as (yoe & Hyoe & Hday);
    [done | change (yearStart (Z.of_nat 400)) with 146096; lia |].
  pose proof (yearCheck_true yoe Hyoe) as Hcheck. unfold yearCheck in Hcheck.
  repeat (apply andb_prop in Hcheck as [Hcheck ?]).
  repeat match goal with
         | H : (_ =? _) = true |- _ => apply Z.eqb_eq in H
         | H : (_ <=? _) = true |- _ => apply Z.leb_le in H
         end.
  assert (Hyear : yearOfEra doe = yoe).
  { pose proof (yearOfEra_mono (yearStart yoe) doe ltac:(lia) ltac:(lia)).
    pose proof (yearOfEra_mono doe (yearStart (yoe + 1) - 1) ltac:(lia) ltac:(lia)).
    lia. }
  rewrite Hyear. lia.
Qed.

(** What [civilFromDays] computes from a day of the era: a year of the
    era and a date of the calendar. *)
Lemma eraDay_facts (doe : Z) :
  0 <= doe < 146097 →
  let yoe := (doe - doe / 1460 + doe / 36524 - doe / 146096) / 365 in
  let doy := doe - (365 * yoe + yoe / 4 - yoe / 100) in
  let mp := (5 * doy + 2) / 153 in
  let d := doy - (153 * mp + 2) / 5 + 1 in
  let m := if mp <? 10 then mp + 3 else mp - 9 in
  0 <= yoe <= 399 ∧ 0 <= doy ∧ 0 <= mp <= 11
  ∧ 1 <= d <= daysInMonth (yoe + (if m <=? 2 then 1 else 0)) m.
Proof.
  intros Hdoe. cbv zeta.
  change ((doe - doe / 1460 + doe / 36524 - doe / 146096) / 365) with (yearOfEra doe).
  set (yoe := yearOfEra doe).
  change (365 * yoe + yoe / 4 - yoe / 100) with (yearStart yoe).
  set (doy := doe - yearStart yoe).
  destruct (year_and_day doe Hdoe) as [Hyoe Hdoy]. fold yoe in Hyoe, Hdoy. fold doy in Hdoy.
  pose proof (dayCheck_true (longYear yoe) doy Hdoy) as Hcheck.
  unfold dayCheck in Hcheck. cbv zeta in Hcheck.
  set (mp := (5 * doy + 2) / 153) in *.
  set (d := doy - (153 * mp + 2) / 5 + 1) in *.
  set (m := if mp <? 10 then mp + 3 else mp - 9) in *.
  repeat (apply andb_prop in Hcheck as [Hcheck ?]).
  repeat match goal with
         | H : (_ <=? _) = true |- _ => apply Z.leb_le in H
         end.
  split; [lia|]. split; [lia|]. split; [lia|]. split; [lia|].
  assert (Hdim : daysInMonth (yoe + (if m <=? 2 then 1 else 0)) m
                 = if m =? 2 then (if longYear yoe then 29 else 28) else daysInMonth 1 m).
  { unfold daysInMonth. destruct (Z.eqb_spec m 2) as [->|]; [|done]. done. }
  by rewrite Hdim.
Qed.
Lemma isLeapYear_era (y era : Z) : isLeapYear (y + era * 400) = isLeapYear y.
Proof.
  unfold isLeapYear.
  replace ((y + era * 400) mod 4) with (y mod 4)
    by (replace (y + era * 400) with (y + (era * 100) * 4) by lia; by rewrite Z.mod_add).
  replace ((y + era * 400) mod 100) with (y mod 100)
    by (replace (y + era * 400) with (y + (era * 4) * 100) by lia; by rewrite Z.mod_add).
  by rewrite Z.mod_add.
Qed.

Lemma daysInMonth_era (y era m : Z) : daysInMonth (y + era * 400) m = daysInMonth y m.
Proof. unfold daysInMonth. by rewrite isLeapYear_era. Qed.

(** The calendar date of a day number reads back as that day number, and is
    a date of the calendar. *)
Lemma civil_round_trip (day : Z) :
  let '(y, m, d) := civilFromDays day in
  daysFromCivil y m d = day
  ∧ 1 <= m <= 12 ∧ 1 <= d <= daysInMonth y m
  ∧ (day + 719468) / 146097 * 400 <= y <= (day + 719468) / 146097 * 400 + 400.
Proof.
  unfold civilFromDays. cbv zeta.
  set (z := day + 719468).
  set (era := z / 146097).
  set (doe := z mod 146097).
  assert (Hdoe : 0 <= doe < 146097) by (apply Z.mod_pos_bound; lia).
  assert (Hz : z = 146097 * era + doe) by (apply Z.div_mod; lia).
  pose proof (eraDay_facts doe Hdoe) as Hcheck. cbv zeta in Hcheck.
  set (yoe := (doe - doe / 1460 + doe / 36524 - doe / 146096) / 365) in *.
  set (doy := doe - (365 * yoe + yoe / 4 - yoe / 100)) in *.
  set (mp := (5 * doy + 2) / 153) in *.
  set (d := doy - (153 * mp + 2) / 5 + 1) in *.
  set (m := if mp <? 10 then mp + 3 else mp - 9) in *.
  set (c := if m <=? 2 then 1 else 0) in *.
  destruct Hcheck as (Hyoe & Hdoy & Hmonth & Hd).
  assert (Hm : 1 <= m <= 12).
  { unfold m. destruct (Z.ltb_spec mp 10); lia. }
  assert (Hmp : (if 2 <? m then m - 3 else m + 9) = mp).
  { unfold m. destruct (Z.ltb_spec mp 10).
    - destruct (Z.ltb_spec 2 (mp + 3)); lia.
    - destruct (Z.ltb_spec 2 (mp - 9)); lia. }
  assert (Hy : (if m <=? 2 then yoe + era * 400 + c - 1 else yoe + era * 400 + c)
               = era * 400 + yoe).
  { unfold c. destruct (Z.leb_spec m 2); lia. }
  split; [|split; [done|split]].
  - unfold daysFromCivil. cbv zeta. rewrite Hy, Hmp.
    replace ((era * 400 + yoe) / 400) with era
      by (apply Z.div_unique_pos with yoe; lia).
    replace ((era * 400 + yoe) mod 400) with yoe
      by (apply Z.mod_unique_pos with era; lia).
    unfold d, doy. lia.
  - replace (yoe + era * 400 + c) with (yoe + c + era * 400) by lia.
    by rewrite daysInMonth_era.
  - unfold c. destruct (m <=? 2); lia.
Qed.

Lemma scanYear_digit (c : ascii) (v : Z) (r : string) :
  digitValue 10 c = Some v → scanYear (String c r) = scanFixed 4 (String c r) 0.
Proof.
  intros Hc. unfold scanYear.
  destruct (Ascii.eqb_spec c "+") as [->|_]; [vm_compute in Hc; discriminate|].
  destruct (Ascii.eqb_spec c "-") as [->|_]; [vm_compute in Hc; discriminate|].
  done.
Qed.

Lemma scanYear_pad4 (y : Z) (rest : string) :
  0 <= y <= 9999 → scanYear (pad 4 y +:+ rest) = Some (y, rest).
Proof.
  intros Hy. rewrite <-(scanFixed_pad_small 4 y rest) by lia.
  cbn [pad]. rewrite append_cons.
  apply (scanYear_digit _ ((y / 10 ^ Z.of_nat 3) mod 10)).
  apply digitValue_digit.
  pose proof (Z.mod_pos_bound (y / 10 ^ Z.of_nat 3) 10). lia.
Qed.

Lemma expect_append (c : ascii) (r : string) :
  expect c (String c "" +:+ r) = Some r.
Proof. change (String c "" +:+ r) with (String c r). simpl. by rewrite Ascii.eqb_refl. Qed.

Lemma scanField_pad (w : nat) (c : ascii) (n : Z) (rest : string) :
  0 <= n < 10 ^ Z.of_nat w →
  scanField w c (pad w n +:+ String c "" +:+ rest) = Some (n, rest).
Proof.
  intros Hn. unfold scanField. rewrite scanFixed_pad_small by done.
  cbn [mbind option_bind]. by rewrite expect_append.
Qed.

(** The time of day and the date of [toISOString] read back. *)
Lemma parse_after_year (y m d ms : Z) (year : string) :
  1 <= m <= 12 → 1 <= d <= daysInMonth y m → 0 <= ms < msPerDay →
  - maxTimeValue <= daysFromCivil y m d * msPerDay + ms <= maxTimeValue →
  let rest :=
    "-" +:+ pad 2 m +:+ "-" +:+ pad 2 d
      +:+ "T" +:+ pad 2 (ms / 3600000)
      +:+ ":" +:+ pad 2 ((ms / 60000) mod 60)
      +:+ ":" +:+ pad 2 ((ms / 1000) mod 60)
      +:+ "." +:+ pad 3 (ms mod 1000) +:+ "Z" in
  scanYear (year +:+ rest) = Some (y, rest) →
  parseISOString (year +:+ rest) = Some (daysFromCivil y m d * msPerDay + ms).
Proof.
  intros Hm Hd Hms Ht rest Hyear.
  assert (Hd31 : d <= 31).
  { unfold daysInMonth in Hd. repeat case_match; lia. }
  unfold msPerDay in *.
  assert (Hh : 0 <= ms / 3600000 < 100).
  { split; [apply Z.div_pos; lia | apply Z.div_lt_upper_bound; lia]. }
  assert (Hmi : 0 <= (ms / 60000) mod 60 < 100).
  { pose proof (Z.mod_pos_bound (ms / 60000) 60). lia. }
  assert (Hsec : 0 <= (ms / 1000) mod 60 < 100).
  { pose proof (Z.mod_pos_bound (ms / 1000) 60). lia. }
  assert (Hmil : 0 <= ms mod 1000 < 1000) by (apply Z.mod_pos_bound; lia).
  assert (Hsum : ms / 3600000 * 3600000 + (ms / 60000) mod 60 * 60000
                 + (ms / 1000) mod 60 * 1000 + ms mod 1000 = ms).
  { clear -Hms.
    pose proof (Z.div_mod ms 1000 ltac:(lia)) as H1.
    pose proof (Z.div_mod (ms / 1000) 60 ltac:(lia)) as H2.
    pose proof (Z.div_mod (ms / 60000) 60 ltac:(lia)) as H3.
    replace (ms / 60000) with (ms / 1000 / 60) in *
      by (rewrite Z.div_div by lia; reflexivity).
    replace (ms / 3600000) with (ms / 1000 / 60 / 60)
      by (rewrite !Z.div_div by lia; reflexivity).
    pose proof (Z.div_mod (ms / 1000 / 60) 60 ltac:(lia)) as H4.
    lia. }
  unfold parseISOString. rewrite Hyear. subst rest. cbn [mbind option_bind].
  rewrite expect_append. cbn [mbind option_bind].
  rewrite (scanField_pad 2 "-" m) by (change (10 ^ Z.of_nat 2) with 100; lia).
  cbn [mbind option_bind].
  rewrite (scanField_pad 2 "T" d) by (change (10 ^ Z.of_nat 2) with 100; lia).
  cbn [mbind option_bind].
  rewrite (scanField_pad 2 ":" (ms / 3600000)) by done.
  cbn [mbind option_bind].
  rewrite (scanField_pad 2 ":" ((ms / 60000) mod 60)) by done.
  cbn [mbind option_bind].
  rewrite (scanField_pad 2 "." ((ms / 1000) mod 60)) by done.
  cbn [mbind option_bind].
  replace (pad 3 (ms mod 1000) +:+ "Z") with (pad 3 (ms mod 1000) +:+ "Z" +:+ "")
    by reflexivity.
  rewrite (scanField_pad 3 "Z" (ms mod 1000)) by done.
  cbn [mbind option_bind].
  assert (Hh24 : ms / 3600000 <= 23) by (apply Z.lt_succ_r, Z.div_lt_upper_bound; lia).
  assert (Hmi60 : (ms / 60000) mod 60 <= 59)
    by (pose proof (Z.mod_pos_bound (ms / 60000) 60); lia).
  assert (Hsec60 : (ms / 1000) mod 60 <= 59)
    by (pose proof (Z.mod_pos_bound (ms / 1000) 60); lia).
  set (h := ms / 3600000) in *.
  set (mi := (ms / 60000) mod 60) in *.
  set (sec := (ms / 1000) mod 60) in *.
  set (mil := ms mod 1000) in *.
  unfold msPerDay.
  replace (daysFromCivil y m d * 86400000 + h * 3600000 + mi * 60000 + sec * 1000 + mil)
    with (daysFromCivil y m d * 86400000 + ms) by lia.
  rewrite decide_True; [done|]. repeat split; first [done | lia].
Qed.

(** [new Date(date.toISOString())] is the date again. *)
Lemma parseISOString_toISOString (t : Z) :
  validTime t → parseISOString (toISOString t) = Some t.
Proof.
  unfold validTime, maxTimeValue. intros Ht.
  unfold toISOString.
  pose proof (civil_round_trip (t / msPerDay)) as Hcivil.
  destruct (civilFromDays (t / msPerDay)) as [[y m] d].
  destruct Hcivil as (Hdays & Hm & Hd & Hy).
  unfold msPerDay in *.
  assert (Hms : 0 <= t mod 86400000 < 86400000) by (apply Z.mod_pos_bound; lia).
  pose proof (Z.div_mod t 86400000 ltac:(lia)) as Ht'.
  assert (Hday : -100000000 <= t / 86400000 <= 100000000) by lia.
  assert (Hyear : -999999 <= y <= 999999).
  { pose proof (Z.div_mod (t / 86400000 + 719468) 146097 ltac:(lia)).
    pose proof (Z.mod_pos_bound (t / 86400000 + 719468) 146097 ltac:(lia)). lia. }
  assert (Hrange : - maxTimeValue <= daysFromCivil y m d * msPerDay + t mod 86400000
                    <= maxTimeValue).
  { unfold maxTimeValue, msPerDay. rewrite Hdays. lia. }
  replace (Some t) with (Some (daysFromCivil y m d * msPerDay + t mod 86400000))
    by (unfold msPerDay; rewrite Hdays; f_equal; lia).
  destruct (decide (0 <= y <= 9999)) as [Hy4|Hy4].
  - rewrite (proj2 (andb_true_iff _ _)) by (rewrite !Z.leb_le; lia).
    apply parse_after_year; try done. by apply scanYear_pad4.
  - rewrite (proj2 (andb_false_iff _ _))
      by (rewrite !Z.leb_gt; destruct (decide (y < 0)); [left | right]; lia).
    destruct (Z.ltb_spec y 0) as [Hneg|Hpos].
    + apply (parse_after_year y m d _ (String "-" (pad 6 (- y)))); try done.
      rewrite !append_cons. unfold scanYear. simpl Ascii.eqb. cbv iota.
      rewrite scanFixed_pad_small by (change (10 ^ Z.of_nat 6) with 1000000; lia).
      destruct (Z.eqb_spec (- y) 0); [lia|]. do 2 f_equal. lia.
    + apply (parse_after_year y m d _ (String "+" (pad 6 y))); try done.
      rewrite !append_cons. unfold scanYear. simpl Ascii.eqb. cbv iota.
      by rewrite scanFixed_pad_small by (change (10 ^ Z.of_nat 6) with 1000000; lia).
Qed.

End DateFacts.

(** ** Numbers: integers that are binary64 values *)

Module NumberFacts.
Import JS.
Local Open Scope Z_scope.

Lemma floorLog2_integer (n : Z) : 0 < n → floorLog2 n 1 = Z.log2 n.
Proof.
  intros Hn. unfold floorLog2. change (Z.log2 1) with 0. rewrite Z.sub_0_r.
  pose proof (Z.log2_nonneg n) as Hk. pose proof (Z.log2_spec n Hn) as [Hlow _].
  destruct (Z.leb_spec 0 (Z.log2 n)); [|lia].
  rewrite Z.mul_1_l. destruct (Z.ltb_spec n (2 ^ Z.log2 n)); [lia | done].
Qed.

Lemma Qred_inject_Z (n : Z) : Qred (inject_Z n) = inject_Z n.
Proof.
  unfold Qred, inject_Z.
  pose proof (Z.ggcd_gcd n 1) as Hgcd. pose proof (Z.ggcd_correct_divisors n 1) as Hdiv.
  destruct (Z.ggcd n 1) as [g [a b]]. simpl in *. rewrite Z.gcd_1_r in Hgcd. subst g.
  destruct Hdiv as [Ha Hb]. rewrite !Z.mul_1_l in *. by subst.
Qed.

Lemma Qred_integer (n : Z) (d : positive) :
  Qred (Qmake (n * Z.pos d) d) = inject_Z n.
Proof.
  rewrite <-(Qred_inject_Z n). apply Qred_complete. unfold Qeq, inject_Z. simpl. lia.
Qed.

(** An integer below [2 ^ 53] is a binary64 value. *)
Lemma roundToDouble_integer (n : Z) : 0 <= n < 2 ^ 53 → roundToDouble n 1 = ofZ n.
Proof.
  intros Hn. unfold roundToDouble, ofZ.
  destruct (Z.eqb_spec n 0) as [->|Hne]; [done|].
  rewrite floorLog2_integer by lia.
  assert (Hlog : Z.log2 n < 53) by (apply Z.log2_lt_pow2; lia).
  pose proof (Z.log2_nonneg n) as Hlog0.
  rewrite Z.max_l by lia.
  destruct (Z.leb_spec 0 (Z.log2 n - 52)) as [He|He].
  - replace (Z.log2 n - 52) with 0 by lia.
    change (1 * 2 ^ 0) with 1. change (2 ^ 0) with 1.
    rewrite Z.div_1_r, Z.mod_1_r, Z.mul_1_r.
    change ((1 <? 2 * 0) || (1 =? 2 * 0) && Z.odd n) with false. cbv iota.
    destruct (Z.leb_spec (2 ^ 1024) n) as [Hbig|_]; [|done].
    assert (2 ^ 53 < 2 ^ 1024) by (apply Z.pow_lt_mono_r; lia). lia.
  - simpl (false && _). cbv iota.
    rewrite Z.div_1_r, Z.mod_1_r.
    change ((1 <? 2 * 0) || (1 =? 2 * 0) && Z.odd (n * 2 ^ (- (Z.log2 n - 52)))) with false.
    cbv iota.
    assert (Hpow : 0 < 2 ^ (- (Z.log2 n - 52))) by (apply Z.pow_pos_nonneg; lia).
    f_equal. rewrite <-(Qred_integer n (Z.to_pos (2 ^ (- (Z.log2 n - 52))))).
    by rewrite Z2Pos.id by done.
Qed.

Lemma isInteger_ofZ (n : Z) : isInteger (ofZ n) = true.
Proof.
  unfold isInteger, ofZ. by rewrite Qred_inject_Z.
Qed.
End NumberFacts.

(** ** [JSON.parse]: the fuel of the parser is enough *)

Module JSONFacts.
Import JS.

(** *** What the scanners leave is no longer than what they were given *)

Lemma skipWhiteSpace_length (s : string) :
  String.length (skipWhiteSpace s) ≤ String.length s.
Proof.
  induction s as [|c r IH]; [done|]. simpl. destruct (isJSONWhiteSpace c); simpl; lia.
Qed.

Lemma stripPrefix_length (p s r : string) :
  stripPrefix p s = Some r → String.length r ≤ String.length s.
Proof.
  revert s. induction p as [|a p IH]; intros s; simpl.
  - by intros [= ->].
  - destruct s as [|b s]; [done|]. destruct (Ascii.eqb a b); [|done].
    intros H%IH. simpl. lia.
Qed.

Lemma expect_length (c : ascii) (s r : string) :
  expect c s = Some r → String.length s = S (String.length r).
Proof.
  destruct s as [|c' s]; [done|]. simpl. destruct (Ascii.eqb c c'); [|done].
  by intros [= ->].
Qed.

Lemma scanDigits_length (radix : Z) (s : string) (acc count n count' : Z) (r : string) :
  scanDigits radix s acc count = (n, count', r) → String.length r ≤ String.length s.
Proof.
  revert acc count. induction s as [|c s IH]; intros acc count; simpl.
  - by intros [= _ _ <-].
  - destruct (digitValue radix c).
    + intros H%IH. lia.
    + by intros [= _ _ <-].
Qed.

Lemma scanSign_length (s : string) : String.length (scanSign s).2 ≤ String.length s.
Proof.
  destruct s as [|c r]; [done|]. unfold scanSign.
  repeat case_match; simpl; lia.
Qed.

Lemma scanExponent_length (s : string) :
  String.length (scanExponent s).2 ≤ String.length s.
Proof.
  destruct s as [|c r]; [done|]. unfold scanExponent.
  destruct (_ || _); [|done].
  pose proof (scanSign_length r) as Hsign. destruct (scanSign r) as [neg r1].
  destruct (scanDigits 10 r1 0 0) as [[e count] r2] eqn:Hdigits.
  apply scanDigits_length in Hdigits. destruct (0 <? count)%Z; simpl in *; lia.
Qed.

Lemma scanJSONNumber_length (s : string) (x : number) (r : string) :
  scanJSONNumber s = Some (x, r) → String.length r ≤ String.length s.
Proof.
  unfold scanJSONNumber.
  destruct (match s with
            | String c r0 => if Ascii.eqb c "-" then (true, r0) else (false, s)
            | EmptyString => (false, s)
            end) as [neg r0] eqn:Hsign.
  assert (Hr0 : String.length r0 ≤ String.length s).
  { destruct s as [|c s']; [by injection Hsign as _ <-|].
    destruct (Ascii.eqb c "-"); injection Hsign as _ <-; simpl; lia. }
  destruct (scanDigits 10 r0 0 0) as [[int icount] r1] eqn:Hint.
  apply scanDigits_length in Hint.
  destruct (_ || _); [done|].
  destruct r1 as [|c r2].
  - pose proof (scanExponent_length "") as Hexp.
    destruct (scanExponent "") as [e r5]. intros [= _ <-]. simpl in *. lia.
  - destruct (Ascii.eqb c ".").
    + destruct (scanDigits 10 r2 int 0) as [[m total] r3] eqn:Hfrac.
      apply scanDigits_length in Hfrac. destruct (0 <? total)%Z; [|done].
      pose proof (scanExponent_length r3) as Hexp.
      destruct (scanExponent r3) as [e r5]. intros [= _ <-]. simpl in *. lia.
    + pose proof (scanExponent_length (String c r2)) as Hexp.
      destruct (scanExponent (String c r2)) as [e r5]. intros [= _ <-]. simpl in *. lia.
Qed.

Lemma scanStringChars_length (s str r : string) :
  scanStringChars s = Some (str, r) → String.length r ≤ String.length s.
Proof.
  remember (String.length s) as n eqn:Hn. revert s str r Hn.
  induction n as [n IH] using lt_wf_ind. intros s str r -> Hscan.
  destruct s as [|c s]; [done|]. cbn [scanStringChars] in Hscan. cbv zeta in Hscan.
  destruct (code c =? 34)%Z; [injection Hscan as _ <-; simpl; lia|].
  destruct (code c <? 32)%Z; [done|].
  destruct (code c =? 92)%Z.
  - destruct s as [|e r1]; [done|].
    assert (Hsimple : ∀ x,
      match scanStringChars r1 with
      | Some (str0, rest) => Some (String (asciiOfZ x) str0, rest)
      | None => None
      end = Some (str, r) → String.length r ≤ String.length (String c (String e r1))).
    { intros x. destruct (scanStringChars r1) as [[str0 rest]|] eqn:Hr1; [|done].
      intros [= _ ->]. apply (IH (String.length r1)) in Hr1; simpl; [lia | lia | done]. }
    repeat (match type of Hscan with
            | (if ?b then _ else _) = _ => destruct b; [by eapply Hsimple|]
            end).
    match type of Hscan with (if ?b then _ else _) = _ => destruct b; [|done] end.
    destruct r1 as [|a [|b [|c' [|d r2]]]]; try done.
    destruct (scanHex4 _) as [[[u digits] rest']|]; [|done].
    destruct (scanStringChars r2) as [[str0 rest]|] eqn:Hr2; [|done].
    apply (IH (String.length r2)) in Hr2; [|simpl; lia|done].
    destruct (u <? 256)%Z; injection Hscan as _ <-; simpl; lia.
  - destruct (scanStringChars s) as [[str0 rest]|] eqn:Hs; [|done].
    injection Hscan as _ <-. apply (IH (String.length s)) in Hs; simpl; [lia | lia | done].
Qed.

(** *** The fuel of the parser *)

(** A parse succeeds with any fuel above twice the number of characters it
    consumes. *)
Definition valueBound (fuel : nat) : Prop :=
  ∀ s v r, parseValue fuel s = Some (v, r) →
    String.length r ≤ String.length s
    ∧ ∀ fuel', 2 * (String.length s - String.length r) + 1 ≤ fuel' →
        parseValue fuel' s = Some (v, r).

Definition elementsBound (fuel : nat) : Prop :=
  ∀ s acc v r, parseElements fuel s acc = Some (v, r) →
    String.length r < String.length s
    ∧ ∀ fuel', 2 * (String.length s - String.length r) ≤ fuel' →
        parseElements fuel' s acc = Some (v, r).

Definition membersBound (fuel : nat) : Prop :=
  ∀ s acc v r, parseMembers fuel s acc = Some (v, r) →
    String.length r < String.length s
    ∧ ∀ fuel', 2 * (String.length s - String.length r) ≤ fuel' →
        parseMembers fuel' s acc = Some (v, r).

Lemma valueBound_step (fuel : nat) :
  elementsBound fuel → membersBound fuel → valueBound (S fuel).
Proof.
  intros HE HM s v r Hparse. cbn [parseValue] in Hparse.
  pose proof (skipWhiteSpace_length s) as Hskip.
  assert (Hleaf : ∀ rest : option (JSValue * string),
    (∀ fuel0, parseValue (S fuel0) s = rest) → rest = Some (v, r) →
    String.length r ≤ String.length s →
    String.length r ≤ String.length s
    ∧ ∀ fuel', 2 * (String.length s - String.length r) + 1 ≤ fuel' →
        parseValue fuel' s = Some (v, r)).
  { intros rest Hrest -> Hlen. split; [done|]. intros [|fuel0] Hfuel; [lia|]. apply Hrest. }
  destruct (skipWhiteSpace s) as [|c r0] eqn:Hs; [done|]. simpl in Hskip.
  destruct (Ascii.eqb c "n") eqn:Hn.
  { destruct (stripPrefix "ull" r0) as [r'|] eqn:Hp; [|done]. injection Hparse as <- <-.
    apply stripPrefix_length in Hp as Hlen.
    eapply Hleaf; [|done|lia]. intros fuel0. cbn [parseValue]. by rewrite Hs, Hn, Hp. }
  destruct (Ascii.eqb c "t") eqn:Ht.
  { destruct (stripPrefix "rue" r0) as [r'|] eqn:Hp; [|done]. injection Hparse as <- <-.
    apply stripPrefix_length in Hp as Hlen.
    eapply Hleaf; [|done|lia]. intros fuel0. cbn [parseValue]. by rewrite Hs, Hn, Ht, Hp. }
  destruct (Ascii.eqb c "f") eqn:Hf.
  { destruct (stripPrefix "alse" r0) as [r'|] eqn:Hp; [|done]. injection Hparse as <- <-.
    apply stripPrefix_length in Hp as Hlen.
    eapply Hleaf; [|done|lia]. intros fuel0. cbn [parseValue].
    by rewrite Hs, Hn, Ht, Hf, Hp. }
  destruct (isQuote c) eqn:Hq.
  { destruct (scanStringChars r0) as [[str r']|] eqn:Hp; [|done]. injection Hparse as <- <-.
    apply scanStringChars_length in Hp as Hlen.
    eapply Hleaf; [|done|lia]. intros fuel0. cbn [parseValue].
    by rewrite Hs, Hn, Ht, Hf, Hq, Hp. }
  destruct (Ascii.eqb c "[") eqn:Ha.
  { pose proof (skipWhiteSpace_length r0) as Hskip0.
    destruct (expect "]" (skipWhiteSpace r0)) as [r'|] eqn:Hp.
    - injection Hparse as <- <-. apply expect_length in Hp as Hlen.
      eapply Hleaf; [|done|lia]. intros fuel0. cbn [parseValue].
      by rewrite Hs, Hn, Ht, Hf, Hq, Ha, Hp.
    - destruct (HE _ _ _ _ Hparse) as [Hlen Hfuel]. split; [lia|].
      intros [|fuel0] Hfuel0; [lia|]. cbn [parseValue].
      rewrite Hs, Hn, Ht, Hf, Hq, Ha, Hp. apply Hfuel. lia. }
  destruct (Ascii.eqb c "{") eqn:Ho.
  { pose proof (skipWhiteSpace_length r0) as Hskip0.
    destruct (expect "}" (skipWhiteSpace r0)) as [r'|] eqn:Hp.
    - injection Hparse as <- <-. apply expect_length in Hp as Hlen.
      eapply Hleaf; [|done|lia]. intros fuel0. cbn [parseValue].
      by rewrite Hs, Hn, Ht, Hf, Hq, Ha, Ho, Hp.
    - destruct (HM _ _ _ _ Hparse) as [Hlen Hfuel]. split; [lia|].
      intros [|fuel0] Hfuel0; [lia|]. cbn [parseValue].
      rewrite Hs, Hn, Ht, Hf, Hq, Ha, Ho, Hp. apply Hfuel. lia. }
  destruct (scanJSONNumber (String c r0)) as [[x r']|] eqn:Hp; [|done].
  injection Hparse as <- <-. apply scanJSONNumber_length in Hp as Hlen. simpl in Hlen.
  eapply Hleaf; [|done|lia]. intros fuel0. cbn [parseValue].
  by rewrite Hs, Hn, Ht, Hf, Hq, Ha, Ho, Hp.
Qed.

Lemma elementsBound_step (fuel : nat) :
  valueBound fuel → elementsBound fuel → elementsBound (S fuel).
Proof.
  intros HV HE s acc v r Hparse. cbn [parseElements] in Hparse.
  destruct (parseValue fuel s) as [[v1 r1]|] eqn:Hv; [|done].
  destruct (HV _ _ _ Hv) as [Hlen1 Hfuel1].
  pose proof (skipWhiteSpace_length r1) as Hskip.
  destruct (skipWhiteSpace r1) as [|c r2] eqn:Hs; [done|]. simpl in Hskip.
  destruct (Ascii.eqb c ",") eqn:Hc.
  - destruct (HE _ _ _ _ Hparse) as [Hlen Hfuel]. split; [lia|].
    intros [|fuel0] Hfuel0; [lia|]. cbn [parseElements].
    rewrite (Hfuel1 fuel0) by lia. rewrite Hs, Hc. apply Hfuel. lia.
  - destruct (Ascii.eqb c "]") eqn:Hb; [|done]. injection Hparse as <- <-.
    split; [lia|]. intros [|fuel0] Hfuel0; [lia|]. cbn [parseElements].
    rewrite (Hfuel1 fuel0) by lia. by rewrite Hs, Hc, Hb.
Qed.

Lemma membersBound_step (fuel : nat) :
  valueBound fuel → membersBound fuel → membersBound (S fuel).
Proof.
  intros HV HM s acc v r Hparse. cbn [parseMembers] in Hparse.
  pose proof (skipWhiteSpace_length s) as Hskip.
  destruct (skipWhiteSpace s) as [|c r0] eqn:Hs; [done|]. simpl in Hskip.
  destruct (if isQuote c then scanStringChars r0 else None) as [[k r1]|] eqn:Hk; [|done].
  assert (Hlen1 : String.length r1 ≤ String.length r0).
  { destruct (isQuote c); [by eapply scanStringChars_length | done]. }
  pose proof (skipWhiteSpace_length r1) as Hskip1.
  destruct (expect ":" (skipWhiteSpace r1)) as [r2|] eqn:Hcolon; [|done].
  apply expect_length in Hcolon as Hlen2.
  destruct (parseValue fuel r2) as [[v1 r3]|] eqn:Hv; [|done].
  destruct (HV _ _ _ Hv) as [Hlen3 Hfuel3].
  pose proof (skipWhiteSpace_length r3) as Hskip3.
  destruct (skipWhiteSpace r3) as [|c' r4] eqn:Hs3; [done|]. simpl in Hskip3.
  destruct (Ascii.eqb c' ",") eqn:Hc.
  - destruct (HM _ _ _ _ Hparse) as [Hlen Hfuel]. split; [lia|].
    intros [|fuel0] Hfuel0; [lia|]. cbn [parseMembers].
    rewrite Hs, Hk, Hcolon. rewrite (Hfuel3 fuel0) by lia. rewrite Hs3, Hc. apply Hfuel. lia.
  - destruct (Ascii.eqb c' "}") eqn:Hb; [|done]. injection Hparse as <- <-.
    split; [lia|]. intros [|fuel0] Hfuel0; [lia|]. cbn [parseMembers].
    rewrite Hs, Hk, Hcolon. rewrite (Hfuel3 fuel0) by lia. by rewrite Hs3, Hc, Hb.
Qed.

Lemma parse_bounds (fuel : nat) : valueBound fuel ∧ elementsBound fuel ∧ membersBound fuel.
Proof.
  induction fuel as [|fuel (HV & HE & HM)].
  - split; [|split]; [intros s v r H | intros s acc v r H | intros s acc v r H]; done.
  - split; [by apply valueBound_step|]. split.
    + by apply elementsBound_step.
    + by apply membersBound_step.
Qed.

(** [JSON_parse] loses no parse to its fuel: a text that parses with some
    fuel parses. *)
Lemma JSON_parse_complete (fuel : nat) (text : string) (v : JSValue) (r : string) :
  parseValue fuel text = Some (v, r) → skipWhiteSpace r = EmptyString →
  JSON_parse text = Some v.
Proof.
  intros Hparse Hrest. destruct (parse_bounds fuel) as (HV & _ & _).
  destruct (HV _ _ _ Hparse) as [Hlen Hfuel].
  unfold JSON_parse. rewrite Hfuel by lia. by rewrite Hrest.
Qed.
End JSONFacts.

(** ** The execution form: mandatory entries, lists, dictionaries, integers *)

Module ExecutionFormFacts.
Import JS PipelineTypes ExecutionForm.

Definition mandatory : string := "Valor é obrigatório".

(** The entry of a parameter reads [undefined] or the empty string. *)
Definition missing (values : gmap string string) (k : string) : Prop :=
  readProperty values k = Undefined ∨ readProperty values k = Own "".

(** *** Reading and writing through [Object.prototype] *)

Lemma readProperty_own {A} (o : gmap string A) (k : string) (v : A) :
  readProperty o k = Own v ↔ o !! k = Some v.
Proof.
  unfold readProperty. destruct (o !! k); [|case_bool_decide]; naive_solver.
Qed.

Lemma readProperty_inherited {A} (o : gmap string A) (k : string) :
  readProperty o k = Inherited ↔ o !! k = None ∧ k ∈ objectPrototypeNames.
Proof.
  unfold readProperty. destruct (o !! k); [|case_bool_decide]; naive_solver.
Qed.

Lemma readProperty_undefined {A} (o : gmap string A) (k : string) :
  readProperty o k = Undefined ↔ o !! k = None ∧ k ∉ objectPrototypeNames.
Proof.
  unfold readProperty. destruct (o !! k); [|case_bool_decide]; naive_solver.
Qed.

Lemma assignString_ne (o : gmap string string) (k v k' : string) :
  k' ≠ k → assignString o k v !! k' = o !! k'.
Proof.
  intros Hne. unfold assignString.
  destruct (o !! k); [|destruct (String.eqb k "__proto__")]; by rewrite ?lookup_insert_ne.
Qed.

Lemma assignString_eq (o : gmap string string) (k v : string) :
  k ≠ "__proto__" → assignString o k v !! k = Some v.
Proof.
  intros Hne. unfold assignString.
  destruct (o !! k); [by rewrite lookup_insert_eq|].
  destruct (String.eqb_spec k "__proto__"); [done | by rewrite lookup_insert_eq].
Qed.

(** An assignment keeps every own property, with its value or a new one. *)
Lemma assignString_grows (o : gmap string string) (k v k' : string) :
  is_Some (o !! k') → is_Some (assignString o k v !! k').
Proof.
  intros Hk'. destruct (decide (k' = k)) as [->|Hne]; [|by rewrite assignString_ne].
  unfold assignString. destruct Hk' as [x ->]. rewrite lookup_insert_eq. eauto.
Qed.

(** No assignment of a string makes [__proto__] an own property. *)
Lemma assignString_proto (o : gmap string string) (k v : string) :
  o !! "__proto__" = None → assignString o k v !! "__proto__" = None.
Proof.
  intros Ho. unfold assignString. destruct (String.eqb_spec k "__proto__") as [->|Hne].
  - by rewrite Ho.
  - destruct (o !! k); by rewrite lookup_insert_ne.
Qed.

(** What [validateParameterValue] makes of a member of [Object.prototype]:
    it is no number and no JSON; a [string] parameter is not checked. *)
Lemma member_check (k : string) (t : ParameterType) :
  k ∈ objectPrototypeNames →
  validateParameterValue k (memberText k) t
  = match t with
    | TInt => Throw "Valor deve ser um número inteiro"
    | TNumber | TFloat => Throw "Valor deve ser um número"
    | TList => Throw "Valor deve ser um array JSON válido"
    | TDict => Throw "Valor deve ser um objeto JSON válido"
    | TString => Normal
    end.
Proof.
  unfold objectPrototypeNames. intros Hk.
  repeat (apply elem_of_cons in Hk as [-> | Hk]; [destruct t; vm_compute; reflexivity|]).
  by apply elem_of_nil in Hk.
Qed.

(** *** The errors of a run *)

(** The error of a parameter, by what its entry reads. *)
Definition entryError (values : gmap string string) (param : PipelineParameter)
  : option string :=
  let check (text : string) :=
    match validateParameterValue (key param) text (type param) with
    | Throw message => Some message
    | Normal => None
    end in
  match readProperty values (key param) with
  | Undefined | Own EmptyString => Some mandatory
  | Own v => check v
  | Inherited => check (memberText (key param))
  end.

Lemma validateParameter_errors values run param :
  newErrors (validateParameter values run param)
  = match entryError values param with
    | Some message => assignString (newErrors run) (key param) message
    | None => newErrors run
    end.
Proof.
  unfold validateParameter, entryError.
  destruct (readProperty values (key param)) as [[|c v]| |]; try done;
    by destruct (validateParameterValue _ _ _).
Qed.

Lemma missing_error values param : missing values (key param) → entryError values param = Some mandatory.
Proof. unfold entryError. by intros [-> | ->]. Qed.

(** Every call of the type-specific check is for an entry that is there. *)
Lemma checks_present values ps run :
  Forall (λ call, call.1.2 = readProperty values call.1.1 ∧ ¬ missing values call.1.1)
    (checks run) →
  Forall (λ call, call.1.2 = readProperty values call.1.1 ∧ ¬ missing values call.1.1)
    (checks (foldl (validateParameter values) run ps)).
Proof.
  revert run. induction ps as [|p ps IH]; intros run Hrun; [done|].
  cbn [foldl]. apply IH. unfold validateParameter.
  destruct (readProperty values (key p)) as [[|c v]| |] eqn:Hentry; try done;
    destruct (validateParameterValue _ _ _); simpl;
    (apply Forall_app; split; [done|]; constructor; [|constructor]);
    simpl; (split; [done|]); unfold missing; rewrite Hentry; by intros [|].
Qed.

(** An error, once recorded, stays recorded. *)
Lemma errors_grow values ps run k :
  is_Some (newErrors run !! k) →
  is_Some (newErrors (foldl (validateParameter values) run ps) !! k).
Proof.
  revert run. induction ps as [|p ps IH]; intros run Hrun; [done|].
  cbn [foldl]. apply IH. rewrite validateParameter_errors.
  destruct (entryError values p); [by apply assignString_grows | done].
Qed.

(** The loop never makes [__proto__] an own property of [newErrors]. *)
Lemma errors_proto values ps run :
  newErrors run !! "__proto__" = None →
  newErrors (foldl (validateParameter values) run ps) !! "__proto__" = None.
Proof.
  revert run. induction ps as [|p ps IH]; intros run Hrun; [done|].
  cbn [foldl]. apply IH. rewrite validateParameter_errors.
  destruct (entryError values p); [by apply assignString_proto | done].
Qed.

(** The loop sets errors under the keys of the parameters only. *)
Lemma errors_frame (values : gmap string string) (ps : list PipelineParameter)
    (run : Validation) (k : string) :
  k ∉ key <$> ps →
  newErrors (foldl (validateParameter values) run ps) !! k = newErrors run !! k.
Proof.
  revert run. induction ps as [|p ps IH]; intros run Hk; [done|].
  rewrite fmap_cons, not_elem_of_cons in Hk. destruct Hk as [Hne Hk].
  cbn [foldl]. rewrite IH by done. rewrite validateParameter_errors.
  destruct (entryError values p); [by apply assignString_ne | done].
Qed.

(** The mandatory-value error of a missing entry is never replaced. *)
Lemma mandatory_stays values ps run k :
  missing values k → newErrors run !! k = Some mandatory →
  newErrors (foldl (validateParameter values) run ps) !! k = Some mandatory.
Proof.
  intros Hmiss. revert run. induction ps as [|p ps IH]; intros run Hrun; [done|].
  cbn [foldl]. apply IH. rewrite validateParameter_errors.
  destruct (decide (key p = k)) as [<-|Hne].
  - rewrite missing_error by done. unfold assignString. rewrite Hrun.
    by rewrite lookup_insert_eq.
  - destruct (entryError values p); [by rewrite assignString_ne | done].
Qed.

Lemma mandatory_recorded values ps run p :
  p ∈ ps → missing values (key p) → key p ≠ "__proto__" →
  newErrors (foldl (validateParameter values) run ps) !! key p = Some mandatory.
Proof.
  intros Hp Hmiss Hproto. revert run. induction ps as [|q ps IH]; intros run.
  { by apply elem_of_nil in Hp. }
  cbn [foldl]. apply elem_of_cons in Hp as [<- | Hp]; [|by apply IH].
  apply mandatory_stays; [done|].
  rewrite validateParameter_errors, missing_error by done. by apply assignString_eq.
Qed.

(** A parameter with an error, under a key other than [__proto__], leaves
    an error. *)
Lemma failure_recorded values ps run p message :
  p ∈ ps → key p ≠ "__proto__" → entryError values p = Some message →
  is_Some (newErrors (foldl (validateParameter values) run ps) !! key p).
Proof.
  intros Hp Hproto Hfail. revert run. induction ps as [|q ps IH]; intros run.
  { by apply elem_of_nil in Hp. }
  cbn [foldl]. apply elem_of_cons in Hp as [<- | Hp]; [|by apply IH].
  apply errors_grow. rewrite validateParameter_errors, Hfail.
  rewrite assignString_eq by done. eauto.
Qed.

Lemma noErrors_empty run : noErrors run = true ↔ newErrors run = ∅.
Proof. unfold noErrors. rewrite bool_decide_eq_true. apply map_size_empty_iff. Qed.

(** A run that leaves no error has found no error under any key but
    [__proto__]. *)
Lemma validated_entries (pipeline : Pipeline) (values : gmap string string) :
  newErrors (validateValues pipeline values) = ∅ →
  ∀ param, param ∈ parameters pipeline → key param ≠ "__proto__" →
    entryError values param = None.
Proof.
  intros Hok param Hparam Hproto.
  destruct (entryError values param) as [message|] eqn:Herror; [|done].
  pose proof (failure_recorded values _ {| newErrors := ∅; checks := [] |} param message
                Hparam Hproto Herror) as [msg Hmsg].
  unfold validateValues in Hok. by rewrite Hok in Hmsg.
Qed.

(** An entry without an error is a text that is not empty and passes its
    check, or the member of [Object.prototype] that a [string] parameter is
    named after. *)
Lemma entryError_None values param :
  entryError values param = None ↔
  (∃ v, values !! key param = Some v ∧ v ≠ ""
        ∧ validateParameterValue (key param) v (type param) = Normal)
  ∨ (readProperty values (key param) = Inherited ∧ type param = TString).
Proof.
  unfold entryError.
  destruct (readProperty values (key param)) as [[|c v]| |] eqn:Hentry.
  - split; [done|]. intros [(v & Hv%readProperty_own & Hne & _) | [? _]]; [|done].
    rewrite Hentry in Hv. by injection Hv as <-.
  - apply readProperty_own in Hentry as Hown.
    destruct (validateParameterValue _ _ _) eqn:Hcheck.
    + split; [|done]. intros _. left. eauto.
    + split; [done|]. intros [(v' & Hv' & _ & Hn) | [? _]]; [|done].
      rewrite Hown in Hv'. injection Hv' as <-. by rewrite Hcheck in Hn.
  - apply readProperty_inherited in Hentry as [Hnone Hname].
    rewrite member_check by done. rewrite Hnone.
    destruct (type param); split; try done; try (by intros [(? & ? & _) | [_ ?]]);
      intros _; by right.
  - apply readProperty_undefined in Hentry as [Hnone _]. rewrite Hnone.
    split; [done|]. by intros [(? & ? & _) | [? _]].
Qed.

(** What a submission implies: no error was recorded, and every parameter
    under a key other than [__proto__] has an entry without an error. *)
Lemma submitted_checked (pipeline : Pipeline) (values : gmap string string) processedValues :
  handleExecute pipeline values = Submitted processedValues →
  newErrors (validateValues pipeline values) = ∅
  ∧ ∀ param, param ∈ parameters pipeline → key param ≠ "__proto__" →
      entryError values param = None.
Proof.
  unfold handleExecute.
  destruct (noErrors _) eqn:Hok; [|done]. simpl.
  apply noErrors_empty in Hok. intros _. split; [done|].
  by apply validated_entries.
Qed.

(** What holds of the mandatory entries: under a key that is no name of
    [Object.prototype], a parameter whose entry is undefined or empty gets
    the mandatory-value error and its check is not called; a click submits
    only when no error was recorded and shows the errors otherwise. *)
Lemma mandatory_entries (pipeline : Pipeline) (values : gmap string string) :
  (∀ param, param ∈ parameters pipeline → key param ∉ objectPrototypeNames →
     values !! key param = None ∨ values !! key param = Some "" →
     newErrors (validateValues pipeline values) !! key param = Some mandatory
     ∧ ∀ call, call ∈ checks (validateValues pipeline values) → call.1.1 ≠ key param)
  ∧ (∀ processedValues, handleExecute pipeline values = Submitted processedValues →
       newErrors (validateValues pipeline values) = ∅)
  ∧ (newErrors (validateValues pipeline values) ≠ ∅ →
       handleExecute pipeline values = Blocked (newErrors (validateValues pipeline values))).
Proof.
  split; [|split].
  - intros param Hparam Hname Hentry.
    assert (Hmiss : missing values (key param)).
    { destruct Hentry as [Hnone | Hempty].
      - left. by apply readProperty_undefined.
      - right. by apply readProperty_own. }
    assert (Hproto : key param ≠ "__proto__").
    { intros Heq. apply Hname. rewrite Heq. unfold objectPrototypeNames. set_solver. }
    split.
    + by apply mandatory_recorded.
    + intros call Hcall Hkey.
      pose proof (checks_present values (parameters pipeline)
                    {| newErrors := ∅; checks := [] |} (Forall_nil_2 _)) as Hall.
      rewrite Forall_forall in Hall. destruct (Hall call Hcall) as [_ Hpresent].
      by rewrite Hkey in Hpresent.
  - intros processedValues Hsubmitted. by destruct (submitted_checked _ _ _ Hsubmitted).
  - intros Herrors. unfold handleExecute.
    destruct (noErrors _) eqn:Hok; [|done]. by apply noErrors_empty in Hok.
Qed.

Definition formPipeline : Pipeline :=
  {| id := "p1"; name := "etl"; description := ""; dates := Mapped (TimeValue 0);
     parameters := [{| key := "rows"; type := TInt; value := VNull |};
                    {| key := "tags"; type := TList; value := VNull |}] |}.

(** A pipeline with one parameter, named after a member of
    [Object.prototype]; [keyRegex] accepts the key. *)
Definition memberPipeline (type : ParameterType) : Pipeline :=
  {| id := "p3"; name := "print"; description := ""; dates := Mapped (TimeValue 0);
     parameters := [{| key := "toString"; type := type; value := VNull |}] |}.

(** C8, where the code departs from it.  The form is opened for a
    pipeline whose parameter is named [toString] and the user types
    nothing.  The entry [values["toString"]] is then not [undefined] but
    the function of [Object.prototype].  For a [string] parameter no error
    is recorded and the click submits, with that function as the value; for
    an [int] parameter the check of the type is called and its error is
    recorded, not the mandatory one. *)
Theorem mandatory_inherited_entry :
  PipelineForm.keyRegex "toString" = true
  ∧ (∅ : gmap string string) !! "toString" = None
  ∧ newErrors (validateValues (memberPipeline TString) ∅) = ∅
  ∧ checks (validateValues (memberPipeline TString) ∅) = [("toString", Inherited, TString)]
  ∧ handleExecute (memberPipeline TString) ∅
    = Submitted {| own := {["toString" := Member]}; prototype := ObjectPrototype |}
  ∧ newErrors (validateValues (memberPipeline TInt) ∅)
    = {["toString" := "Valor deve ser um número inteiro"]}
  ∧ checks (validateValues (memberPipeline TInt) ∅) = [("toString", Inherited, TInt)].
Proof.
  repeat split; vm_compute; reflexivity.
Qed.


(** *** Lists and dictionaries *)

Lemma validate_list (k v : string) :
  validateParameterValue k v TList = Normal ↔ ∃ items, JSON_parse v = Some (VArray items).
Proof.
  unfold validateParameterValue, tryCatch.
  destruct (JSON_parse v) as [[]|]; simpl; naive_solver.
Qed.

Lemma validate_dict (k v : string) :
  validateParameterValue k v TDict = Normal ↔ ∃ props, JSON_parse v = Some (VObject props).
Proof.
  unfold validateParameterValue, tryCatch.
  destruct (JSON_parse v) as [[]|]; simpl; naive_solver.
Qed.

(** An entry that passed its check has a value to be submitted with. *)
Lemma coerce_validated (k v : string) (t : ParameterType) :
  validateParameterValue k v t = Normal → is_Some (coerce t v).
Proof.
  destruct t; try (by eexists).
  - intros (items & Hparse)%validate_list. simpl. by rewrite Hparse.
  - intros (props & Hparse)%validate_dict. simpl. by rewrite Hparse.
Qed.

(** *** The object [processValues] builds *)

Lemma assign_ne (o : ProcessedValues) (k k' : string) (w : Processed) :
  k' ≠ k → own (assign o k w) !! k' = own o !! k'.
Proof.
  intros Hne. unfold assign.
  destruct (negb _); [by cbn; rewrite lookup_insert_ne|].
  destruct (own o !! k); [by cbn; rewrite lookup_insert_ne|].
  destruct (prototype o) as [| |[]]; try case_bool_decide;
    destruct w as [[]|]; cbn; by rewrite ?lookup_insert_ne.
Qed.

Lemma assign_define (o : ProcessedValues) (k : string) (w : Processed) :
  k ≠ "__proto__" →
  assign o k w = {| own := <[k := w]> (own o); prototype := prototype o |}.
Proof.
  intros Hne. unfold assign. by destruct (String.eqb_spec k "__proto__").
Qed.

(** An assignment adds no other own property than the one assigned. *)
Lemma assign_dom (o : ProcessedValues) (k : string) (w : Processed) :
  dom (own (assign o k w)) ⊆ dom (own o) ∪ {[k]}.
Proof.
  unfold assign.
  destruct (negb _); [cbn; rewrite dom_insert; set_solver|].
  destruct (own o !! k); [cbn; rewrite dom_insert; set_solver|].
  destruct (prototype o) as [| |[]]; try case_bool_decide;
    destruct w as [[]|]; cbn; rewrite ?dom_insert; set_solver.
Qed.

(** What a parameter is given in [processedValues] for an entry that is
    there; [None] when [JSON.parse] throws. *)
Definition processedEntry (values : gmap string string) (param : PipelineParameter)
  : option Processed :=
  match readProperty values (key param) with
  | Own v => Value <$> coerce (type param) v
  | Inherited =>
      match type param with
      | TString => Some Member
      | t => Value <$> coerce t (memberText (key param))
      end
  | Undefined => None
  end.

Lemma processParameter_entry values o param :
  readProperty values (key param) ≠ Undefined →
  processParameter values (Some o) param
  = w ← processedEntry values param; Some (assign o (key param) w).
Proof.
  unfold processParameter, processedEntry. cbn [mbind option_bind].
  destruct (readProperty values (key param)) as [v| |]; [| |done]; intros _.
  - by destruct (coerce (type param) v).
  - destruct (type param); try done;
      by destruct (coerce _ (memberText (key param))).
Qed.

Lemma processValues_thrown values ps :
  foldl (processParameter values) None ps = None.
Proof. by induction ps. Qed.

Lemma processParameter_keeps values o out param k :
  processParameter values (Some o) param = Some out → k ≠ key param →
  own out !! k = own o !! k.
Proof.
  intros Hout Hne.
  destruct (readProperty values (key param)) as [v| |] eqn:Hentry.
  1, 2: rewrite processParameter_entry in Hout by (by rewrite Hentry);
    destruct (processedEntry values param) as [w|]; [|done]; injection Hout as <-;
    by apply assign_ne.
  unfold processParameter in Hout. cbn [mbind option_bind] in Hout.
  rewrite Hentry in Hout. by injection Hout as <-.
Qed.

(** Processing the other parameters leaves the value of a key alone. *)
Lemma processValues_frame values ps acc out k :
  foldl (processParameter values) (Some acc) ps = Some out →
  k ∉ key <$> ps → own out !! k = own acc !! k.
Proof.
  revert acc. induction ps as [|q ps IH]; intros acc Hout Hk.
  { by injection Hout as ->. }
  rewrite fmap_cons, not_elem_of_cons in Hk. destruct Hk as [Hne Hk].
  cbn [foldl] in Hout.
  destruct (processParameter values (Some acc) q) as [o|] eqn:Hq.
  - rewrite (IH _ Hout Hk). by eapply processParameter_keeps.
  - by rewrite processValues_thrown in Hout.
Qed.

(** With distinct keys, every parameter that has an entry, under a key
    other than [__proto__], is submitted with the value of that entry. *)
Lemma processValues_lookup values ps acc out p :
  NoDup (key <$> ps) →
  foldl (processParameter values) (Some acc) ps = Some out →
  p ∈ ps → key p ≠ "__proto__" → readProperty values (key p) ≠ Undefined →
  own out !! key p = processedEntry values p.
Proof.
  revert acc. induction ps as [|q ps IH]; intros acc Hdup Hout Hp Hproto Hentry.
  { by apply elem_of_nil in Hp. }
  rewrite fmap_cons in Hdup. apply NoDup_cons in Hdup as [Hq Hdup].
  cbn [foldl] in Hout.
  destruct (processParameter values (Some acc) q) as [o|] eqn:Hstep;
    [|by rewrite processValues_thrown in Hout].
  apply elem_of_cons in Hp as [-> | Hp]; [|by eapply IH].
  rewrite (processValues_frame _ _ _ _ _ Hout Hq).
  rewrite processParameter_entry in Hstep by done.
  destruct (processedEntry values q) as [w|]; [|done]. injection Hstep as <-.
  rewrite assign_define by done. cbn. by rewrite lookup_insert_eq.
Qed.

(** Entries without an error are all processed. *)
Lemma processValues_entries values ps acc :
  (∀ param, param ∈ ps → entryError values param = None) →
  is_Some (foldl (processParameter values) (Some acc) ps).
Proof.
  revert acc. induction ps as [|p ps IH]; intros acc Hps; [by eexists|].
  cbn [foldl].
  assert (Hp : entryError values p = None) by (apply Hps; by left).
  assert (Hentry : readProperty values (key p) ≠ Undefined).
  { unfold entryError in Hp. by destruct (readProperty values (key p)). }
  rewrite processParameter_entry by done.
  assert (Hvalue : is_Some (processedEntry values p)).
  { apply entryError_None in Hp as [(v & Hv%readProperty_own & _ & Hcheck) | [Hi Ht]].
    - unfold processedEntry. rewrite Hv.
      destruct (coerce_validated _ _ _ Hcheck) as [x ->]. by eexists.
    - unfold processedEntry. rewrite Hi, Ht. by eexists. }
  destruct Hvalue as [w ->]. cbn [mbind option_bind].
  apply IH. intros param Hparam. apply Hps. by right.
Qed.

Lemma validation_passes values ps run :
  (∀ param, param ∈ ps → entryError values param = None) →
  newErrors (foldl (validateParameter values) run ps) = newErrors run.
Proof.
  revert run. induction ps as [|p ps IH]; intros run Hps; [done|].
  cbn [foldl]. rewrite IH by (intros param Hparam; apply Hps; by right).
  rewrite validateParameter_errors. by rewrite Hps by (by left).
Qed.

(** The double quote, to write JSON texts with. *)
Definition dq : string := String (asciiOfZ 34) "".

Definition numbers (l : list Z) : JSValue := VArray ((λ z, VNumber (ofZ z)) <$> l).

(** What holds for the types [list] and [dict].  The check passes for
    [list] exactly when the entry parses as JSON to an array, and for [dict]
    exactly when it parses to an object that is neither [null] nor an array.
    When every parameter of a pipeline has an entry without an error the
    click submits, and a list or dict parameter whose key is not
    [__proto__] has the parsed JSON as its value in the object submitted
    (the keys of the pipeline being distinct).  ["[1,2,3]"] is a list of
    three items and ["{}"] is not a list; [{"a":1}] is a dict and ["[1,2]"]
    is not. *)
Lemma json_checks (k v : string) :
  (validateParameterValue k v TList = Normal ↔ ∃ items, JSON_parse v = Some (VArray items))
  ∧ (validateParameterValue k v TDict = Normal ↔ ∃ props, JSON_parse v = Some (VObject props))
  ∧ (∀ t, t = TList ∨ t = TDict → validateParameterValue k v t = Normal →
       ∃ parsed, JSON_parse v = Some parsed ∧ coerce t v = Some parsed)
  ∧ (∀ pipeline values,
       NoDup (key <$> parameters pipeline) →
       (∀ param, param ∈ parameters pipeline → entryError values param = None) →
       ∃ processedValues, handleExecute pipeline values = Submitted processedValues
         ∧ ∀ param, param ∈ parameters pipeline → key param ≠ "__proto__" →
             type param = TList ∨ type param = TDict →
             ∃ entry parsed, values !! key param = Some entry
               ∧ JSON_parse entry = Some parsed
               ∧ own processedValues !! key param = Some (Value parsed))
  ∧ (validateParameterValue k "[1,2,3]" TList = Normal
     ∧ coerce TList "[1,2,3]" = Some (numbers [1; 2; 3]%Z)
     ∧ validateParameterValue k "{}" TList = Throw "Valor deve ser um array JSON válido"
     ∧ validateParameterValue k ("{" +:+ dq +:+ "a" +:+ dq +:+ ":1}") TDict = Normal
     ∧ coerce TDict ("{" +:+ dq +:+ "a" +:+ dq +:+ ":1}")
       = Some (VObject [("a", VNumber (ofZ 1))])
     ∧ validateParameterValue k "[1,2]" TDict = Throw "Valor deve ser um objeto JSON válido").
Proof.
  split; [apply validate_list|]. split; [apply validate_dict|]. split; [|split].
  - intros t [-> | ->] Hok.
    + apply validate_list in Hok as [items Hitems]. eauto.
    + apply validate_dict in Hok as [props Hprops]. eauto.
  - intros pipeline values Hdup Hall.
    destruct (processValues_entries values (parameters pipeline)
                {| own := ∅; prototype := ObjectPrototype |} Hall) as [out Hout].
    fold (processValues pipeline values) in Hout.
    exists out. split.
    { unfold handleExecute, noErrors, validateValues.
      rewrite (validation_passes _ _ _ Hall). cbn [newErrors].
      rewrite map_size_empty. rewrite bool_decide_eq_true_2 by done. cbn [negb].
      by rewrite Hout. }
    intros param Hparam Hproto Htype.
    pose proof (Hall param Hparam) as Hparam_ok.
    apply entryError_None in Hparam_ok as [(entry & Hentry & _ & Hcheck) | [_ Ht]];
      [|destruct Htype as [Ht' | Ht']; by rewrite Ht in Ht'].
    apply readProperty_own in Hentry as Hread.
    assert (Hlookup : own out !! key param = processedEntry values param).
    { apply (processValues_lookup values (parameters pipeline)
               {| own := ∅; prototype := ObjectPrototype |} out); try done.
      by rewrite Hread. }
    unfold processedEntry in Hlookup. rewrite Hread in Hlookup.
    exists entry. destruct Htype as [Ht | Ht]; rewrite Ht in *.
    + apply validate_list in Hcheck as [items Hitems]. exists (VArray items).
      rewrite Hlookup. cbn. by rewrite Hitems.
    + apply validate_dict in Hcheck as [props Hprops]. exists (VObject props).
      rewrite Hlookup. cbn. by rewrite Hprops.
  - repeat split; vm_compute; reflexivity.
Qed.

(** A pipeline with one parameter, a list named [__proto__]; [keyRegex]
    accepts the key. *)
Definition protoPipeline : Pipeline :=
  {| id := "p4"; name := "merge"; description := ""; dates := Mapped (TimeValue 0);
     parameters := [{| key := "__proto__"; type := TList; value := VNull |}] |}.

(** C4, where the code departs from it.  The entry ["[1,2,3]"] of a list
    parameter named [__proto__] passes the check, parses to an array of
    three items, and the click submits; but the assignment
    [processedValues["__proto__"] = [1, 2, 3]] makes the array the
    prototype of the object, which is submitted with no property at
    all. *)
Theorem proto_list_entry :
  PipelineForm.keyRegex "__proto__" = true
  ∧ validateParameterValue "__proto__" "[1,2,3]" TList = Normal
  ∧ coerce TList "[1,2,3]" = Some (numbers [1; 2; 3]%Z)
  ∧ newErrors (validateValues protoPipeline {["__proto__" := "[1,2,3]"]}) = ∅
  ∧ handleExecute protoPipeline {["__proto__" := "[1,2,3]"]}
    = Submitted {| own := ∅; prototype := ValuePrototype (numbers [1; 2; 3]%Z) |}.
Proof.
  repeat split; vm_compute; reflexivity.
Qed.

(** *** Integers *)

Local Open Scope Z_scope.

(** A string of decimal digits, at least one. *)
Definition isDigits (s : string) : bool :=
  truthy s && PipelineForm.allChars PipelineForm.isDigit s.

Lemma isDigit_code (c : ascii) : PipelineForm.isDigit c = true → 48 <= code c <= 57.
Proof.
  unfold PipelineForm.isDigit. cbv zeta. intros [?%Z.leb_le ?%Z.leb_le]%andb_prop. lia.
Qed.

Lemma digitValue_isDigit (c : ascii) :
  PipelineForm.isDigit c = true → digitValue 10 c = Some (code c - 48).
Proof.
  intros Hc. pose proof (isDigit_code c Hc). unfold PipelineForm.isDigit in Hc.
  unfold digitValue. cbv zeta in *. rewrite Hc.
  by rewrite (proj2 (Z.ltb_lt _ _)) by lia.
Qed.

(** The number a string of digits denotes. *)
Definition digitsValue (s : string) : Z := (scanDigits 10 s 0 0).1.1.

Lemma scanDigits_all (s : string) (acc count : Z) :
  PipelineForm.allChars PipelineForm.isDigit s = true → 0 <= acc →
  ∃ n, scanDigits 10 s acc count = (n, count + Z.of_nat (String.length s), "") ∧ 0 <= n.
Proof.
  revert acc count. induction s as [|c r IH]; intros acc count Hs Hacc.
  - exists acc. simpl. split; [|done]. do 2 f_equal. lia.
  - cbn [PipelineForm.allChars] in Hs. apply andb_prop in Hs as [Hc Hr].
    cbn [scanDigits]. rewrite (digitValue_isDigit c Hc).
    pose proof (isDigit_code c Hc).
    destruct (IH (acc * 10 + (code c - 48)) (count + 1) Hr ltac:(lia)) as (n & Hn & Hpos).
    exists n. rewrite Hn. split; [|done]. do 2 f_equal. cbn [String.length]. lia.
Qed.

Lemma trimEnd_digits (s : string) :
  PipelineForm.allChars PipelineForm.isDigit s = true → trimEnd s = s.
Proof.
  induction s as [|c r IH]; [done|]. cbn [PipelineForm.allChars].
  intros [Hc Hr]%andb_prop. cbn [trimEnd]. rewrite (IH Hr).
  destruct r; [|done].
  pose proof (isDigit_code c Hc). unfold isWhiteSpace.
  destruct (Z.leb_spec 9 (code c)), (Z.leb_spec (code c) 13),
    (Z.eqb_spec (code c) 32), (Z.eqb_spec (code c) 160); simpl; done || lia.
Qed.

(** On a string of digits [Number] and [parseInt] read the same number, the
    binary64 value nearest to the number the digits denote. *)
Lemma digits_read (s : string) :
  isDigits s = true →
  0 <= digitsValue s
  ∧ parseInt s = roundToDouble (digitsValue s) 1
  ∧ Number s = roundToDouble (digitsValue s) 1.
Proof.
  unfold isDigits. intros [Hne Hall]%andb_prop.
  destruct s as [|c r]; [done|].
  pose proof Hall as Hall'. cbn [PipelineForm.allChars] in Hall'.
  apply andb_prop in Hall' as [Hc Hr]. pose proof (isDigit_code c Hc) as Hcode.
  assert (Hws : isWhiteSpace c = false).
  { unfold isWhiteSpace.
    destruct (Z.leb_spec 9 (code c)), (Z.leb_spec (code c) 13),
      (Z.eqb_spec (code c) 32), (Z.eqb_spec (code c) 160); simpl; done || lia. }
  assert (Htrim : trimStart (String c r) = String c r) by (simpl; by rewrite Hws).
  assert (Hsign : scanSign (String c r) = (false, String c r)).
  { unfold scanSign. destruct (Z.eqb_spec (code c) 45); [lia|].
    destruct (Z.eqb_spec (code c) 43); [lia | done]. }
  destruct (scanDigits_all (String c r) 0 0 Hall ltac:(lia)) as (n & Hn & Hpos).
  assert (Hvalue : digitsValue (String c r) = n) by (unfold digitsValue; by rewrite Hn).
  rewrite Hvalue. split; [done|].
  assert (Hlen : 0 + Z.of_nat (String.length (String c r)) ≠ 0)
    by (cbn [String.length]; lia).
  set (len := 0 + Z.of_nat (String.length (String c r))) in *.
  unfold parseInt, Number, trim. rewrite Htrim, Hsign, (trimEnd_digits _ Hall).
  assert (Hradix : nonDecimalRadix (String c r) = None).
  { unfold nonDecimalRadix. destruct r as [|c' r']; [done|].
    cbn [PipelineForm.allChars] in Hr. apply andb_prop in Hr as [Hc' _].
    pose proof (isDigit_code c' Hc').
    destruct (code c =? 48); simpl; [|done].
    destruct (Z.eqb_spec (code c') 120), (Z.eqb_spec (code c') 88),
      (Z.eqb_spec (code c') 111), (Z.eqb_spec (code c') 79),
      (Z.eqb_spec (code c') 98), (Z.eqb_spec (code c') 66); simpl; done || lia. }
  rewrite Hradix.
  assert (Hprefix : (match r with
                     | String c' r' =>
                         if (code c =? 48) && ((code c' =? 120) || (code c' =? 88))
                         then (16, r') else (10, String c r)
                     | _ => (10, String c r)
                     end) = (10, String c r)).
  { destruct r as [|c' r']; [done|].
    cbn [PipelineForm.allChars] in Hr. apply andb_prop in Hr as [Hc' _].
    pose proof (isDigit_code c' Hc').
    destruct (Z.eqb_spec (code c') 120), (Z.eqb_spec (code c') 88);
      rewrite ?andb_false_r; simpl; done || lia. }
  rewrite Hprefix, Hn.
  destruct (Z.eqb_spec len 0) as [|_]; [done|]. split; [done|].
  unfold scanDecimalLiteral. rewrite Hsign.
  assert (Hinf : stripPrefix "Infinity" (String c r) = None).
  { cbn [stripPrefix].
    destruct (Ascii.eqb_spec "I" c) as [<-|]; [change (code "I") with 73 in Hcode; lia | done]. }
  rewrite Hinf. unfold scanUnsignedDecimal. rewrite Hn.
  destruct (Z.eqb_spec (len + 0) 0) as [|_]; [lia|].
  cbn [scanExponent]. unfold decimalToDouble.
  replace (0 - 0) with 0 by lia. simpl (0 <=? 0). cbv iota.
  by rewrite Z.pow_0_r, Z.mul_1_r.
Qed.

Lemma parseInt_digits (s : string) : isDigits s = true → parseInt s = Number s.
Proof. intros Hs. destruct (digits_read s Hs) as (_ & -> & ->). done. Qed.

(** An entry made of digits that denotes an integer below [2 ^ 53] passes
    the check of an [int] parameter and is submitted as that integer. *)
Lemma int_digits (k s : string) :
  isDigits s = true → digitsValue s < 2 ^ 53 →
  validateParameterValue k s TInt = Normal
  ∧ coerce TInt s = Some (VNumber (ofZ (digitsValue s))).
Proof.
  intros Hs Hsmall. destruct (digits_read s Hs) as (Hpos & Hint & Hnumber).
  unfold validateParameterValue, coerce. rewrite Hint, Hnumber.
  rewrite NumberFacts.roundToDouble_integer by lia.
  by rewrite NumberFacts.isInteger_ofZ.
Qed.

Definition rowsPipeline : Pipeline :=
  {| id := "p1"; name := "etl"; description := ""; dates := Mapped (TimeValue 0);
     parameters := [{| key := "rows"; type := TInt; value := VNull |}] |}.

(** What holds for the type [int]: the check passes exactly when
    [Number(value)] is an integer, and fails with the integer error
    otherwise; ["42"] is submitted as 42 and ["4.2"] is rejected; an entry
    made of digits is submitted as the integer that was checked. *)
Lemma int_validation (k v : string) :
  (validateParameterValue k v TInt = Normal ↔ isInteger (Number v) = true)
  ∧ (validateParameterValue k v TInt = Normal
     ∨ validateParameterValue k v TInt = Throw "Valor deve ser um número inteiro")
  ∧ (isDigits v = true → coerce TInt v = Some (VNumber (Number v)))
  ∧ validateParameterValue k "42" TInt = Normal
  ∧ coerce TInt "42" = Some (VNumber (ofZ 42))
  ∧ validateParameterValue k "4.2" TInt = Throw "Valor deve ser um número inteiro".
Proof.
  split; [|split; [|split]].
  - unfold validateParameterValue. destruct (isInteger (Number v)); simpl; naive_solver.
  - unfold validateParameterValue. destruct (isInteger (Number v)); simpl; eauto.
  - intros Hv. unfold coerce. by rewrite parseInt_digits.
  - repeat split; vm_compute; reflexivity.
Qed.

(** C3, where the code departs from it.  The entry ["1e3"] passes the check
    of an [int] parameter, because [Number("1e3")] is the integer 1000; it
    is submitted as [parseInt("1e3")], which is 1. *)
Theorem int_exponent_entry :
  validateParameterValue "rows" "1e3" TInt = Normal
  ∧ Number "1e3" = ofZ 1000
  ∧ coerce TInt "1e3" = Some (VNumber (ofZ 1))
  ∧ handleExecute rowsPipeline {["rows" := "1e3"]}
    = Submitted {| own := {["rows" := Value (VNumber (ofZ 1))]};
                   prototype := ObjectPrototype |}.
Proof.
  assert (Hcheck : validateParameterValue "rows" "1e3" TInt = Normal)
    by (vm_compute; reflexivity).
  assert (Hcoerce : coerce TInt "1e3" = Some (VNumber (ofZ 1)))
    by (vm_compute; reflexivity).
  split; [done|]. split; [vm_compute; reflexivity|]. split; [done|].
  vm_compute. reflexivity.
Qed.

End ExecutionFormFacts.

(** ** The pipeline forms: parameter keys *)

Module PipelineFormFacts.
Import JS PipelineTypes PipelineForm.

(** The error of a key, given whether an earlier parameter has it. *)
Definition keyError (duplicate : bool) (k : string) : option string :=
  if negb (truthy (trim k)) then Some "Chave é obrigatória"
  else if negb (keyRegex k) then
    Some "Chave deve começar com letra ou _ e conter apenas letras, números e _"
  else if duplicate then Some "Chave deve ser única"
  else None.

Lemma keyError_ext (b1 b2 : bool) (k : string) :
  (truthy (trim k) = true → keyRegex k = true → b1 = b2) →
  keyError b1 k = keyError b2 k.
Proof.
  unfold keyError. destruct (truthy (trim k)), (keyRegex k); simpl; try done.
  by intros ->.
Qed.

(** The loop leaves alone every entry that is not the key error of a
    parameter it visits. *)
Lemma validateParameters_frame (ps : list PipelineParameter) (idx : nat)
    (U : gset string) (E : gmap ErrorKey string) (e : ErrorKey) :
  (∀ j, e = ErrParamKey j → (j < idx)%nat) →
  validateParameters idx ps U E !! e = E !! e.
Proof.
  revert idx U E. induction ps as [|p ps IH]; intros idx U E He; [done|].
  assert (Hne : ErrParamKey idx ≠ e).
  { intros <-. specialize (He idx eq_refl). lia. }
  assert (He' : ∀ j, e = ErrParamKey j → (j < S idx)%nat).
  { intros j Hj. specialize (He j Hj). lia. }
  cbn [validateParameters].
  repeat case_match; rewrite IH by done; by rewrite ?lookup_insert_ne.
Qed.

Lemma validateParameters_lookup (ps : list PipelineParameter) (idx : nat)
    (U : gset string) (E : gmap ErrorKey string) (k : nat) (p : PipelineParameter) :
  (∀ j, (idx ≤ j)%nat → E !! ErrParamKey j = None) →
  ps !! k = Some p →
  validateParameters idx ps U E !! ErrParamKey (idx + k)
  = keyError (bool_decide (key p ∈ U ∨ key p ∈ key <$> take k ps)) (key p).
Proof.
  revert idx U E k. induction ps as [|p0 ps IH]; intros idx U E k HE Hk; [done|].
  destruct k as [|k].
  - injection Hk as ->. rewrite Nat.add_0_r. cbn [validateParameters take fmap list_fmap].
    unfold keyError.
    destruct (negb (truthy (trim (key p)))) eqn:Hblank.
    { rewrite validateParameters_frame by (intros j [= <-]; lia).
      by rewrite lookup_insert_eq. }
    destruct (negb (keyRegex (key p))) eqn:Hregex.
    { rewrite validateParameters_frame by (intros j [= <-]; lia).
      by rewrite lookup_insert_eq. }
    destruct (bool_decide (key p ∈ U)) eqn:Hdup.
    + rewrite validateParameters_frame by (intros j [= <-]; lia).
      rewrite lookup_insert_eq. apply bool_decide_eq_true in Hdup.
      by rewrite bool_decide_eq_true_2 by (by left).
    + rewrite validateParameters_frame by (intros j [= <-]; lia).
      apply bool_decide_eq_false in Hdup.
      rewrite bool_decide_eq_false_2; [by apply HE|].
      intros [?|Hin]; [done|]. by apply elem_of_nil in Hin.
  - cbn [lookup list_lookup] in Hk.
    replace (idx + S k)%nat with (S idx + k)%nat by lia.
    assert (Hstep : ∀ U' E',
      (∀ j, (S idx ≤ j)%nat → E' !! ErrParamKey j = None) →
      (truthy (trim (key p)) = true → keyRegex (key p) = true →
         (key p ∈ U' ↔ key p ∈ U ∨ key p = key p0)) →
      validateParameters (S idx) ps U' E' !! ErrParamKey (S idx + k)
      = keyError (bool_decide (key p ∈ U ∨ key p ∈ key <$> take (S k) (p0 :: ps))) (key p)).
    { intros U' E' HE' HU'. rewrite (IH _ _ _ _ HE' Hk).
      apply keyError_ext. intros Hb Hr. apply bool_decide_ext.
      cbn [take fmap list_fmap]. rewrite elem_of_cons, (HU' Hb Hr). tauto. }
    assert (Hins : ∀ msg j, (S idx ≤ j)%nat →
      <[ErrParamKey idx := msg]> E !! ErrParamKey j = None).
    { intros msg j Hj. rewrite lookup_insert_ne by (intros [=]; lia). apply HE. lia. }
    cbn [validateParameters].
    destruct (negb (truthy (trim (key p0)))) eqn:Hblank.
    { apply Hstep; [by apply Hins|]. intros Hb Hr. split; [tauto|].
      intros [?| Heq]; [done|]. rewrite <-Heq, Hb in Hblank. done. }
    destruct (negb (keyRegex (key p0))) eqn:Hregex.
    { apply Hstep; [by apply Hins|]. intros Hb Hr. split; [tauto|].
      intros [?| Heq]; [done|]. rewrite <-Heq, Hr in Hregex. done. }
    destruct (bool_decide (key p0 ∈ U)) eqn:Hdup.
    + apply bool_decide_eq_true in Hdup.
      apply Hstep; [by apply Hins|]. intros _ _. split; [tauto|].
      intros [?| ->]; done.
    + apply Hstep; [intros j Hj; apply HE; lia|]. intros _ _. set_solver.
Qed.

(** The key error that [validateForm] sets for the parameter at [i]. *)
Lemma formErrors_lookup (name description : string) (ps : list PipelineParameter)
    (i : nat) (p : PipelineParameter) :
  ps !! i = Some p →
  formErrors name description ps !! ErrParamKey i
  = keyError (bool_decide (key p ∈ key <$> take i ps)) (key p).
Proof.
  intros Hi. unfold formErrors.
  rewrite (validateParameters_lookup ps 0 ∅ _ i p) by
    (done || intros j _; unfold validateDescription, validateName;
     repeat case_match; by rewrite ?lookup_insert_ne, ?lookup_empty).
  apply keyError_ext. intros _ _. apply bool_decide_ext. set_solver.
Qed.

Lemma keyRegex_not_blank (k : string) : keyRegex k = true → truthy (trim k) = true.
Proof.
  destruct k as [|c r]; [done|]. intros [Hc _]%andb_prop.
  assert (Hws : isWhiteSpace c = false).
  { unfold isLetter, isUnderscore, isWhiteSpace in *.
    destruct (Z.leb_spec 97 (code c)), (Z.leb_spec (code c) 122),
      (Z.leb_spec 65 (code c)), (Z.leb_spec (code c) 90), (Z.eqb_spec (code c) 95),
      (Z.leb_spec 9 (code c)), (Z.leb_spec (code c) 13), (Z.eqb_spec (code c) 32),
      (Z.eqb_spec (code c) 160); simpl in *; try done; lia. }
  unfold trim. cbn [trimStart]. rewrite Hws. cbn [trimEnd].
  destruct (trimEnd r); [by rewrite Hws | done].
Qed.

(** C5.  [validateForm] sets no error for the key of a parameter exactly
    when the key is not blank, matches [^[A-Za-z_][A-Za-z0-9_]*$] and is not
    the key of an earlier parameter of the list.  When a key that matches
    occurs twice, the first occurrence has no error and the second has the
    uniqueness error. *)
Theorem parameter_key_errors (name description : string) (ps : list PipelineParameter)
    (i : nat) (p : PipelineParameter) (Hi : ps !! i = Some p) :
  (formErrors name description ps !! ErrParamKey i = None ↔
     truthy (trim (key p)) = true ∧ keyRegex (key p) = true
     ∧ ∀ j q, (j < i)%nat → ps !! j = Some q → key q ≠ key p)
  ∧ (∀ j q, (i < j)%nat → ps !! j = Some q → key q = key p →
       keyRegex (key p) = true →
       (∀ h r, (h < i)%nat → ps !! h = Some r → key r ≠ key p) →
       formErrors name description ps !! ErrParamKey i = None
       ∧ formErrors name description ps !! ErrParamKey j = Some "Chave deve ser única").
Proof.
  assert (Hearlier : ∀ (n : nat) (k : string),
    k ∈ key <$> take n ps ↔ ∃ j q, (j < n)%nat ∧ ps !! j = Some q ∧ key q = k).
  { intros n k. rewrite list_elem_of_fmap. split.
    - intros (q & -> & Hq). apply list_elem_of_lookup in Hq as [j Hj].
      apply lookup_take_Some in Hj as [Hj Hlt]. eauto.
    - intros (j & q & Hlt & Hj & <-). exists q. split; [done|].
      apply list_elem_of_lookup. exists j. by rewrite lookup_take_lt. }
  split.
  - rewrite (formErrors_lookup _ _ _ _ _ Hi). unfold keyError.
    destruct (truthy (trim (key p))); simpl; [|naive_solver].
    destruct (keyRegex (key p)); simpl; [|naive_solver].
    case_bool_decide as Hdup; rewrite Hearlier in Hdup.
    + split; [done|]. intros (_ & _ & Hfresh). destruct Hdup as (j & q & Hlt & Hj & Hq).
      by destruct (Hfresh j q).
    + split; [|done]. intros _. repeat split. intros j q Hlt Hj Hq. apply Hdup. eauto.
  - intros j q Hlt Hj Hq Hregex Hfirst.
    rewrite (formErrors_lookup _ _ _ _ _ Hi), (formErrors_lookup _ _ _ _ _ Hj), Hq.
    unfold keyError. rewrite (keyRegex_not_blank _ Hregex), Hregex. simpl. split.
    + rewrite bool_decide_eq_false_2; [done|]. rewrite Hearlier.
      intros (h & r & Hh & Hr & Heq). by destruct (Hfirst h r).
    + rewrite bool_decide_eq_true_2; [done|]. rewrite Hearlier. eauto.
Qed.

Definition exampleParameters : list PipelineParameter :=
  [{| key := "rows"; type := TInt; value := VNull |};
   {| key := "date"; type := TString; value := VNull |};
   {| key := "rows"; type := TList; value := VNull |};
   {| key := "2nd"; type := TInt; value := VNull |};
   {| key := " "; type := TInt; value := VNull |}].

Lemma parameter_key_errors_witness :
  formErrors "etl" "" exampleParameters !! ErrParamKey 0 = None
  ∧ formErrors "etl" "" exampleParameters !! ErrParamKey 2 = Some "Chave deve ser única".
Proof.
  refine (proj2 (parameter_key_errors "etl" "" exampleParameters 0
           {| key := "rows"; type := TInt; value := VNull |} eq_refl)
         2 {| key := "rows"; type := TList; value := VNull |} _ eq_refl eq_refl eq_refl _).
  - lia.
  - intros h r Hh. lia.
Defined.

End PipelineFormFacts.

(** ** Sorting with a comparator *)

Module SortFacts.
Import JS.
Local Open Scope Z_scope.

Section Sort.
Context {A : Type}.
Variable compareFn : A → A → Z.

Lemma insertSorted_perm (x : A) (l : list A) : insertSorted compareFn x l ≡ₚ x :: l.
Proof.
  induction l as [|y l IH]; [done|]. simpl.
  destruct (compareFn x y <=? 0); [done|]. by rewrite IH, Permutation_swap.
Qed.

Lemma sort_perm (l : list A) : sort compareFn l ≡ₚ l.
Proof.
  induction l as [|x l IH]; [done|]. unfold sort in *. simpl.
  by rewrite insertSorted_perm, IH.
Qed.

(** The comparator orders any two elements, one way or the other, and
    consistently. *)
Hypothesis compare_total : ∀ a b, 0 < compareFn a b → compareFn b a <= 0.
Hypothesis compare_trans :
  ∀ a b c, compareFn a b <= 0 → compareFn b c <= 0 → compareFn a c <= 0.

Lemma insertSorted_sorted (x : A) (l : list A) :
  StronglySorted (λ a b, compareFn a b <= 0) l →
  StronglySorted (λ a b, compareFn a b <= 0) (insertSorted compareFn x l).
Proof.
  induction 1 as [|y l Hl IH Hy]; simpl.
  - repeat constructor.
  - destruct (Z.leb_spec (compareFn x y) 0) as [Hle | Hgt].
    + constructor; [by constructor|]. constructor; [done|].
      eapply Forall_impl; [exact Hy|]. intros z Hz. by eapply compare_trans.
    + constructor; [done|]. rewrite insertSorted_perm. constructor; [|done].
      by apply compare_total.
Qed.

Lemma sort_sorted (l : list A) :
  StronglySorted (λ a b, compareFn a b <= 0) (sort compareFn l).
Proof.
  induction l as [|x l IH]; [constructor|]. by apply insertSorted_sorted.
Qed.
End Sort.

Section Stable.
Context {A : Type}.
Variable compareFn : A → A → Z.
Variable P : A → Prop.
Context `{!∀ x, Decision (P x)}.

(** The elements of a class that the comparator does not tell apart. *)
Hypothesis same_class : ∀ x y, P x → P y → compareFn x y <= 0.

Lemma insertSorted_filter (x : A) (l : list A) :
  filter P (insertSorted compareFn x l) = filter P (x :: l).
Proof.
  induction l as [|y l IH]; [done|]. simpl.
  destruct (Z.leb_spec (compareFn x y) 0) as [Hle | Hgt]; [done|].
  rewrite filter_cons, IH, !filter_cons.
  destruct (decide (P x)) as [Hx|]; [|done].
  destruct (decide (P y)) as [Hy|]; [|done].
  specialize (same_class x y Hx Hy). lia.
Qed.

(** The sort keeps the elements of such a class in the order they had. *)
Lemma sort_stable (l : list A) : filter P (sort compareFn l) = filter P l.
Proof.
  induction l as [|x l IH]; [done|]. unfold sort in *. simpl.
  by rewrite insertSorted_filter, !filter_cons, IH.
Qed.
End Stable.

End SortFacts.

(** ** Fetching executions: the order of the tasks *)

Module ExecutionClientFacts.
Import JS ExecutionTypes ExecutionClient.
Local Open Scope Z_scope.

(** The order the specification describes: by finish time, latest first,
    and a task without a finish time after every task that has one. *)
Definition finishedOrder (a b : Execution) : Prop :=
  match finishedAt a, finishedAt b with
  | Some fa, Some fb => fb <= fa
  | Some _, None => True
  | None, Some _ => False
  | None, None => True
  end.

Definition sortedByFinish (l : list Execution) : Prop := StronglySorted finishedOrder l.

Definition createdOrder (a b : Execution) : Prop := createdAt b <= createdAt a.

Lemma byFinishedAtDesc_order (a b : Execution) :
  byFinishedAtDesc a b <= 0 ↔ finishedOrder a b.
Proof.
  unfold byFinishedAtDesc, finishedOrder.
  destruct (finishedAt a), (finishedAt b); lia.
Qed.

Lemma byCreatedAtDesc_order (a b : Execution) :
  byCreatedAtDesc a b <= 0 ↔ createdOrder a b.
Proof. unfold byCreatedAtDesc, createdOrder. lia. Qed.

Lemma StronglySorted_iff {A} (R1 R2 : A → A → Prop) (l : list A) :
  (∀ a b, R1 a b ↔ R2 a b) → StronglySorted R1 l → StronglySorted R2 l.
Proof.
  intros HR. induction 1 as [|x l _ IH Hx]; constructor; [done|].
  eapply Forall_impl; [exact Hx|]. intros y. apply HR.
Qed.

(** What [getMockExecutions] sorts: the order of the specification. *)
Lemma mock_sorted (l : list Execution) :
  sort byFinishedAtDesc l ≡ₚ l
  ∧ sortedByFinish (sort byFinishedAtDesc l)
  ∧ filter (λ e, finishedAt e = None) (sort byFinishedAtDesc l)
    = filter (λ e, finishedAt e = None) l.
Proof.
  split; [apply SortFacts.sort_perm|]. split.
  - apply (StronglySorted_iff _ _ _ byFinishedAtDesc_order).
    apply SortFacts.sort_sorted.
    + intros a b. unfold byFinishedAtDesc. destruct (finishedAt a), (finishedAt b); lia.
    + intros a b c. unfold byFinishedAtDesc.
      destruct (finishedAt a), (finishedAt b), (finishedAt c); lia.
  - apply SortFacts.sort_stable.
    intros x y Hx Hy. unfold byFinishedAtDesc. by rewrite Hx, Hy.
Qed.

Lemma created_sorted (l : list Execution) :
  sort byCreatedAtDesc l ≡ₚ l
  ∧ StronglySorted createdOrder (sort byCreatedAtDesc l)
  ∧ ∀ t, filter (λ e, createdAt e = t) (sort byCreatedAtDesc l)
         = filter (λ e, createdAt e = t) l.
Proof.
  split; [apply SortFacts.sort_perm|]. split.
  - apply (StronglySorted_iff _ _ _ byCreatedAtDesc_order).
    apply SortFacts.sort_sorted; unfold byCreatedAtDesc; intros; lia.
  - intros t. apply SortFacts.sort_stable.
    intros x y Hx Hy. unfold byCreatedAtDesc. lia.
Qed.

(** *** A response of the API *)

(** The host functions of the example: lower case of the letters A to Z,
    the end of the day in UTC, and dates in the format of [toISOString]. *)
Definition lowerAscii (c : ascii) : ascii :=
  if (65 <=? code c) && (code c <=? 90) then asciiOfZ (code c + 32) else c.

Fixpoint toLowerCase (s : string) : string :=
  match s with
  | String c r => String (lowerAscii c) (toLowerCase r)
  | EmptyString => EmptyString
  end.

Definition endOfDayUTC (t : Z) : Z := t / msPerDay * msPerDay + (msPerDay - 1).

Definition newDate (s : string) : Z := default 0 (parseISOString s).

Definition task (i created : string) (s : ExecutionStatus) (finished : option string)
  : RawTask :=
  {| request_id := i; notebook_name := "etl"; raw_version := "v1"; raw_params := "{}";
     raw_status := s; retry_count := 0; created_at := created;
     started_at := Some created; finished_at := finished;
     output_type := None; output_path := None; raw_error := None; raw_logs := None |}.

(** A task that finished yesterday and a task created today that is still
    running. *)
Definition response : list RawTask :=
  [task "a" "2024-05-01T12:00:00.000Z" SUCCESS (Some "2024-05-01T12:30:00.000Z");
   task "b" "2024-05-02T08:00:00.000Z" STARTED None].

Definition noFilter : ExecutionFilter :=
  {| search := Some ""; statusFilter := Some ALL; dateFrom := None; dateTo := None |}.

Definition firstPage : list Execution :=
  (fetchExecutions toLowerCase endOfDayUTC newDate response noFilter 1 10).1.

(** C1, as stated, fails: the monitor shows the running task, which has no
    finish time, before the finished one. *)
Lemma monitor_unfinished_first :
  requestId <$> firstPage = ["b"; "a"]
  ∧ finishedAt <$> firstPage = [None; Some 1714566600000]
  ∧ ¬ sortedByFinish firstPage.
Proof.
  assert (Hpage : firstPage
    = mapTaskToExecution newDate <$> [task "b" "2024-05-02T08:00:00.000Z" STARTED None;
        task "a" "2024-05-01T12:00:00.000Z" SUCCESS (Some "2024-05-01T12:30:00.000Z")])
    by (vm_compute; reflexivity).
  split; [by rewrite Hpage|]. split; [rewrite Hpage; vm_compute; reflexivity|].
  rewrite Hpage. intros Hsorted. inversion Hsorted as [|x l _ Hall]; subst.
  apply Forall_cons in Hall as [Horder _]. exact Horder.
Qed.

(** A page of the list: the block of [pageSize] elements that starts after
    the [page - 1] pages before it. *)
Lemma slice_page {A} (l : list A) (page pageSize : Z) :
  1 <= page → 0 <= pageSize →
  slice l ((page - 1) * pageSize) ((page - 1) * pageSize + pageSize)
  = take (Z.to_nat pageSize) (drop (Z.to_nat ((page - 1) * pageSize)) l).
Proof.
  intros Hpage Hsize. unfold slice.
  set (offset := (page - 1) * pageSize). assert (0 <= offset) by (unfold offset; nia).
  set (len := Z.of_nat (length l)).
  destruct (Z.ltb_spec offset 0); [lia|].
  destruct (Z.ltb_spec (offset + pageSize) 0); [lia|].
  destruct (Z.le_gt_cases len offset) as [Hout | Hin].
  - rewrite !drop_ge by (unfold len in *; lia). by rewrite !take_nil.
  - rewrite (Z.min_l offset len) by lia.
    destruct (Z.le_gt_cases (offset + pageSize) len).
    + rewrite Z.min_l by lia. f_equal. lia.
    + rewrite Z.min_r by lia.
      rewrite !take_ge; [done | |]; rewrite length_drop; unfold len in *; lia.
Qed.

(** C1, amended.  The monitor shows the fetched tasks that pass the filters
    sorted by creation time, latest first, tasks created at the same time in
    the order they were fetched in; a page is a block of that list.  The
    order by finish time, latest first, with the unfinished tasks last and
    in the order they had, is the order of [getMockExecutions], which the
    monitor does not call. *)
Theorem monitor_order (toLowerCase : string → string) (endOfDay : Z → Z)
    (newDate : string → Z) (data : list RawTask) (filters : ExecutionFilter)
    (page pageSize : Z) :
  let filtered :=
    applyFilters toLowerCase endOfDay filters (mapTaskToExecution newDate <$> data) in
  let shown := fetchedExecutions toLowerCase endOfDay newDate data filters in
  (shown ≡ₚ filtered
   ∧ StronglySorted createdOrder shown
   ∧ ∀ t, filter (λ e, createdAt e = t) shown = filter (λ e, createdAt e = t) filtered)
  ∧ (fetchExecutions toLowerCase endOfDay newDate data filters page pageSize
     = (slice shown ((page - 1) * pageSize) ((page - 1) * pageSize + pageSize),
        Z.of_nat (length filtered))
     ∧ (1 <= page → 0 <= pageSize →
        (fetchExecutions toLowerCase endOfDay newDate data filters page pageSize).1
        = take (Z.to_nat pageSize) (drop (Z.to_nat ((page - 1) * pageSize)) shown)))
  ∧ ∀ mockExecutions,
      let chosen := applyFilters toLowerCase endOfDay filters mockExecutions in
      let mock := sortedMockExecutions toLowerCase endOfDay mockExecutions filters in
      mock ≡ₚ chosen
      ∧ sortedByFinish mock
      ∧ filter (λ e, finishedAt e = None) mock = filter (λ e, finishedAt e = None) chosen.
Proof.
  cbv zeta. split; [apply created_sorted|]. split; [|intros; apply mock_sorted].
  assert (Hlen : length (fetchedExecutions toLowerCase endOfDay newDate data filters)
                 = length (applyFilters toLowerCase endOfDay filters
                             (mapTaskToExecution newDate <$> data))).
  { apply Permutation_length. apply created_sorted. }
  split.
  - unfold fetchExecutions. by rewrite Hlen.
  - intros Hpage Hsize. unfold fetchExecutions. cbn [fst]. by apply slice_page.
Qed.

End ExecutionClientFacts.

(** ** The monitor page: download availability and paging *)

Module MonitorFacts.
Import JS ExecutionTypes Monitor.
Local Open Scope Z_scope.

Definition hours (n : Z) : Z := n * 60 * 60 * 1000.
Definition minutes (n : Z) : Z := n * 60 * 1000.

(** A task that succeeded and finished at the time [finished]. *)
Definition succeededAt (finished : Z) : Execution :=
  {| requestId := "r1"; pipelineName := "etl"; version := "v1"; params := "{}";
     status := SUCCESS; retryCount := 0; createdAt := finished - minutes 5;
     startedAt := Some (finished - minutes 4); finishedAt := Some finished;
     outputType := Some "CSV"; outputPath := None; error := None; logs := [] |}.

Lemma isDownloadAvailable_true now e :
  isDownloadAvailable now e = true ↔
  status e = SUCCESS ∧ ∃ finished, finishedAt e = Some finished ∧ now - finished <= hours 3.
Proof.
  unfold isDownloadAvailable, hours.
  destruct (finishedAt e) as [finished|].
  - case_bool_decide as Hs; simpl.
    + rewrite Z.leb_le. split.
      * intros H. split; [done|]. exists finished. split; [done | lia].
      * intros (_ & t & [= <-] & H). lia.
    + split; [done | intros [? _]; done].
  - split; [done | intros (_ & t & ? & _); done].
Qed.

(** C2.  The download of a task is available exactly when its status is
    SUCCESS, it has a finish time, and no more than three hours have passed
    since then; the button is disabled exactly when it is not available.  A
    successful task that finished 2h59m ago is available; one that finished
    3h01m ago is shown as expired and its button is disabled. *)
Theorem download_availability (now : Z) (e : Execution) :
  (isDownloadAvailable now e = true ↔
     status e = SUCCESS ∧
     ∃ finished, finishedAt e = Some finished ∧ now - finished <= hours 3)
  ∧ downloadDisabled now e = negb (isDownloadAvailable now e)
  ∧ (status e = SUCCESS → finishedAt e = Some (now - (hours 2 + minutes 59)) →
     isDownloadAvailable now e = true
     ∧ downloadDisabled now e = false
     ∧ availabilityCell now e = Countdown (now + minutes 1))
  ∧ (status e = SUCCESS → finishedAt e = Some (now - (hours 3 + minutes 1)) →
     isDownloadAvailable now e = false
     ∧ downloadDisabled now e = true
     ∧ availabilityCell now e = Expirado
     ∧ downloadTooltip now e = "Arquivo expirado").
Proof.
  split; [apply isDownloadAvailable_true|].
  split; [done|]. split.
  - intros Hs Hf.
    assert (Hrecent : isDownloadAvailable now e = true).
    { apply isDownloadAvailable_true. split; [done|]. eexists. split; [done|].
      unfold hours, minutes. lia. }
    unfold downloadDisabled, availabilityCell. rewrite Hrecent, Hf, Hs.
    repeat split. simpl. f_equal. unfold getExpiryDate, hours, minutes. lia.
  - intros Hs Hf.
    assert (Hold : isDownloadAvailable now e = false).
    { apply not_true_is_false. rewrite isDownloadAvailable_true.
      intros (_ & t & Ht & H). rewrite Hf in Ht. injection Ht as <-.
      unfold hours, minutes in H. lia. }
    unfold downloadDisabled, availabilityCell, downloadTooltip. rewrite Hold, Hf, Hs.
    done.
Qed.

Lemma download_availability_witness :
  isDownloadAvailable 1714575600000 (succeededAt (1714575600000 - (hours 2 + minutes 59)))
  = true
  ∧ availabilityCell 1714575600000 (succeededAt (1714575600000 - (hours 3 + minutes 1)))
    = Expirado.
Proof.
  split.
  - refine (proj1 (proj1 (proj2 (proj2 (download_availability 1714575600000
              (succeededAt (1714575600000 - (hours 2 + minutes 59)))))) eq_refl eq_refl)).
  - refine (proj1 (proj2 (proj2 (proj2 (proj2 (proj2 (download_availability 1714575600000
              (succeededAt (1714575600000 - (hours 3 + minutes 1)))))) eq_refl eq_refl)))).
Defined.

(** The mock data source applies the same rule to the task it finds. *)
Lemma downloadMockFile_agrees (mockExecutions : list Execution) now id e :
  ExecutionClient.getMockExecutionById mockExecutions id = Some e →
  ExecutionClient.success (ExecutionClient.downloadMockFile mockExecutions now id)
  = isDownloadAvailable now e.
Proof.
  intros Hfind. unfold ExecutionClient.downloadMockFile, isDownloadAvailable.
  rewrite Hfind. destruct (finishedAt e) as [finished|];
    case_bool_decide; simpl; try done.
  destruct (Z.ltb_spec (3 * 60 * 60 * 1000) (now - finished));
    destruct (Z.leb_spec (now - finished) (3 * 60 * 60 * 1000)); simpl; lia || done.
Qed.

(** *** Paging *)

(** The claim as the specification words it: the page is within
    [1 .. ceil(total / pageSize)]. *)
Definition pageWithinRange (s : State) : Prop :=
  1 <= currentPage s <= totalPages s.

(** A session: 25 tasks are loaded, the user goes to the third page, and
    the next fetch finds 5 tasks. *)
Definition shrunk : State :=
  loaded [] 5 (nextPage (nextPage (loaded [] 25 initialState))).

(** C7.  The page is not brought back when the total shrinks.  After 25
    tasks were loaded and the user went to the third page, a fetch that
    finds 5 tasks, as the refresh every ten seconds can, leaves the third
    page current with one page left: the page is outside
    [1 .. ceil(total / pageSize)].  With one page the paging buttons are
    not rendered, so that no click brings it back. *)
Theorem page_outside_range :
  reachable shrunk
  ∧ pageSize shrunk = 10 ∧ totalExecutions shrunk = 5
  ∧ currentPage shrunk = 3 ∧ totalPages shrunk = 1
  ∧ ¬ pageWithinRange shrunk
  ∧ previousEnabled shrunk = false ∧ nextEnabled shrunk = false.
Proof.
  split.
  - unfold shrunk. eapply reachable_step; [|by apply step_loaded].
    eapply reachable_step; [|by apply step_next].
    eapply reachable_step; [|by apply step_next].
    eapply reachable_step; [apply reachable_initial | by apply step_loaded].
  - split; [done|]. split; [done|]. split; [done|]. split; [done|].
    split; [|done].
    unfold pageWithinRange. change (totalPages shrunk) with 1.
    change (currentPage shrunk) with 3. lia.
Qed.

Lemma reachable_pageSize s : reachable s → pageSize s = 10.
Proof.
  induction 1 as [|s s' _ IH Hstep]; [done|].
  destruct Hstep; simpl; done.
Qed.

Lemma reachable_page_lower s : reachable s → 1 <= currentPage s.
Proof.
  induction 1 as [|s s' Hr IH Hstep]; [done|].
  destruct Hstep as [change s|s Hen|s Hen|list total s Htotal]; simpl; try lia; try done.
  apply andb_prop in Hen as [Hpages _]. apply Z.ltb_lt in Hpages. lia.
Qed.

(** What does hold of the page: the page size is always 10 and the current
    page is never below 1; changing any filter sets the page to 1; the two
    paging buttons, which are there only when there is more than one page,
    keep a page that is within [1 .. ceil(total / pageSize)] within it. *)
Lemma paging (s : State) (Hs : reachable s) :
  pageSize s = 10
  ∧ 1 <= currentPage s
  ∧ (∀ change, currentPage (handleFilterChange change s) = 1)
  ∧ (pageWithinRange s →
     (previousEnabled s = true → pageWithinRange (previousPage s))
     ∧ (nextEnabled s = true → pageWithinRange (nextPage s))).
Proof.
  split; [by apply reachable_pageSize|].
  split; [by apply reachable_page_lower|].
  split; [done|].
  unfold pageWithinRange, previousEnabled, nextEnabled, previousPage, nextPage, totalPages.
  simpl. intros [Hlo Hhi]. split.
  - intros _. lia.
  - intros [Hpages Hne]%andb_prop. apply Z.ltb_lt in Hpages. lia.
Qed.

End MonitorFacts.

(** ** The catalog store: mutations and persistence *)

Module StoreFacts.
Import JS PipelineTypes PipelineStore.

(** Every change of the catalog ends with the whole catalog written, in one
    more write. *)
Lemma setPipelinesState_persists update (s : Store) :
  let s' := setPipelinesState update s in
  pipelines s' = update (pipelines s)
  ∧ localStorage s' = Some (stringify (pipelines s'))
  ∧ writes s' = writes s ++ [stringify (pipelines s')].
Proof. done. Qed.

Lemma updatePipeline_lookup (p : Pipeline) (s : Store) (k : nat) :
  pipelines (updatePipeline p s) !! k
  = (λ q, if decide (id q = id p) then p else q) <$> pipelines s !! k.
Proof. unfold updatePipeline. simpl. apply list_lookup_fmap. Qed.

Lemma updatePipeline_absent (p : Pipeline) (s : Store) :
  (∀ q, q ∈ pipelines s → id q ≠ id p) →
  pipelines (updatePipeline p s) = pipelines s.
Proof.
  intros Habsent. unfold updatePipeline. simpl.
  induction (pipelines s) as [|q l IH]; [done|]. csimpl.
  rewrite decide_False by (apply Habsent; left).
  f_equal. apply IH. intros q' Hq'. apply Habsent. by right.
Qed.

Lemma deletePipeline_length (i : string) (s : Store) :
  (length (pipelines (deletePipeline i s))
   + length (filter (λ q, id q = i) (pipelines s)) = length (pipelines s))%nat.
Proof.
  unfold deletePipeline. simpl.
  induction (pipelines s) as [|q l IH]; [done|].
  rewrite !filter_cons. destruct (decide (id q = i)).
  - rewrite decide_False by tauto. simpl. lia.
  - rewrite decide_True by done. simpl. lia.
Qed.

(** C9.  [updatePipeline p] puts [p] in the place of every entry that has
    its id and leaves the other entries, the length and the order as they
    were; without such an entry the catalog is unchanged.  [deletePipeline i]
    keeps, in order, the entries whose id is not [i], and drops exactly the
    others.  After either of them what the storage holds is the whole new
    catalog, and that is the one text written. *)
Theorem catalog_mutations (s : Store) (p : Pipeline) (i : string) :
  (length (pipelines (updatePipeline p s)) = length (pipelines s)
   ∧ (∀ k, pipelines (updatePipeline p s) !! k
           = (λ q, if decide (id q = id p) then p else q) <$> pipelines s !! k)
   ∧ ((∀ q, q ∈ pipelines s → id q ≠ id p) →
        pipelines (updatePipeline p s) = pipelines s))
  ∧ (sublist (pipelines (deletePipeline i s)) (pipelines s)
     ∧ (∀ q, q ∈ pipelines (deletePipeline i s) ↔ q ∈ pipelines s ∧ id q ≠ i)
     ∧ (length (pipelines (deletePipeline i s))
        + length (filter (λ q, id q = i) (pipelines s)) = length (pipelines s))%nat)
  ∧ (∀ s', s' = updatePipeline p s ∨ s' = deletePipeline i s →
       localStorage s' = Some (stringify (pipelines s'))
       ∧ writes s' = writes s ++ [stringify (pipelines s')]).
Proof.
  split; [|split].
  - split; [|split].
    + unfold updatePipeline. simpl. apply length_fmap.
    + apply updatePipeline_lookup.
    + apply updatePipeline_absent.
  - split; [|split].
    + apply sublist_filter.
    + intros q. unfold deletePipeline. simpl. rewrite list_elem_of_filter. tauto.
    + apply deletePipeline_length.
  - intros s' [-> | ->]; done.
Qed.

(** The catalog in a small example. *)
Definition examplePipeline (i n : string) (v : JSValue) : Pipeline :=
  {| id := i; name := n; description := "";
     dates := Mapped (TimeValue 1714564800123);
     parameters := [{| key := "rows"; type := TInt; value := v |}] |}.

(** The provider mounted over an empty storage, and two pipelines added. *)
Definition exampleStore : Store :=
  addPipeline (examplePipeline "b" "load" VNull)
    (addPipeline (examplePipeline "a" "extract" VNull) (firstCommit None)).

Lemma catalog_mutations_witness :
  pipelines (updatePipeline (examplePipeline "c" "other" VNull) exampleStore)
  = pipelines exampleStore.
Proof.
  refine (proj2 (proj2 (proj1
    (catalog_mutations exampleStore (examplePipeline "c" "other" VNull) "c"))) _).
  intros q Hq. simpl in Hq. rewrite !elem_of_cons in Hq.
  destruct Hq as [-> | [-> | Hq]]; [done | done | by apply elem_of_nil in Hq].
Defined.

(** *** The persisted snapshot *)

(** A pipeline as it comes back from the storage.  Its parameter values
    have gone through JSON.  A [createdAt] is read back by the load effect,
    the Invalid Date, written as [null], as the epoch; an entry without the
    property gets the Invalid Date.  A [created_at] stays what JSON wrote for
    it: the text of the date, or [null]. *)
Definition storedParameter (param : PipelineParameter) : PipelineParameter :=
  {| key := key param; type := type param; value := jsonCopy (value param) |}.

Definition reloadedDate (d : DateValue) : DateValue :=
  match d with
  | TimeValue t => TimeValue t
  | InvalidDate => TimeValue 0
  end.

Definition storedDateProperty (c : DateProperty) : DateProperty :=
  match c with
  | ADate (TimeValue t) => AText (toISOString t)
  | ADate InvalidDate => ANull
  | AText s => AText s
  | ANull => ANull
  end.

Definition storedDates (d : Dates) : Dates :=
  match d with
  | Mapped createdAt => Mapped (reloadedDate createdAt)
  | Declared created_at None => Declared (storedDateProperty created_at) (Some InvalidDate)
  | Declared created_at (Some createdAt) =>
      Declared (storedDateProperty created_at) (Some (reloadedDate createdAt))
  end.

Definition storedPipeline (p : Pipeline) : Pipeline :=
  {| id := id p; name := name p; description := description p;
     dates := storedDates (dates p);
     parameters := storedParameter <$> parameters p |}.

(** The time values of the dates are time values of Dates. *)
Definition validDate (d : DateValue) : Prop :=
  match d with
  | TimeValue t => validTime t
  | InvalidDate => True
  end.

Definition validDates (d : Dates) : Prop :=
  match d with
  | Mapped createdAt => validDate createdAt
  | Declared created_at createdAt =>
      match created_at with ADate date => validDate date | _ => True end
      ∧ match createdAt with Some date => validDate date | None => True end
  end.

Definition datesValid (l : list Pipeline) : Prop :=
  Forall (λ q, validDates (dates q)) l.

(** A pipeline that comes back as it was: its dates are the ones a load
    gives and its parameter values are JSON values. *)
Definition persistable (p : Pipeline) : Prop :=
  validDates (dates p)
  ∧ storedDates (dates p) = dates p
  ∧ Forall (λ param, jsonCopy (value param) = value param) (parameters p).

Lemma typeOfName_typeName (t : ParameterType) : typeOfName (typeName t) = Some t.
Proof. by destruct t. Qed.

Lemma readParameter_stringify (param : PipelineParameter) :
  readParameter (stringifyParameter param) = Some (storedParameter param).
Proof.
  unfold readParameter, stringifyParameter, getString. simpl.
  by rewrite typeOfName_typeName.
Qed.

Lemma mapM_fmap_fmap {A B C} (f : B → option C) (g : A → B) (h : A → C) (l : list A) :
  Forall (λ x, f (g x) = Some (h x)) l → mapM f (g <$> l) = Some (h <$> l).
Proof.
  induction 1 as [|x l Hx _ IH]; [done|]. rewrite !fmap_cons. simpl.
  rewrite Hx. simpl. by rewrite IH.
Qed.

Lemma newDate_dateToJSON (d : DateValue) :
  validDate d → newDate (Some (dateToJSON d)) = Some (reloadedDate d).
Proof.
  destruct d as [|t]; [done|]. intros Hvalid. cbn [newDate dateToJSON reloadedDate].
  by rewrite (DateFacts.parseISOString_toISOString _ Hvalid).
Qed.

Lemma readDateProperty_stringify (c : DateProperty) :
  readDateProperty (datePropertyJSON c) = Some (storedDateProperty c).
Proof. by destruct c as [[|t]| |]. Qed.

Lemma readPipeline_stringify (p : Pipeline) :
  validDates (dates p) → readPipeline (stringifyPipeline p) = Some (storedPipeline p).
Proof.
  intros Hvalid. destruct p as [i n d dates ps]. cbn [PipelineTypes.dates] in Hvalid.
  assert (Hps : mapM readParameter (stringifyParameter <$> ps) = Some (storedParameter <$> ps)).
  { apply mapM_fmap_fmap, Forall_forall. intros param _. apply readParameter_stringify. }
  unfold readPipeline, stringifyPipeline, storedPipeline, getString.
  destruct dates as [createdAt | created_at [createdAt|]];
    cbn -[dateToJSON newDate datePropertyJSON readDateProperty] in Hvalid |- *.
  - rewrite Hps. cbn [mbind option_bind].
    rewrite bool_decide_eq_true_2 by done.
    by rewrite (newDate_dateToJSON _ Hvalid).
  - rewrite Hps. cbn [mbind option_bind].
    rewrite bool_decide_eq_false_2 by done.
    rewrite bool_decide_eq_true_2 by (by right).
    rewrite readDateProperty_stringify. cbn [mbind option_bind].
    by rewrite (newDate_dateToJSON _ (proj2 Hvalid)).
  - rewrite Hps. cbn [mbind option_bind].
    rewrite bool_decide_eq_false_2 by done.
    rewrite bool_decide_eq_true_2 by (by left).
    by rewrite readDateProperty_stringify.
Qed.

Lemma storedParameters_fixed (ps : list PipelineParameter) :
  Forall (λ param, jsonCopy (value param) = value param) ps → storedParameter <$> ps = ps.
Proof.
  induction 1 as [|param l Hparam _ IH]; [done|].
  csimpl. rewrite IH. f_equal. destruct param. unfold storedParameter. simpl in *.
  by rewrite Hparam.
Qed.

Lemma storedPipeline_persistable (p : Pipeline) : persistable p → storedPipeline p = p.
Proof.
  intros (_ & Hdates & Hvalues). destruct p as [i n d c ps]. unfold storedPipeline.
  simpl in *. by rewrite Hdates, (storedParameters_fixed _ Hvalues).
Qed.

Lemma stringify_no_null (l : list Pipeline) : existsb isNull (stringifyPipeline <$> l) = false.
Proof. by induction l. Qed.

Lemma loadEffect_stringify (l : list Pipeline) :
  datesValid l → loadEffect (Some (stringify l)) = Loaded (storedPipeline <$> l).
Proof.
  intros Hvalid. unfold loadEffect, stringify. rewrite stringify_no_null.
  rewrite (mapM_fmap_fmap _ _ storedPipeline); [done|].
  eapply Forall_impl; [exact Hvalid|]. intros q Hq. by apply readPipeline_stringify.
Qed.

(** What a later session finds after a session left its catalog in the
    storage. *)
Lemma mount_stringify (l : list Pipeline) :
  datesValid l →
  mount (Some (stringify l))
  = Some (setPipelinesState (λ _, storedPipeline <$> l) (firstCommit (Some (stringify l)))).
Proof. intros Hvalid. unfold mount. by rewrite loadEffect_stringify. Qed.

(** What holds of adding and reloading: a pipeline that JSON and the load
    effect give back as it was is in the catalog of the later session, as
    its last entry. *)
Lemma add_then_reload (s : Store) (p : Pipeline) :
  datesValid (pipelines s) → persistable p →
  ∃ later, reload (addPipeline p s) = Some later
    ∧ p ∈ pipelines later
    ∧ pipelines later !! length (pipelines s) = Some p
    ∧ length (pipelines later) = S (length (pipelines s)).
Proof.
  intros Hcatalog Hp. unfold reload, addPipeline.
  cbn [setPipelinesState saveEffect localStorage pipelines].
  rewrite mount_stringify.
  2: { apply Forall_app. split; [done|]. constructor; [apply Hp | constructor]. }
  eexists. split; [done|]. cbn [setPipelinesState saveEffect pipelines].
  rewrite fmap_app. simpl. rewrite (storedPipeline_persistable p Hp).
  split; [|split].
  - apply elem_of_app. right. by left.
  - rewrite lookup_app_r by (rewrite length_fmap; lia).
    by rewrite length_fmap, Nat.sub_diag.
  - rewrite length_app, length_fmap. simpl. lia.
Qed.

(** A pipeline as [types/pipeline] declares it, with its [created_at]. *)
Definition declaredPipeline : Pipeline :=
  {| id := "d"; name := "declared"; description := "";
     dates := Declared (ADate (TimeValue 1714564800123)) None;
     parameters := [] |}.

(** C6, where the code departs from it.  A pipeline as the type declares
    it is added to the empty catalog and persisted.  The later session
    finds one entry with its id, name, description and parameters, but not
    with its creation date: [JSON.stringify] wrote the [Date] under
    [created_at] as a text, and the load effect makes a [Date] of
    [createdAt], a property the pipeline does not have, so that
    [created_at] stays a text and the entry gets the Invalid Date as
    [createdAt]. *)
Theorem declared_pipeline_reload :
  let session := addPipeline declaredPipeline (firstCommit None) in
  let reloaded :=
    {| id := "d"; name := "declared"; description := "";
       dates := Declared (AText (toISOString 1714564800123)) (Some InvalidDate);
       parameters := [] |} in
  pipelines session = [declaredPipeline]
  ∧ localStorage session = Some (stringify [declaredPipeline])
  ∧ pipelines <$> reload session = Some [reloaded]
  ∧ reloaded ≠ declaredPipeline.
Proof.
  cbv zeta. split; [done|]. split; [done|]. split; [vm_compute; reflexivity | done].
Qed.

(** *** Saving the edit modal *)

Import EditPipelineModal.

Lemma clearValue_null (l : list PipelineParameter) :
  Forall (λ param, value param = VNull) (clearValue <$> l).
Proof. induction l; constructor; done. Qed.

(** The modal starts with every value cleared. *)
Lemma open_values_null (p : Pipeline) :
  Forall (λ param, value param = VNull) (EditPipelineModal.parameters (open p)).
Proof. apply clearValue_null. Qed.

(** C10.  When [handleSave] finds the form valid, the pipeline it passes to
    [updatePipeline] has the id of the pipeline being edited and [null] as
    the value of every parameter, whatever values the parameters had; so
    has every entry of the catalog with that id afterwards. *)
Theorem save_clears_values (m : Modal) (updated : Pipeline) (s : Store)
    (Hsave : handleSave m = Some updated) :
  id updated = id (pipeline m)
  ∧ Forall (λ param, value param = VNull) (PipelineTypes.parameters updated)
  ∧ ∀ q, q ∈ pipelines (updatePipeline updated s) → id q = id (pipeline m) →
      Forall (λ param, value param = VNull) (PipelineTypes.parameters q).
Proof.
  unfold handleSave in Hsave.
  destruct (PipelineForm.validateForm _ _ _); [|done].
  injection Hsave as <-. simpl.
  split; [done|]. split; [apply clearValue_null|].
  intros q Hq Hid. unfold updatePipeline in Hq. simpl in Hq.
  apply list_elem_of_fmap in Hq as (q0 & -> & _).
  destruct (decide _) as [_|Hne]; [apply clearValue_null|].
  by destruct Hne.
Qed.

Definition exampleModal : Modal :=
  {| pipeline := examplePipeline "a" "extract" (VNumber (ofZ 100));
     name := "extract";
     description := "daily extract";
     EditPipelineModal.parameters :=
       [{| key := "rows"; type := TInt; value := VNumber (ofZ 100) |}] |}.

Definition exampleUpdated : Pipeline :=
  {| id := "a"; PipelineTypes.name := "extract";
     PipelineTypes.description := "daily extract";
     dates := Mapped (TimeValue 1714564800123);
     PipelineTypes.parameters := [{| key := "rows"; type := TInt; value := VNull |}] |}.

Lemma save_clears_values_witness :
  handleSave exampleModal = Some exampleUpdated
  ∧ Forall (λ param, value param = VNull) (PipelineTypes.parameters exampleUpdated).
Proof.
  assert (Hsave : handleSave exampleModal = Some exampleUpdated) by (vm_compute; reflexivity).
  split; [exact Hsave|].
  exact (proj1 (proj2 (save_clears_values exampleModal exampleUpdated exampleStore Hsave))).
Defined.

End StoreFacts.

(** ** The forms as a whole: name, description, table and request *)

Module FormFacts.
Import JS PipelineTypes PipelineForm PipelineFormFacts ParametersTable.

(** The loop sets no key error past the last parameter. *)
Lemma validateParameters_beyond (ps : list PipelineParameter) (idx : nat)
    (U : gset string) (E : gmap ErrorKey string) (j : nat) :
  (idx + length ps ≤ j)%nat →
  validateParameters idx ps U E !! ErrParamKey j = E !! ErrParamKey j.
Proof.
  revert idx U E. induction ps as [|p ps IH]; intros idx U E Hj; [done|].
  simpl in Hj. cbn [validateParameters].
  repeat case_match; rewrite IH by lia; rewrite ?lookup_insert_ne; by try (intros [=]; lia).
Qed.

Lemma formErrors_name (name description : string) (ps : list PipelineParameter) :
  formErrors name description ps !! ErrName = validateName name ∅ !! ErrName.
Proof.
  unfold formErrors. rewrite validateParameters_frame by done.
  unfold validateDescription. case_match; by rewrite ?lookup_insert_ne.
Qed.

Lemma formErrors_description (name description : string) (ps : list PipelineParameter) :
  formErrors name description ps !! ErrDescription
  = validateDescription description ∅ !! ErrDescription.
Proof.
  unfold formErrors. rewrite validateParameters_frame by done.
  unfold validateDescription, validateName.
  repeat case_match; by rewrite ?lookup_insert_eq, ?lookup_insert_ne, ?lookup_empty.
Qed.

Lemma formErrors_beyond (name description : string) (ps : list PipelineParameter) (j : nat) :
  (length ps ≤ j)%nat → formErrors name description ps !! ErrParamKey j = None.
Proof.
  intros Hj. unfold formErrors. rewrite validateParameters_beyond by (simpl; lia).
  unfold validateDescription, validateName.
  repeat case_match; by rewrite ?lookup_insert_ne, ?lookup_empty.
Qed.

(** A name is accepted when it is not blank and has 3 to 60 characters,
    spaces included. *)
Definition nameAccepted (name : string) : Prop :=
  truthy (trim name) = true ∧ (3 ≤ String.length name ≤ 60)%nat.

Lemma validateName_accepted (name : string) :
  validateName name ∅ !! ErrName = None ↔ nameAccepted name.
Proof.
  unfold validateName, nameAccepted.
  destruct (truthy (trim name)); simpl.
  - destruct (Nat.ltb_spec (String.length name) 3).
    { rewrite lookup_insert_eq. split; [done | lia]. }
    destruct (Nat.ltb_spec 60 (String.length name)).
    { rewrite lookup_insert_eq. split; [done | lia]. }
    rewrite lookup_empty. split; [intros _; split; [done | lia] | done].
  - rewrite lookup_insert_eq. split; [done | by intros [? _]].
Qed.

Lemma validateDescription_accepted (description : string) :
  validateDescription description ∅ !! ErrDescription = None
  ↔ (String.length description ≤ 255)%nat.
Proof.
  unfold validateDescription. destruct (Nat.ltb_spec 255 (String.length description)).
  - rewrite lookup_insert_eq. split; [done | lia].
  - rewrite lookup_empty. split; [lia | done].
Qed.

Lemma keyError_None (duplicate : bool) (k : string) :
  keyError duplicate k = None ↔ keyRegex k = true ∧ duplicate = false.
Proof.
  unfold keyError. destruct (keyRegex k) eqn:Hregex.
  - rewrite (keyRegex_not_blank _ Hregex). simpl. destruct duplicate; naive_solver.
  - destruct (truthy (trim k)); simpl; naive_solver.
Qed.

(** No position holds a key that an earlier position holds. *)
Lemma NoDup_earlier {A} (l : list A) :
  NoDup l ↔ ∀ i x, l !! i = Some x → x ∉ take i l.
Proof.
  split.
  - intros Hnd i x Hi Hin. apply list_elem_of_lookup in Hin as [j Hj].
    apply lookup_take_Some in Hj as [Hj Hlt].
    pose proof (NoDup_lookup _ _ _ _ Hnd Hi Hj). lia.
  - intros H. apply NoDup_alt. intros i j x Hi Hj.
    destruct (Nat.lt_total i j) as [Hlt | [-> | Hlt]]; [|done|].
    + destruct (H j x Hj). apply list_elem_of_lookup. exists i.
      by rewrite lookup_take_lt.
    + destruct (H i x Hi). apply list_elem_of_lookup. exists j.
      by rewrite lookup_take_lt.
Qed.

(** When [validateForm] sets no error. *)
Lemma formErrors_empty (name description : string) (ps : list PipelineParameter) :
  formErrors name description ps = ∅ ↔
  nameAccepted name
  ∧ (String.length description ≤ 255)%nat
  ∧ Forall (λ p, keyRegex (key p) = true) ps
  ∧ NoDup (key <$> ps).
Proof.
  rewrite <-validateName_accepted, <-validateDescription_accepted.
  rewrite <-(formErrors_name name description ps),
    <-(formErrors_description name description ps).
  split.
  - intros Hempty. rewrite Hempty. split; [done|]. split; [done|].
    assert (Hkeys : ∀ i p, ps !! i = Some p →
      keyRegex (key p) = true ∧ key p ∉ key <$> take i ps).
    { intros i p Hi. pose proof (formErrors_lookup name description ps i p Hi) as Hl.
      rewrite Hempty, lookup_empty in Hl. symmetry in Hl.
      apply keyError_None in Hl as [Hregex Hdup].
      split; [done|]. by apply bool_decide_eq_false in Hdup. }
    split.
    + apply Forall_lookup. intros i p Hi. by apply (Hkeys i p).
    + apply NoDup_earlier. intros i k Hi.
      rewrite list_lookup_fmap in Hi. destruct (ps !! i) as [p|] eqn:Hp; [|done].
      injection Hi as <-. rewrite <-fmap_take. by apply (Hkeys i p).
  - intros (Hname & Hdescription & Hregex & Hnd).
    apply map_empty. intros [| |j]; [done | done |].
    destruct (ps !! j) as [p|] eqn:Hp.
    + rewrite (formErrors_lookup _ _ _ _ _ Hp). apply keyError_None. split.
      * by apply (Forall_lookup_1 _ _ _ _ Hregex Hp).
      * apply bool_decide_eq_false. rewrite fmap_take.
        apply (proj1 (NoDup_earlier _) Hnd j). by rewrite list_lookup_fmap, Hp.
    + apply formErrors_beyond. by apply lookup_ge_None.
Qed.

Lemma validateForm_true (name description : string) (ps : list PipelineParameter) :
  validateForm name description ps = true ↔ formErrors name description ps = ∅.
Proof.
  unfold validateForm. rewrite bool_decide_eq_true. apply map_size_empty_iff.
Qed.

(** X1.  The name error of [validateForm], in the page and in the modal:
    there is none exactly when the name is not blank and has 3 to 60
    characters, counted before trimming; a blank name has the mandatory
    error whatever its length, a shorter one the minimum error and a longer
    one the maximum error.  The description has an error exactly when it
    has more than 255 characters.  Neither depends on the parameters. *)
Theorem name_and_description_errors (name description : string)
    (ps : list PipelineParameter) :
  (formErrors name description ps !! ErrName = None ↔
     truthy (trim name) = true ∧ (3 ≤ String.length name ≤ 60)%nat)
  ∧ (truthy (trim name) = false →
       formErrors name description ps !! ErrName = Some "Nome é obrigatório")
  ∧ (truthy (trim name) = true → (String.length name < 3)%nat →
       formErrors name description ps !! ErrName
       = Some "Nome deve ter pelo menos 3 caracteres")
  ∧ (truthy (trim name) = true → (60 < String.length name)%nat →
       formErrors name description ps !! ErrName
       = Some "Nome deve ter no máximo 60 caracteres")
  ∧ (formErrors name description ps !! ErrDescription = None ↔
       (String.length description ≤ 255)%nat)
  ∧ ((255 < String.length description)%nat →
       formErrors name description ps !! ErrDescription
       = Some "Descrição deve ter no máximo 255 caracteres").
Proof.
  rewrite formErrors_name, formErrors_description.
  split; [apply validateName_accepted|].
  unfold validateName, validateDescription.
  split; [intros ->; simpl; by rewrite lookup_insert_eq|].
  split.
  { intros -> Hlen. simpl. apply Nat.ltb_lt in Hlen. rewrite Hlen.
    by rewrite lookup_insert_eq. }
  split.
  { intros -> Hlen. simpl.
    destruct (Nat.ltb_spec (String.length name) 3); [lia|].
    apply Nat.ltb_lt in Hlen. rewrite Hlen. by rewrite lookup_insert_eq. }
  split; [apply validateDescription_accepted|].
  intros Hlen. apply Nat.ltb_lt in Hlen. rewrite Hlen. by rewrite lookup_insert_eq.
Qed.

(** X2.  [validateForm] returns true exactly when the name is not blank and
    has 3 to 60 characters, the description has at most 255, every key of
    the table matches [^[A-Za-z_][A-Za-z0-9_]*$] and no key occurs twice. *)
Theorem valid_form (name description : string) (ps : list PipelineParameter) :
  validateForm name description ps = true ↔
  (truthy (trim name) = true ∧ (3 ≤ String.length name ≤ 60)%nat)
  ∧ (String.length description ≤ 255)%nat
  ∧ Forall (λ p, keyRegex (key p) = true) ps
  ∧ NoDup (key <$> ps).
Proof. rewrite validateForm_true. apply formErrors_empty. Qed.

(** X3.  [handleSubmit] sends a request exactly when [validateForm] passes.
    The body then has the name and the description as entered and one
    [{name, type}] per row of the table, in the order of the rows; the names
    are identifiers, all different; the values of the parameters are not
    part of it. *)
Theorem submitted_payload (name description : string) (ps : list PipelineParameter) :
  (is_Some (NewPipeline.handleSubmit name description ps)
   ↔ validateForm name description ps = true)
  ∧ ∀ payload, NewPipeline.handleSubmit name description ps = Some payload →
      NewPipeline.payloadName payload = name
      ∧ NewPipeline.payloadDescription payload = description
      ∧ NewPipeline.name <$> NewPipeline.payloadParameters payload = key <$> ps
      ∧ NewPipeline.type <$> NewPipeline.payloadParameters payload = type <$> ps
      ∧ (3 ≤ String.length (NewPipeline.payloadName payload) ≤ 60)%nat
      ∧ (String.length (NewPipeline.payloadDescription payload) ≤ 255)%nat
      ∧ Forall (λ q, keyRegex (NewPipeline.name q) = true)
          (NewPipeline.payloadParameters payload)
      ∧ NoDup (NewPipeline.name <$> NewPipeline.payloadParameters payload).
Proof.
  unfold NewPipeline.handleSubmit.
  destruct (validateForm name description ps) eqn:Hvalid; simpl.
  - split; [by split; eauto|]. intros payload [= <-]. simpl.
    apply validateForm_true, formErrors_empty in Hvalid
      as ((_ & Hname) & Hdescription & Hregex & Hnd).
    rewrite <-!list_fmap_compose.
    repeat split; try done; try lia.
    apply Forall_fmap. by eapply Forall_impl; [exact Hregex|].
  - split; [split; [by intros [? ?] | done] | done].
Qed.

(** Rows whose indices all differ from the index removed stay. *)
Lemma removeParameter_keep (l : list PipelineParameter) (n m : nat) :
  (m < n ∨ n + length l ≤ m)%nat →
  (filter (λ entry : nat * PipelineParameter, entry.1 ≠ m)
     (imap (λ i, pair (n + i)%nat) l)).*2 = l.
Proof.
  revert n. induction l as [|x l IH]; intros n Hm; [done|].
  simpl in Hm. cbn [imap]. rewrite filter_cons_True by (simpl; lia). simpl. f_equal.
  rewrite (imap_ext _ (λ i, pair (S n + i)%nat)) by (intros; simpl; f_equal; lia).
  apply IH. lia.
Qed.

(** Filtering out one index is deleting the element at that index. *)
Lemma removeParameter_shift (l : list PipelineParameter) (n m : nat) :
  (n ≤ m)%nat →
  (filter (λ entry : nat * PipelineParameter, entry.1 ≠ m)
     (imap (λ i, pair (n + i)%nat) l)).*2
  = delete (m - n)%nat l.
Proof.
  revert n. induction l as [|x l IH]; intros n Hm; [done|].
  cbn [imap]. rewrite Nat.add_0_r.
  rewrite (imap_ext _ (λ i, pair (S n + i)%nat)) by (intros; simpl; f_equal; lia).
  destruct (decide (n = m)) as [->|Hne].
  - rewrite filter_cons_False by (simpl; lia). rewrite Nat.sub_diag. simpl.
    apply (removeParameter_keep l (S m) m). lia.
  - rewrite filter_cons_True by (simpl; lia).
    replace (m - n)%nat with (S (m - S n)) by lia. simpl. f_equal.
    apply (IH (S n)). lia.
Qed.

Lemma removeParameter_delete (index : nat) (ps : list PipelineParameter) :
  removeParameter index ps = delete index ps.
Proof.
  unfold removeParameter. trans (delete (index - 0)%nat ps).
  - exact (removeParameter_shift ps 0 index (Nat.le_0_l index)).
  - by rewrite Nat.sub_0_r.
Qed.

(** X4.  A row just added to the table has the empty key, so the form does
    not validate until the row gets a key or is removed: [validateForm]
    fails with the mandatory-key error at the index of the new row, and
    removing that row gives the table back. *)
Theorem added_row_blocks (name description : string) (ps : list PipelineParameter) :
  validateForm name description (addParameter ps) = false
  ∧ formErrors name description (addParameter ps) !! ErrParamKey (length ps)
    = Some "Chave é obrigatória"
  ∧ NewPipeline.handleSubmit name description (addParameter ps) = None
  ∧ removeParameter (length ps) (addParameter ps) = ps.
Proof.
  assert (Herror : formErrors name description (addParameter ps) !! ErrParamKey (length ps)
                   = Some "Chave é obrigatória").
  { rewrite (formErrors_lookup _ _ _ _ {| key := ""; type := TString; value := VNull |}).
    - done.
    - unfold addParameter. by rewrite lookup_app_r, Nat.sub_diag by lia. }
  assert (Hinvalid : validateForm name description (addParameter ps) = false).
  { apply not_true_is_false. intros Hvalid%validateForm_true.
    by rewrite Hvalid, lookup_empty in Herror. }
  split; [done|]. split; [done|]. split.
  { unfold NewPipeline.handleSubmit. by rewrite Hinvalid. }
  rewrite removeParameter_delete, delete_take_drop. unfold addParameter.
  rewrite take_app_length, drop_ge by (rewrite length_app; simpl; lia).
  apply app_nil_r.
Qed.

(** X5.  The two edits of a row of the table.  [removeParameter] takes out
    the row at the index and keeps the others in their order; an index that
    is not the index of a row removes nothing.  [updateParameter] changes
    the key or the type of the row at the index: the other field and the
    value of that row and every other row stay, and the table keeps its
    length. *)
Theorem table_edits (ps : list PipelineParameter) (index : nat) :
  removeParameter index ps = take index ps ++ drop (S index) ps
  ∧ ((index < length ps)%nat → S (length (removeParameter index ps)) = length ps)
  ∧ ((length ps ≤ index)%nat → removeParameter index ps = ps)
  ∧ (∀ field, is_Some (updateParameter index field ps) ↔ (index < length ps)%nat)
  ∧ (∀ field ps', updateParameter index field ps = Some ps' →
       length ps' = length ps
       ∧ (∀ j, j ≠ index → ps' !! j = ps !! j)
       ∧ ∃ param, ps !! index = Some param
           ∧ ps' !! index = Some (setField param field)
           ∧ value (setField param field) = value param
           ∧ match field with
             | KeyField k =>
                 key (setField param field) = k ∧ type (setField param field) = type param
             | TypeField t =>
                 key (setField param field) = key param ∧ type (setField param field) = t
             end).
Proof.
  rewrite removeParameter_delete.
  split; [apply delete_take_drop|].
  split; [intros Hlt; rewrite length_delete by (by apply lookup_lt_is_Some); lia|].
  split.
  { intros Hge. by rewrite delete_take_drop, take_ge, drop_ge, app_nil_r by lia. }
  split.
  - intros field. unfold updateParameter. rewrite <-lookup_lt_is_Some.
    destruct (ps !! index); split; intros [? ?]; by eauto.
  - intros field ps'. unfold updateParameter.
    destruct (ps !! index) as [param|] eqn:Hparam; [|done]. intros [= <-].
    split; [apply length_insert|]. split.
    + intros j Hj. by rewrite list_lookup_insert_ne.
    + exists param. split; [done|]. split.
      * apply list_lookup_insert_eq. by eapply lookup_lt_Some.
      * by destruct field.
Qed.

End FormFacts.

(** ** Decimal entries: [Number] and [parseFloat] read the same number *)

Module DecimalFacts.
Import JS DateFacts.
Local Open Scope Z_scope.

(** A string that is empty or starts with white space: what [trim] cuts
    off at the end. *)
Definition blankStart (w : string) : Prop :=
  match w with
  | String c _ => isWhiteSpace c = true
  | EmptyString => True
  end.

Lemma whiteSpace_code (c : ascii) :
  isWhiteSpace c = true → 9 <= code c <= 13 ∨ code c = 32 ∨ code c = 160.
Proof.
  unfold isWhiteSpace.
  destruct (Z.leb_spec 9 (code c)), (Z.leb_spec (code c) 13), (Z.eqb_spec (code c) 32),
    (Z.eqb_spec (code c) 160); simpl; try done; lia.
Qed.

Lemma whiteSpace_no_digit (c : ascii) : isWhiteSpace c = true → digitValue 10 c = None.
Proof.
  intros Hc%whiteSpace_code. unfold digitValue.
  destruct (Z.leb_spec 48 (code c)), (Z.leb_spec (code c) 57), (Z.leb_spec 97 (code c)),
    (Z.leb_spec (code c) 122), (Z.leb_spec 65 (code c)), (Z.leb_spec (code c) 90);
    simpl; try done; lia.
Qed.

Lemma code_eqb (a b : ascii) : Ascii.eqb a b = (code a =? code b).
Proof.
  destruct (Ascii.eqb_spec a b) as [->|Hne]; [by rewrite Z.eqb_refl|].
  symmetry. apply Z.eqb_neq. intros Heq. apply Hne.
  unfold code in Heq. apply N2Z.inj in Heq.
  by rewrite <-(ascii_N_embedding a), <-(ascii_N_embedding b), Heq.
Qed.

Lemma scanDigits_append (s w : string) (acc count : Z) :
  blankStart w →
  scanDigits 10 (s +:+ w) acc count
  = let '(n, k, r) := scanDigits 10 s acc count in (n, k, r +:+ w).
Proof.
  intros Hw. revert acc count. induction s as [|c s IH]; intros acc count.
  - change ("" +:+ w) with w. destruct w as [|c w]; [done|].
    cbn [scanDigits]. by rewrite (whiteSpace_no_digit c Hw).
  - rewrite append_cons. cbn [scanDigits].
    destruct (digitValue 10 c); [apply IH | by rewrite append_cons].
Qed.

Lemma scanSign_append (s w : string) :
  blankStart w →
  scanSign (s +:+ w) = let '(neg, r) := scanSign s in (neg, r +:+ w).
Proof.
  intros Hw. destruct s as [|c s].
  - change ("" +:+ w) with w. destruct w as [|c w]; [done|].
    cbn [scanSign]. apply whiteSpace_code in Hw.
    destruct (Z.eqb_spec (code c) 45); [lia|]. destruct (Z.eqb_spec (code c) 43); [lia|done].
  - rewrite append_cons. cbn [scanSign].
    destruct (code c =? 45); [done|]. destruct (code c =? 43); [done|].
    by rewrite append_cons.
Qed.

Lemma scanExponent_append (s w : string) :
  blankStart w →
  scanExponent (s +:+ w) = let '(e, r) := scanExponent s in (e, r +:+ w).
Proof.
  intros Hw. destruct s as [|c s].
  - change ("" +:+ w) with w. destruct w as [|c w]; [done|].
    cbn [scanExponent]. apply whiteSpace_code in Hw.
    destruct (Z.eqb_spec (code c) 101); [lia|]. destruct (Z.eqb_spec (code c) 69); [lia|done].
  - rewrite append_cons. cbn [scanExponent].
    destruct ((code c =? 101) || (code c =? 69)); [|by rewrite append_cons].
    rewrite (scanSign_append s w Hw). destruct (scanSign s) as [neg r1].
    rewrite (scanDigits_append r1 w 0 0 Hw). destruct (scanDigits 10 r1 0 0) as [[e count] r2].
    destruct (0 <? count); [done | by rewrite append_cons].
Qed.

(** The decimal point of [scanUnsignedDecimal], tested by its code. *)
Lemma scanUnsignedDecimal_point (s : string) :
  scanUnsignedDecimal s
  = let '(int, icount, r1) := scanDigits 10 s 0 0 in
    let '(mant, fcount, r2) :=
      match r1 with
      | String c r =>
          if code c =? 46 then
            let '(m, total, r') := scanDigits 10 r int icount in (m, total - icount, r')
          else (int, 0, r1)
      | EmptyString => (int, 0, r1)
      end in
    if icount + fcount =? 0 then None
    else
      let '(e, r3) := scanExponent r2 in
      Some (decimalToDouble mant (e - fcount), r3).
Proof.
  unfold scanUnsignedDecimal. destruct (scanDigits 10 s 0 0) as [[int icount] r1].
  destruct r1 as [|c r]; [done|].
  by destruct c as [[] [] [] [] [] [] [] []].
Qed.

Lemma scanUnsignedDecimal_append (s w : string) :
  blankStart w →
  scanUnsignedDecimal (s +:+ w)
  = match scanUnsignedDecimal s with
    | Some (x, r) => Some (x, r +:+ w)
    | None => None
    end.
Proof.
  intros Hw. rewrite !scanUnsignedDecimal_point.
  rewrite (scanDigits_append s w 0 0 Hw).
  destruct (scanDigits 10 s 0 0) as [[int icount] r1].
  assert (Hfraction :
    match r1 +:+ w with
    | String c r =>
        if code c =? 46 then
          let '(m, total, r') := scanDigits 10 r int icount in (m, total - icount, r')
        else (int, 0, r1 +:+ w)
    | EmptyString => (int, 0, r1 +:+ w)
    end
    = let '(mant, fcount, r2) :=
        match r1 with
        | String c r =>
            if code c =? 46 then
              let '(m, total, r') := scanDigits 10 r int icount in (m, total - icount, r')
            else (int, 0, r1)
        | EmptyString => (int, 0, r1)
        end in (mant, fcount, r2 +:+ w)).
  { destruct r1 as [|c r].
    - change ("" +:+ w) with w. destruct w as [|c w]; [done|].
      apply whiteSpace_code in Hw. destruct (Z.eqb_spec (code c) 46); [lia|done].
    - rewrite append_cons. destruct (code c =? 46); [|done].
      rewrite (scanDigits_append r w int icount Hw).
      by destruct (scanDigits 10 r int icount) as [[m total] r']. }
  rewrite Hfraction.
  destruct (match r1 with String c r => _ | EmptyString => _ end) as [[mant fcount] r2].
  destruct (icount + fcount =? 0); [done|].
  rewrite (scanExponent_append r2 w Hw). by destruct (scanExponent r2) as [e r3].
Qed.

Lemma stripPrefix_append (p s w r : string) :
  stripPrefix p s = Some r → stripPrefix p (s +:+ w) = Some (r +:+ w).
Proof.
  revert s. induction p as [|a p IH]; intros s; [by intros [= ->]|].
  destruct s as [|b s]; [done|]. rewrite append_cons. cbn [stripPrefix].
  destruct (Ascii.eqb a b); [apply IH | done].
Qed.

Lemma stripPrefix_blank (p s w : string) :
  (∀ a p' q, p = q +:+ String a p' → isWhiteSpace a = false) →
  blankStart w → stripPrefix p s = None → stripPrefix p (s +:+ w) = None.
Proof.
  intros Hp Hw. revert s Hp. induction p as [|a p IH]; intros s Hp; [done|].
  assert (Ha : isWhiteSpace a = false) by (by apply (Hp a p "")).
  destruct s as [|b s].
  - intros _. change ("" +:+ w) with w. destruct w as [|c w]; [done|].
    cbn [stripPrefix]. destruct (Ascii.eqb_spec a c) as [->|]; [|done].
    simpl in Hw. by rewrite Hw in Ha.
  - rewrite append_cons. cbn [stripPrefix]. destruct (Ascii.eqb a b); [|done].
    apply IH. intros a' p' q ->. by apply (Hp a' p' (String a q)).
Qed.

Lemma scanDecimalLiteral_append (s w : string) :
  blankStart w →
  scanDecimalLiteral (s +:+ w)
  = match scanDecimalLiteral s with
    | Some (x, r) => Some (x, r +:+ w)
    | None => None
    end.
Proof.
  intros Hw. unfold scanDecimalLiteral.
  rewrite (scanSign_append s w Hw). destruct (scanSign s) as [neg r].
  destruct (stripPrefix "Infinity" r) as [r'|] eqn:Hinf.
  - by rewrite (stripPrefix_append _ _ w _ Hinf).
  - rewrite (stripPrefix_blank "Infinity" r w); [| |done|done].
    + rewrite (scanUnsignedDecimal_append r w Hw).
      by destruct (scanUnsignedDecimal r) as [[x r']|].
    + intros a p' q Hq.
      assert (Hall : PipelineForm.allChars (λ c, negb (isWhiteSpace c)) "Infinity" = true)
        by (vm_compute; reflexivity).
      rewrite Hq in Hall. clear Hq.
      induction q as [|b q IH]; simpl in Hall.
      * apply andb_prop in Hall as [Hall _]. by apply negb_true_iff.
      * apply andb_prop in Hall as [_ Hall]. by apply IH.
Qed.

(** What [trimEnd] cuts off is empty or starts with white space. *)
Lemma trimEnd_split (s : string) : ∃ w, s = trimEnd s +:+ w ∧ blankStart w.
Proof.
  induction s as [|c s (w & Hs & Hw)]; [by exists ""|].
  cbn [trimEnd]. destruct (trimEnd s) as [|c' r'] eqn:Hr.
  - change ("" +:+ w) with w in Hs. subst w.
    destruct (isWhiteSpace c) eqn:Hc.
    + by exists (String c s).
    + by exists s.
  - exists w. rewrite append_cons. by rewrite <-Hs.
Qed.

(** A decimal entry that [Number] reads as a number is read as the same
    number by [parseFloat]. *)
Lemma parseFloat_Number (v : string) :
  trim v ≠ "" → nonDecimalRadix (trim v) = None → isNaN (Number v) = false →
  parseFloat v = Number v.
Proof.
  intros Hblank Hradix Hnumber. unfold parseFloat.
  destruct (trimEnd_split (trimStart v)) as (w & Hsplit & Hw).
  rewrite Hsplit, (scanDecimalLiteral_append _ w Hw).
  unfold Number in *. fold (trim v). destruct (trim v) as [|c t] eqn:Ht; [done|].
  rewrite Hradix in *.
  destruct (scanDecimalLiteral (String c t)) as [[x r]|]; [|done].
  by destruct r.
Qed.

End DecimalFacts.

(** ** The execution form: outcomes of a click, number entries, typing *)

Module ExecutionFormOutcomes.
Import JS PipelineTypes ExecutionForm ExecutionFormFacts ExecutionFormFields.

(** *** When the processing throws *)

(** A parameter that [processValues] gets past: it has no entry, or its
    entry has a value. *)
Definition processed (values : gmap string string) (param : PipelineParameter) : Prop :=
  readProperty values (key param) = Undefined ∨ is_Some (processedEntry values param).

Lemma processParameter_processed values o param :
  processed values param ↔ is_Some (processParameter values (Some o) param).
Proof.
  unfold processed.
  destruct (readProperty values (key param)) as [v| |] eqn:Hentry.
  1, 2: rewrite processParameter_entry by (by rewrite Hentry);
    destruct (processedEntry values param); cbn;
    (split; [intros [?|?]; by eauto | intros ?; by eauto]).
  unfold processParameter. cbn [mbind option_bind]. rewrite Hentry.
  split; [by eauto | by left].
Qed.

Lemma processValues_Some values ps acc :
  is_Some (foldl (processParameter values) (Some acc) ps)
  ↔ ∀ param, param ∈ ps → processed values param.
Proof.
  revert acc. induction ps as [|p ps IH]; intros acc.
  { split; [|by eexists]. intros _ param Hparam. by apply elem_of_nil in Hparam. }
  cbn [foldl]. split.
  - intros Hout param Hparam.
    destruct (processParameter values (Some acc) p) as [o|] eqn:Hp;
      [|rewrite processValues_thrown in Hout; by destruct Hout].
    apply elem_of_cons in Hparam as [-> | Hparam].
    + apply (processParameter_processed values acc). by rewrite Hp.
    + by apply (IH o).
  - intros Hall.
    destruct (proj1 (processParameter_processed values acc p) (Hall p ltac:(by left)))
      as [o Ho].
    rewrite Ho. apply IH. intros param Hparam. apply Hall. by right.
Qed.

(** An entry without an error has a value. *)
Lemma entryError_processed values param :
  entryError values param = None → processed values param.
Proof.
  intros [(v & Hv%readProperty_own & _ & Hcheck) | [Hi Ht]]%entryError_None;
    right; unfold processedEntry.
  - rewrite Hv. destruct (coerce_validated _ _ _ Hcheck) as [x ->]. by eexists.
  - rewrite Hi, Ht. by eexists.
Qed.

Lemma coerce_thrown (t : ParameterType) (v : string) :
  coerce t v = None ↔ (t = TList ∨ t = TDict) ∧ JSON_parse v = None.
Proof.
  destruct t; cbn; (split; [intros H; try done; split; eauto | intros [[?|?] ?]; done]).
Qed.

Lemma member_not_json (k : string) :
  k ∈ objectPrototypeNames → JSON_parse (memberText k) = None.
Proof.
  unfold objectPrototypeNames. intros Hname.
  repeat (apply elem_of_cons in Hname as [-> | Hname]; [by vm_compute|]).
  by apply elem_of_nil in Hname.
Qed.

(** The entry that makes the processing throw: a list or a dict that
    [JSON.parse] rejects. *)
Lemma not_processed values param :
  ¬ processed values param ↔
  (type param = TList ∨ type param = TDict)
  ∧ ((∃ v, values !! key param = Some v ∧ JSON_parse v = None)
     ∨ (values !! key param = None ∧ key param ∈ objectPrototypeNames)).
Proof.
  unfold processed, processedEntry.
  destruct (readProperty values (key param)) as [v| |] eqn:Hentry.
  - apply readProperty_own in Hentry as Hown. rewrite Hown.
    destruct (coerce (type param) v) as [x|] eqn:Hx; cbn.
    + split; [intros Hn; destruct Hn; right; by eexists|].
      intros [Htype [(v' & [= <-] & Hparse) | [? _]]]; [|done].
      assert (Hnone : coerce (type param) v = None) by (by apply coerce_thrown).
      congruence.
    + apply coerce_thrown in Hx as [Htype Hparse].
      split; [intros _; split; [done|]; left; eauto|].
      intros _ [?|[? ?]]; done.
  - apply readProperty_inherited in Hentry as [Hnone Hname]. rewrite Hnone.
    pose proof (member_not_json _ Hname) as Hlist.
    destruct (type param) eqn:Htype; cbn; rewrite ?Hlist; cbn.
    1, 2, 3, 4: split; [intros Hn; destruct Hn; right; by eexists
                       | by intros [[?|?] _]].
    all: split; [intros _; split; eauto | intros _ [?|[? ?]]; done].
  - apply readProperty_undefined in Hentry as [Hnone Hname]. rewrite Hnone.
    split; [intros Hn; destruct Hn; by left|].
    intros [_ [(? & ? & _) | [_ ?]]]; done.
Qed.

Lemma processed_dec values param : processed values param ∨ ¬ processed values param.
Proof.
  unfold processed. destruct (readProperty values (key param)); [| |by left; left].
  all: destruct (processedEntry values param); [left; right; by eexists|].
  all: right; intros [?|[? ?]]; done.
Qed.

Lemma handleExecute_Failed (pipeline : Pipeline) (values : gmap string string) :
  handleExecute pipeline values = Failed ↔
  newErrors (validateValues pipeline values) = ∅
  ∧ ∃ param, param ∈ parameters pipeline ∧ key param = "__proto__"
      ∧ (type param = TList ∨ type param = TDict)
      ∧ ∀ v, values !! "__proto__" = Some v → JSON_parse v = None.
Proof.
  unfold handleExecute. split.
  - destruct (noErrors _) eqn:Hok; [|done]. cbn [negb].
    apply noErrors_empty in Hok. intros Hfailed. split; [done|].
    assert (Hthrows : ¬ ∀ param, param ∈ parameters pipeline → processed values param).
    { intros Hall.
      apply (proj2 (processValues_Some values _
                      {| own := ∅; prototype := ObjectPrototype |})) in Hall.
      fold (processValues pipeline values) in Hall.
      destruct Hall as [o Ho]. by rewrite Ho in Hfailed. }
    assert (Hsome : ∃ param, param ∈ parameters pipeline ∧ ¬ processed values param).
    { clear Hfailed Hok. induction (parameters pipeline) as [|p ps IH].
      - destruct Hthrows. intros param Hparam. by apply elem_of_nil in Hparam.
      - destruct (processed_dec values p) as [Hp | Hp].
        + destruct IH as (param & Hparam & Hnot).
          * intros Hall. apply Hthrows. intros param [-> | Hparam]%elem_of_cons; auto.
          * exists param. split; [by right | done].
        + exists p. split; [by left | done]. }
    destruct Hsome as (param & Hparam & Hnot). exists param. split; [done|].
    assert (Hproto : key param = "__proto__").
    { destruct (decide (key param = "__proto__")) as [|Hne]; [done|].
      destruct Hnot. apply entryError_processed.
      by apply (validated_entries pipeline). }
    split; [done|]. apply not_processed in Hnot as [Htype Hentry]. split; [done|].
    rewrite Hproto in Hentry. intros v Hv.
    destruct Hentry as [(v' & Hv' & Hparse) | [Hnone _]]; congruence.
  - intros (Hok & param & Hparam & Hproto & Htype & Hentry).
    rewrite (proj2 (noErrors_empty _) Hok). cbn [negb].
    destruct (processValues pipeline values) as [o|] eqn:Ho; [|done].
    assert (Hall : is_Some (processValues pipeline values)) by (rewrite Ho; by eexists).
    unfold processValues in Hall.
    pose proof (proj1 (processValues_Some _ _ _) Hall param Hparam) as Hp.
    exfalso. revert Hp. apply not_processed. split; [done|]. rewrite Hproto.
    destruct (values !! "__proto__") as [v|] eqn:Hv; [left; eauto|].
    right. split; [done|]. unfold objectPrototypeNames. set_solver.
Qed.

(** X6.  When [processValues] throws after [validateValues] has passed.
    It does so, and the [catch] of [handleExecute] shows the failure,
    exactly when the pipeline has a list or dict parameter named
    [__proto__] whose entry is not JSON: the error of its check is assigned
    to [newErrors["__proto__"]], which records nothing.  An entry never
    typed is such an entry.  For a pipeline without a parameter of that
    name the processing never throws: the entries of list and dict
    parameters have been parsed by the validation, and the other
    conversions do not throw. *)
Theorem processing_failure (pipeline : Pipeline) (values : gmap string string) :
  (handleExecute pipeline values = Failed ↔
     newErrors (validateValues pipeline values) = ∅
     ∧ ∃ param, param ∈ parameters pipeline ∧ key param = "__proto__"
         ∧ (type param = TList ∨ type param = TDict)
         ∧ ∀ v, values !! "__proto__" = Some v → JSON_parse v = None)
  ∧ ((∀ param, param ∈ parameters pipeline → key param ≠ "__proto__") →
       handleExecute pipeline values ≠ Failed
       ∧ (newErrors (validateValues pipeline values) = ∅ →
            is_Some (processValues pipeline values)))
  ∧ handleExecute protoPipeline ∅ = Failed
  ∧ ((∃ errors, handleExecute pipeline values = Blocked errors ∧ errors ≠ ∅)
     ∨ (∃ processedValues, handleExecute pipeline values = Submitted processedValues)
     ∨ handleExecute pipeline values = Failed).
Proof.
  split; [apply handleExecute_Failed|]. split; [|split].
  - intros Hkeys.
    assert (Hfailed : handleExecute pipeline values ≠ Failed).
    { intros (_ & param & Hparam & Hproto & _)%handleExecute_Failed.
      by apply (Hkeys param). }
    split; [done|]. intros Hok%noErrors_empty. unfold handleExecute in Hfailed.
    rewrite Hok in Hfailed. cbn [negb] in Hfailed.
    by destruct (processValues pipeline values).
  - vm_compute. reflexivity.
  - unfold handleExecute. destruct (noErrors _) eqn:Hok; cbn [negb].
    + destruct (processValues pipeline values); [right; left; by eexists | by right; right].
    + left. eexists. split; [done|].
      intros Hempty. apply noErrors_empty in Hempty. by rewrite Hempty in Hok.
Qed.

(** *** The keys of the object submitted *)

Lemma processValues_dom values ps acc out :
  foldl (processParameter values) (Some acc) ps = Some out →
  dom (own out) ⊆ dom (own acc) ∪ list_to_set (key <$> ps).
Proof.
  revert acc. induction ps as [|p ps IH]; intros acc Hout.
  { injection Hout as <-. set_solver. }
  cbn [foldl] in Hout.
  destruct (processParameter values (Some acc) p) as [o|] eqn:Hp;
    [|by rewrite processValues_thrown in Hout].
  apply IH in Hout. rewrite fmap_cons. cbn [list_to_set].
  assert (Ho : dom (own o) ⊆ dom (own acc) ∪ {[key p]}); [|set_solver].
  destruct (readProperty values (key p)) as [v| |] eqn:Hentry.
  1, 2: rewrite processParameter_entry in Hp by (by rewrite Hentry);
    destruct (processedEntry values p) as [w|]; [|done]; injection Hp as <-;
    apply assign_dom.
  unfold processParameter in Hp. cbn [mbind option_bind] in Hp. rewrite Hentry in Hp.
  injection Hp as <-. set_solver.
Qed.

(** A parameter with an entry, under a key other than [__proto__], is an
    own property of the object built. *)
Lemma processValues_own values ps acc out param :
  foldl (processParameter values) (Some acc) ps = Some out →
  param ∈ ps → key param ≠ "__proto__" → readProperty values (key param) ≠ Undefined →
  is_Some (own out !! key param).
Proof.
  revert acc. induction ps as [|p ps IH]; intros acc Hout Hparam Hproto Hentry.
  { by apply elem_of_nil in Hparam. }
  cbn [foldl] in Hout.
  destruct (processParameter values (Some acc) p) as [o|] eqn:Hp;
    [|by rewrite processValues_thrown in Hout].
  apply elem_of_cons in Hparam as [-> | Hparam]; [|by eapply IH].
  rewrite processParameter_entry in Hp by done.
  destruct (processedEntry values p) as [w|]; [|done]. injection Hp as <-.
  assert (Hset : is_Some (own (assign acc (key p) w) !! key p)).
  { rewrite assign_define by done. cbn. rewrite lookup_insert_eq. by eexists. }
  clear IH Hentry. revert Hout Hset. generalize (assign acc (key p) w).
  induction ps as [|q ps IH]; intros o Hout Hset; [by injection Hout as <-|].
  cbn [foldl] in Hout.
  destruct (processParameter values (Some o) q) as [o'|] eqn:Hq;
    [|by rewrite processValues_thrown in Hout].
  apply (IH o' Hout).
  destruct (decide (key p = key q)) as [Heq | Hne];
    [|by rewrite (processParameter_keeps _ _ _ _ _ Hq Hne)].
  destruct (readProperty values (key q)) as [v| |] eqn:Hentry.
  1, 2: rewrite processParameter_entry in Hq by (by rewrite Hentry);
    destruct (processedEntry values q) as [w'|]; [|done]; injection Hq as <-;
    rewrite Heq, assign_define by (by rewrite <-Heq); cbn;
    rewrite lookup_insert_eq; by eexists.
  unfold processParameter in Hq. cbn [mbind option_bind] in Hq. rewrite Hentry in Hq.
  by injection Hq as <-.
Qed.

Lemma processValues_prototype values ps acc out :
  foldl (processParameter values) (Some acc) ps = Some out →
  (∀ param, param ∈ ps → key param ≠ "__proto__") →
  prototype out = prototype acc.
Proof.
  revert acc. induction ps as [|p ps IH]; intros acc Hout Hkeys.
  { by injection Hout as <-. }
  cbn [foldl] in Hout.
  destruct (processParameter values (Some acc) p) as [o|] eqn:Hp;
    [|by rewrite processValues_thrown in Hout].
  rewrite (IH o Hout) by (intros param Hparam; apply Hkeys; by right).
  destruct (readProperty values (key p)) as [v| |] eqn:Hentry.
  1, 2: rewrite processParameter_entry in Hp by (by rewrite Hentry);
    destruct (processedEntry values p) as [w|]; [|done]; injection Hp as <-;
    by rewrite assign_define by (apply Hkeys; by left).
  unfold processParameter in Hp. cbn [mbind option_bind] in Hp. rewrite Hentry in Hp.
  by injection Hp as <-.
Qed.

(** An entry without an error is there. *)
Lemma entryError_present values param :
  entryError values param = None → readProperty values (key param) ≠ Undefined.
Proof. unfold entryError. by destruct (readProperty values (key param)). Qed.

(** The own properties of the object submitted. *)
Lemma submitted_own (pipeline : Pipeline) (values : gmap string string)
    (processedValues : ProcessedValues) :
  handleExecute pipeline values = Submitted processedValues →
  dom (own processedValues) ⊆ list_to_set (key <$> parameters pipeline)
  ∧ ∀ param, param ∈ parameters pipeline → key param ≠ "__proto__" →
      is_Some (own processedValues !! key param).
Proof.
  intros Hsubmitted.
  destruct (submitted_checked _ _ _ Hsubmitted) as [Hok Hall].
  unfold handleExecute in Hsubmitted. destruct (noErrors _); [|done]. simpl in Hsubmitted.
  destruct (processValues pipeline values) as [out|] eqn:Hout; [|done].
  injection Hsubmitted as <-. unfold processValues in Hout. split.
  - apply processValues_dom in Hout. cbn in Hout. set_solver.
  - intros param Hparam Hproto.
    apply (processValues_own values _ _ _ param Hout Hparam Hproto).
    by apply entryError_present, Hall.
Qed.

(** X7.  The own properties of the object a click submits are named after
    parameters of the pipeline: an entry left in the form's values under a
    key that is not a parameter of the pipeline is not submitted.  Every
    parameter has its property, but one named [__proto__], for which the
    assignment goes to the setter of [Object.prototype]: for a pipeline
    without such a parameter the object has exactly the keys of the
    parameters, and its prototype is the one the literal gave it. *)
Theorem submitted_keys (pipeline : Pipeline) (values : gmap string string)
    (processedValues : ProcessedValues)
    (Hsubmitted : handleExecute pipeline values = Submitted processedValues) :
  dom (own processedValues) ⊆ list_to_set (key <$> parameters pipeline)
  ∧ (∀ k, k ∉ key <$> parameters pipeline → own processedValues !! k = None)
  ∧ (∀ param, param ∈ parameters pipeline → key param ≠ "__proto__" →
       is_Some (own processedValues !! key param))
  ∧ ((∀ param, param ∈ parameters pipeline → key param ≠ "__proto__") →
       dom (own processedValues) = list_to_set (key <$> parameters pipeline)
       ∧ prototype processedValues = ObjectPrototype).
Proof.
  destruct (submitted_own _ _ _ Hsubmitted) as [Hdom Hown].
  split; [done|]. split; [|split; [done|]].
  - intros k Hk. apply not_elem_of_dom. set_solver.
  - intros Hkeys. split.
    + apply set_eq. intros k. split; [set_solver|].
      rewrite elem_of_list_to_set, list_elem_of_fmap. intros (param & -> & Hparam).
      apply elem_of_dom. by apply Hown; [|apply Hkeys].
    + unfold handleExecute in Hsubmitted. destruct (noErrors _); [|done].
      simpl in Hsubmitted.
      destruct (processValues pipeline values) as [out|] eqn:Hout; [|done].
      injection Hsubmitted as <-.
      by rewrite (processValues_prototype _ _ _ _ Hout Hkeys).
Qed.

Definition reportPipeline : Pipeline :=
  {| id := "p2"; name := "report"; description := ""; dates := Mapped (TimeValue 0);
     parameters := [{| key := "title"; type := TString; value := VNull |}] |}.

Lemma submitted_keys_witness :
  own {| own := {["title" := Value (VString "May")]}; prototype := ObjectPrototype |}
    !! "rows" = None.
Proof.
  refine (proj1 (proj2 (submitted_keys reportPipeline {["title" := "May"; "rows" := "10"]}
                   {| own := {["title" := Value (VString "May")]};
                      prototype := ObjectPrototype |} _)) "rows" _).
  - vm_compute. reflexivity.
  - simpl. set_solver.
Defined.

(** X8.  A number or float entry passes its check exactly when [Number]
    reads it as a number.  An accepted entry in decimal notation, that is
    one that is not blank and not written as [0x], [0o] or [0b] digits, is
    submitted as the number the check read.  The two readers differ on the
    other accepted entries: a blank one is submitted as NaN and a
    hexadecimal one as 0. *)
Theorem number_entries (k v : string) (t : ParameterType) (Ht : t = TNumber ∨ t = TFloat) :
  (validateParameterValue k v t = Normal ↔ isNaN (Number v) = false)
  ∧ (validateParameterValue k v t = Normal →
     trim v ≠ "" → nonDecimalRadix (trim v) = None →
     coerce t v = Some (VNumber (Number v)))
  ∧ (validateParameterValue k " " t = Normal ∧ coerce t " " = Some (VNumber NaN))
  ∧ (validateParameterValue k "0x10" t = Normal
     ∧ Number "0x10" = ofZ 16 ∧ coerce t "0x10" = Some (VNumber (ofZ 0))).
Proof.
  assert (Hcheck : ∀ s, validateParameterValue k s t = Normal ↔ isNaN (Number s) = false).
  { intros s. destruct Ht as [-> | ->]; simpl; destruct (isNaN (Number s)); naive_solver. }
  assert (Hcoerce : ∀ s, coerce t s = Some (VNumber (parseFloat s))).
  { intros s. by destruct Ht as [-> | ->]. }
  split; [apply Hcheck|]. split.
  { intros Hv%Hcheck Hblank Hradix. rewrite Hcoerce.
    by rewrite DecimalFacts.parseFloat_Number. }
  rewrite !Hcheck, !Hcoerce. by vm_compute.
Qed.

Lemma number_entries_witness :
  validateParameterValue "rate" " 2.5e1 " TFloat = Normal
  ∧ coerce TFloat " 2.5e1 " = Some (VNumber (Number " 2.5e1 ")).
Proof.
  assert (Hcheck : validateParameterValue "rate" " 2.5e1 " TFloat = Normal)
    by (vm_compute; reflexivity).
  split; [exact Hcheck|].
  refine (proj1 (proj2 (number_entries "rate" " 2.5e1 " TFloat (or_intror eq_refl)))
            Hcheck _ _).
  - vm_compute. discriminate.
  - vm_compute. reflexivity.
Defined.

(** Every message [validateParameterValue] throws is a non-empty string. *)
Lemma thrown_truthy (k v message : string) (t : ParameterType) :
  validateParameterValue k v t = Throw message → truthy message = true.
Proof.
  destruct t; simpl; unfold tryCatch; repeat case_match; by intros [= <-].
Qed.

Lemma assignString_lookup (o : gmap string string) (k v k' m : string) :
  assignString o k v !! k' = Some m → m = v ∨ o !! k' = Some m.
Proof.
  destruct (decide (k' = k)) as [->|Hne]; [|rewrite assignString_ne by done; auto].
  unfold assignString. destruct (o !! k) eqn:Hk;
    [|destruct (String.eqb k "__proto__"); [rewrite Hk; auto|]];
    rewrite lookup_insert_eq; intros [= <-]; auto.
Qed.

Lemma errors_truthy (values : gmap string string) (ps : list PipelineParameter)
    (run : Validation) :
  (∀ k m, newErrors run !! k = Some m → truthy m = true) →
  ∀ k m, newErrors (foldl (validateParameter values) run ps) !! k = Some m →
         truthy m = true.
Proof.
  revert run. induction ps as [|p ps IH]; intros run Hrun; [done|].
  cbn [foldl]. apply IH. intros k m. rewrite validateParameter_errors.
  destruct (entryError values p) as [message|] eqn:Herror; [|apply Hrun].
  intros [-> | Hm]%assignString_lookup; [|by eapply Hrun].
  unfold entryError in Herror.
  destruct (readProperty values (key p)) as [[|c v]| |];
    try (by injection Herror as <-);
    destruct (validateParameterValue _ _ _) eqn:Hcheck; try done;
    injection Herror as <-; by eapply thrown_truthy.
Qed.

Lemma errors_lookup (values : gmap string string) (ps : list PipelineParameter)
    (run : Validation) (param : PipelineParameter) :
  NoDup (key <$> ps) → param ∈ ps → key param ≠ "__proto__" →
  newErrors (foldl (validateParameter values) run ps) !! key param
  = match entryError values param with
    | Some message => Some message
    | None => newErrors run !! key param
    end.
Proof.
  revert run. induction ps as [|p ps IH]; intros run Hnd Hparam Hproto.
  { by apply elem_of_nil in Hparam. }
  rewrite fmap_cons in Hnd. apply NoDup_cons in Hnd as [Hp Hnd].
  cbn [foldl]. apply elem_of_cons in Hparam as [-> | Hparam].
  - rewrite errors_frame by done. rewrite validateParameter_errors.
    destruct (entryError values p); [by apply assignString_eq | done].
  - rewrite IH by done. destruct (entryError values param); [done|].
    assert (Hne : key param ≠ key p).
    { intros Heq. apply Hp. rewrite <-Heq. apply list_elem_of_fmap. eauto. }
    rewrite validateParameter_errors.
    destruct (entryError values p); [by apply assignString_ne | done].
Qed.

(** The message of the check of a member of [Object.prototype]. *)
Definition memberError (t : ParameterType) : option string :=
  match t with
  | TInt => Some "Valor deve ser um número inteiro"
  | TNumber | TFloat => Some "Valor deve ser um número"
  | TList => Some "Valor deve ser um array JSON válido"
  | TDict => Some "Valor deve ser um objeto JSON válido"
  | TString => None
  end.

Lemma entryError_inherited values param :
  values !! key param = None → key param ∈ objectPrototypeNames →
  entryError values param = memberError (type param).
Proof.
  intros Hnone Hname. unfold entryError.
  rewrite (proj2 (readProperty_inherited values (key param)) (conj Hnone Hname)).
  rewrite member_check by done. by destruct (type param).
Qed.

(** X9.  The errors [validateValues] leaves for a pipeline whose keys are
    all different, by what [values[param.key]] reads.  An entry that is the
    empty string, or that was never typed under a key that
    [Object.prototype] does not have, has the mandatory-value error.  A
    non-empty entry has the message its check throws, or none.  Under a
    name of [Object.prototype] an entry never typed reads the member of
    that name: the mandatory-value test passes it to the check of the type,
    which throws its own message for every type but [string], and a
    [string] parameter is left without an error.  No error is ever recorded
    under [__proto__], and none under a key that is not a parameter of the
    pipeline, whatever the values hold under it. *)
Theorem validation_errors (pipeline : Pipeline) (values : gmap string string)
    (Hkeys : NoDup (key <$> parameters pipeline)) :
  let errors := newErrors (validateValues pipeline values) in
  (∀ param, param ∈ parameters pipeline → key param ≠ "__proto__" →
     (errors !! key param = None ↔
        (∃ v, values !! key param = Some v ∧ v ≠ ""
              ∧ validateParameterValue (key param) v (type param) = Normal)
        ∨ (values !! key param = None ∧ key param ∈ objectPrototypeNames
           ∧ type param = TString))
     ∧ (∀ v message, values !! key param = Some v → v ≠ "" →
          validateParameterValue (key param) v (type param) = Throw message →
          errors !! key param = Some message)
     ∧ (values !! key param = Some ""
        ∨ (values !! key param = None ∧ key param ∉ objectPrototypeNames) →
        errors !! key param = Some mandatory)
     ∧ (values !! key param = None → key param ∈ objectPrototypeNames →
        errors !! key param = memberError (type param)))
  ∧ errors !! "__proto__" = None
  ∧ (∀ k, k ∉ key <$> parameters pipeline → errors !! k = None).
Proof.
  intros errors. subst errors. unfold validateValues. split; [|split].
  - intros param Hparam Hproto.
    rewrite (errors_lookup _ _ _ _ Hkeys Hparam Hproto). cbn [newErrors].
    rewrite lookup_empty.
    assert (Herror : ∀ o, match entryError values param with
                          | Some message => Some message
                          | None => None
                          end = o ↔ entryError values param = o).
    { intros o. by destruct (entryError values param). }
    rewrite !Herror. clear Herror. split; [|split; [|split]].
    + split.
      * intros [(v & Hv & Hne & Hcheck) | (Hi & Ht)]%entryError_None.
        -- left. by exists v.
        -- right. apply readProperty_inherited in Hi as [? ?]. done.
      * intros [(v & Hv & Hne & Hcheck) | (Hnone & Hname & Ht)].
        -- unfold entryError. rewrite (proj2 (readProperty_own values _ v) Hv).
           rewrite Hcheck. by destruct v.
        -- rewrite entryError_inherited by done. by rewrite Ht.
    + intros v message Hv Hne Hcheck. unfold entryError.
      rewrite (proj2 (readProperty_own values _ v) Hv). rewrite Hcheck. by destruct v.
    + intros Hmiss. apply missing_error. unfold missing.
      destruct Hmiss as [Hv | Hv]; [right; by apply readProperty_own|].
      left. by apply readProperty_undefined.
    + apply entryError_inherited.
  - by apply errors_proto.
  - intros k Hk. by rewrite errors_frame.
Qed.

Lemma validation_errors_witness :
  newErrors (validateValues formPipeline {["rows" := "12"; "tags" := "{}"; "old" := ""]})
    !! "old" = None.
Proof.
  refine (proj2 (proj2 (validation_errors formPipeline
                   {["rows" := "12"; "tags" := "{}"; "old" := ""]} _)) "old" _).
  - simpl. repeat constructor; set_solver.
  - simpl. set_solver.
Defined.

(** X10.  Typing in a field after a click that showed errors: the entry of
    that field is replaced and its error is removed, whatever was typed;
    the entries and the errors of the other fields stay.  The new entry is
    not validated before the next click. *)
Theorem typing_clears_error (pipeline : Pipeline) (s : Fields)
    (k v : string) (t : ParameterType) :
  let shown := clicked pipeline s in
  let typed := handleValueChange k v t shown in
  values typed = <[k := v]> (values s)
  ∧ errors typed = delete k (errors shown)
  ∧ errors typed !! k = None
  ∧ (∀ k', k' ≠ k → errors typed !! k' = errors shown !! k'
                    ∧ values typed !! k' = values s !! k').
Proof.
  intros shown typed.
  assert (Hempty : ∀ k' m, (∅ : gmap string string) !! k' = Some m → truthy m = true)
    by (intros k' m; by rewrite lookup_empty).
  assert (Herrors : errors typed = delete k (errors shown)).
  { subst typed. unfold handleValueChange, hasError, readProperty. cbn [errors].
    destruct (errors shown !! k) as [m|] eqn:Hm.
    - subst shown. unfold clicked, setErrors in Hm. cbn [errors] in Hm.
      unfold validateValues in Hm.
      rewrite (errors_truthy _ _ {| newErrors := ∅; checks := [] |} Hempty _ _ Hm). done.
    - rewrite delete_id by done. by case_bool_decide. }
  split; [done|]. split; [done|]. rewrite Herrors. split; [apply lookup_delete_eq|].
  intros k' Hk'. split.
  - by rewrite lookup_delete_ne.
  - subst typed. cbn [values handleValueChange]. by rewrite lookup_insert_ne.
Qed.

(** X11.  The placeholder shown in each field is an entry that the check of
    the field's type accepts, and has a value to be submitted with; the
    fields of the three numeric types are number inputs and the others
    text.  *)
Theorem placeholders_accepted (k : string) (t : ParameterType) :
  validateParameterValue k (getPlaceholderForType t) t = Normal
  ∧ is_Some (coerce t (getPlaceholderForType t))
  ∧ (getInputTypeForParameterType t = "number" ↔ t = TInt ∨ t = TNumber ∨ t = TFloat)
  ∧ (getInputTypeForParameterType t = "text" ↔ t = TString ∨ t = TList ∨ t = TDict).
Proof.
  assert (Hcheck : validateParameterValue k (getPlaceholderForType t) t = Normal)
    by (destruct t; vm_compute; reflexivity).
  split; [done|]. split; [by eapply coerce_validated|].
  clear Hcheck. destruct t; simpl; (split; split);
    first [ done | by intros [|[|]] | by (intros _; auto) ].
Qed.

(** *** The execute page *)

Import ExecutePipeline.



End ExecutionFormOutcomes.

(** ** Filters and pages of the execution list *)

Module PagingFacts.
Import JS ExecutionTypes ExecutionClient ExecutionClientFacts Monitor MonitorView.
Local Open Scope Z_scope.

Lemma prefix_append (p s : string) : String.prefix p s = true ↔ ∃ r, s = p +:+ r.
Proof.
  revert s. induction p as [|a p IH]; intros s.
  - split; [by exists s | by destruct s].
  - destruct s as [|b s]; [split; [done | by intros [? ?]]|].
    cbn [String.prefix]. destruct (Ascii.ascii_dec a b) as [->|Hne].
    + rewrite IH. split; intros [r Hr]; exists r.
      * by rewrite Hr.
      * by injection Hr.
    + split; [done|]. intros [r Hr]. by injection Hr.
Qed.

(** [s.includes(sub)]: [sub] occurs in [s]. *)
Lemma includes_occurs (s sub : string) :
  includes s sub = true ↔ ∃ before after, s = before +:+ sub +:+ after.
Proof.
  induction s as [|c s IH].
  - cbn [includes]. rewrite orb_false_r, prefix_append. split.
    + intros [r Hr]. by exists "", r.
    + intros ([|? ?] & after & H); [by exists after | done].
  - cbn [includes]. rewrite orb_true_iff, prefix_append, IH. split.
    + intros [[r Hr] | (before & after & Hs)].
      * by exists "", r.
      * exists (String c before), after. by rewrite Hs.
    + intros ([|b before] & after & Hs).
      * left. by exists after.
      * right. injection Hs as _ Hs. by exists before, after.
Qed.

Section Filters.
Variable toLowerCase : string → string.
Variable endOfDay : Z → Z.

(** What the filters ask of an execution.  A search text that is empty, the
    status [ALL] and an undefined field ask nothing. *)
Definition passes (filters : ExecutionFilter) (e : Execution) : Prop :=
  match search filters with
  | Some text => text ≠ "" → matchesSearch toLowerCase (toLowerCase text) e = true
  | None => True
  end
  ∧ match statusFilter filters with
    | Some (Only s) => status e = s
    | _ => True
    end
  ∧ match dateFrom filters with
    | Some from => from <= createdAt e
    | None => True
    end
  ∧ match dateTo filters with
    | Some to => createdAt e <= endOfDay to
    | None => True
    end.

#[global] Instance passes_dec filters e : Decision (passes filters e).
Proof. unfold passes. repeat case_match; apply _. Defined.

Lemma filter_all {A} (P : A → Prop) `{!∀ x, Decision (P x)} (l : list A) :
  (∀ x, P x) → filter P l = l.
Proof.
  intros HP. induction l as [|x l IH]; [done|]. by rewrite filter_cons_True, IH.
Qed.

(** The four filters one after the other keep what a single pass with all
    the conditions keeps. *)
Lemma applyFilters_filter (filters : ExecutionFilter) (l : list Execution) :
  applyFilters toLowerCase endOfDay filters l = filter (passes filters) l.
Proof.
  unfold applyFilters.
  destruct filters as [[[|c text]|] [[|s]|] [from|] [to|]];
    cbn [search statusFilter dateFrom dateTo truthy];
    rewrite ?list_filter_filter;
    first [ by symmetry; apply filter_all; unfold passes; simpl; intuition done
          | apply list_filter_iff; unfold passes; simpl; intuition done ].
Qed.

End Filters.

(** *** Pages *)

Section Pages.
Context {A : Type}.

(** The page [page] of [l], pages counted from 1. *)
Definition pageOf (l : list A) (pageSize page : Z) : list A :=
  slice l ((page - 1) * pageSize) ((page - 1) * pageSize + pageSize).

Lemma pageOf_take (l : list A) (pageSize page : Z) :
  1 <= page → 0 <= pageSize →
  pageOf l pageSize page
  = take (Z.to_nat pageSize) (drop (Z.to_nat (page - 1) * Z.to_nat pageSize) l).
Proof.
  intros Hpage Hsize. unfold pageOf. rewrite slice_page by done.
  do 2 f_equal. rewrite Z2Nat.inj_mul by lia. done.
Qed.

Lemma ceilDiv_bounds (a b : Z) :
  0 < b → (ceilDiv a b - 1) * b < a <= ceilDiv a b * b.
Proof.
  intros Hb. unfold ceilDiv.
  pose proof (Z.div_mod (- a) b ltac:(lia)). pose proof (Z.mod_pos_bound (- a) b Hb). nia.
Qed.

Lemma pageOf_length (l : list A) (pageSize page : Z) :
  0 < pageSize → 1 <= page →
  Z.of_nat (length (pageOf l pageSize page))
  = Z.max 0 (Z.min pageSize (Z.of_nat (length l) - (page - 1) * pageSize)).
Proof.
  intros Hsize Hpage. rewrite pageOf_take by lia.
  rewrite length_take, length_drop. nia.
Qed.

(** The first [n] pages, one after the other, are the first [n * pageSize]
    elements. *)
Lemma pages_concat (l : list A) (pageSize : Z) (n : nat) :
  0 < pageSize →
  concat ((λ i : nat, pageOf l pageSize (Z.of_nat (S i))) <$> seq 0 n)
  = take (n * Z.to_nat pageSize) l.
Proof.
  intros Hsize. induction n as [|n IH]; [done|].
  rewrite seq_S, fmap_app, concat_app, IH. simpl. rewrite app_nil_r.
  rewrite pageOf_take by lia.
  replace (Z.to_nat (Z.of_nat (S n) - 1)) with n by lia.
  rewrite take_take_drop. f_equal. lia.
Qed.

End Pages.

(** X13.  The executions [fetchExecutions] and [getMockExecutions] keep are
    those of the source, in their order, that pass every filter in use: the
    search text, when it is not empty, occurs in the lower-cased request id,
    pipeline name or version; the status, unless it is [ALL], is the status
    of the execution; the creation date is not before [dateFrom] and not
    after the end of the day of [dateTo].  The total reported is their
    number, and the initial filters of the monitor keep everything. *)
Theorem filters_keep (toLowerCase : string → string) (endOfDay : Z → Z)
    (newDate : string → Z) (filters : ExecutionFilter) :
  (∀ l, applyFilters toLowerCase endOfDay filters l
        = filter (passes toLowerCase endOfDay filters) l)
  ∧ (∀ l e, e ∈ applyFilters toLowerCase endOfDay filters l
            ↔ e ∈ l ∧ passes toLowerCase endOfDay filters e)
  ∧ (∀ data page pageSize,
       (fetchExecutions toLowerCase endOfDay newDate data filters page pageSize).2
       = Z.of_nat (length (filter (passes toLowerCase endOfDay filters)
                             (mapTaskToExecution newDate <$> data))))
  ∧ (∀ mockExecutions page pageSize,
       (getMockExecutions toLowerCase endOfDay mockExecutions filters page pageSize).2
       = Z.of_nat (length (filter (passes toLowerCase endOfDay filters) mockExecutions)))
  ∧ (∀ l, applyFilters toLowerCase endOfDay (Monitor.filters initialState) l = l)
  ∧ (∀ text e, matchesSearch toLowerCase text e = true ↔
       ∃ field before after,
         field ∈ [requestId e; pipelineName e; version e]
         ∧ toLowerCase field = before +:+ text +:+ after).
Proof.
  split; [apply applyFilters_filter|]. split.
  { intros l e. rewrite applyFilters_filter, list_elem_of_filter. tauto. }
  split.
  { intros data page pageSize. unfold fetchExecutions, fetchedExecutions. cbn [snd].
    by rewrite (Permutation_length (SortFacts.sort_perm _ _)), applyFilters_filter. }
  split.
  { intros mockExecutions page pageSize. unfold getMockExecutions, sortedMockExecutions.
    cbn [snd].
    by rewrite (Permutation_length (SortFacts.sort_perm _ _)), applyFilters_filter. }
  split; [done|].
  intros text e. unfold matchesSearch. rewrite !orb_true_iff, !includes_occurs. split.
  - intros [[(b & a & H) | (b & a & H)] | (b & a & H)];
      [exists (requestId e) | exists (pipelineName e) | exists (version e)];
      exists b, a; (split; [set_solver | done]).
  - intros (field & b & a & Hfield & H).
    rewrite !elem_of_cons in Hfield. destruct Hfield as [-> | [-> | [-> | Hnil]]].
    + left. left. eauto.
    + left. right. eauto.
    + right. eauto.
    + by apply elem_of_nil in Hnil.
Qed.

(** X14.  The pages of [fetchExecutions] tile the list of the executions
    that pass the filters: with a positive page size the total is the same
    on every page, page [p] has [min(pageSize, total - (p - 1) * pageSize)]
    executions, every page from 1 to [ceil(total / pageSize)] has at least
    one, every later page is empty, and the pages one after the other are
    the whole list. *)
Theorem pages_tile (toLowerCase : string → string) (endOfDay : Z → Z)
    (newDate : string → Z) (data : list RawTask) (filters : ExecutionFilter)
    (pageSize : Z) (Hsize : 0 < pageSize) :
  let shown := fetchedExecutions toLowerCase endOfDay newDate data filters in
  let total := Z.of_nat (length shown) in
  let fetch page := fetchExecutions toLowerCase endOfDay newDate data filters page pageSize in
  (∀ page, (fetch page).2 = total)
  ∧ (∀ page, 1 <= page →
       Z.of_nat (length (fetch page).1)
       = Z.max 0 (Z.min pageSize (total - (page - 1) * pageSize)))
  ∧ (∀ page, 1 <= page <= ceilDiv total pageSize → (fetch page).1 ≠ [])
  ∧ (∀ page, ceilDiv total pageSize < page → (fetch page).1 = [])
  ∧ concat ((λ i : nat, (fetch (Z.of_nat (S i))).1)
              <$> seq 0 (Z.to_nat (ceilDiv total pageSize)))
    = shown.
Proof.
  intros shown total fetch.
  assert (Hfetch : ∀ page, (fetch page).1 = pageOf shown pageSize page) by done.
  pose proof (ceilDiv_bounds total pageSize Hsize) as Hceil.
  assert (0 <= total) by (unfold total; lia).
  assert (0 <= ceilDiv total pageSize) by nia.
  split; [done|]. split.
  { intros page Hpage. rewrite Hfetch. by apply pageOf_length. }
  split.
  { intros page Hpage Hnil. pose proof (pageOf_length shown pageSize page Hsize) as Hlen.
    rewrite Hfetch in Hnil. rewrite Hnil in Hlen. simpl in Hlen. fold total in Hlen. nia. }
  split.
  { intros page Hpage. apply nil_length_inv, Nat2Z.inj.
    rewrite Hfetch, pageOf_length by lia. fold total. simpl. nia. }
  rewrite (pages_concat shown pageSize _ Hsize). apply take_ge.
  unfold total in *. nia.
Qed.

Lemma pages_tile_witness :
  (fetchExecutions toLowerCase endOfDayUTC ExecutionClientFacts.newDate response noFilter 2 1).2
  = 2.
Proof.
  refine (proj1 (pages_tile toLowerCase endOfDayUTC ExecutionClientFacts.newDate
                   response noFilter 1 _) 2).
  lia.
Defined.

(** X15.  After [loadExecutions] has loaded the current page and that page
    is one of the pages there are, the label [Mostrando a a b de c] counts
    the rows of the table: [1 <= a <= b <= c], [c] is the total and the
    table has [b - a + 1] rows. *)
Theorem paging_label (toLowerCase : string → string) (endOfDay : Z → Z)
    (newDate : string → Z) (data : list RawTask) (s : State)
    (Hsize : 0 < pageSize s) :
  let s' := loadExecutions toLowerCase endOfDay newDate data s in
  let a := (pagingLabel s').1.1 in
  let b := (pagingLabel s').1.2 in
  let c := (pagingLabel s').2 in
  1 <= currentPage s' <= totalPages s' →
  1 <= a <= b ∧ b <= c ∧ c = totalExecutions s'
  ∧ Z.of_nat (length (executions s')) = b - a + 1
  ∧ (pagingShown s' = true → nextEnabled s' = false → b = c).
Proof.
  intros s' a b c. subst a b c. unfold pagingLabel, pagingShown, nextEnabled, totalPages.
  subst s'. unfold loadExecutions, fetchExecutions. cbn [fst snd loaded currentPage pageSize
    totalExecutions executions].
  set (shown := fetchedExecutions toLowerCase endOfDay newDate data (filters s)).
  set (total := Z.of_nat (length shown)).
  intros Hpage. pose proof (ceilDiv_bounds total (pageSize s) Hsize) as Hceil.
  fold (pageOf shown (pageSize s) (currentPage s)).
  rewrite pageOf_length by lia. fold total.
  repeat split; nia.
Qed.

Lemma paging_label_witness :
  let s' := loadExecutions toLowerCase endOfDayUTC ExecutionClientFacts.newDate response
              initialState in
  Z.of_nat (length (executions s')) = (pagingLabel s').1.2 - (pagingLabel s').1.1 + 1.
Proof.
  refine (proj1 (proj2 (proj2 (proj2
    (paging_label toLowerCase endOfDayUTC ExecutionClientFacts.newDate response
       initialState _ _))))).
  - simpl. lia.
  - by vm_compute.
Defined.

(** X16.  A page number past the last page, which is what is left when the
    total shrinks: the page loaded is empty though the total may not be
    zero.  With more than one page there are, Next is enabled and brings
    the page back to the last one, while Previous only goes one page down;
    with at most one page neither button is shown, and the page stays out
    of range until a filter changes. *)
Theorem stale_page (toLowerCase : string → string) (endOfDay : Z → Z)
    (newDate : string → Z) (data : list RawTask) (s : State)
    (Hsize : 0 < pageSize s) :
  let s' := loadExecutions toLowerCase endOfDay newDate data s in
  1 <= currentPage s → totalPages s' < currentPage s' →
  executions s' = []
  ∧ currentPage s' = currentPage s
  ∧ (1 < totalPages s' →
       nextEnabled s' = true ∧ currentPage (nextPage s') = totalPages s'
       ∧ previousEnabled s' = true ∧ currentPage (previousPage s') = currentPage s' - 1)
  ∧ (totalPages s' <= 1 → pagingShown s' = false
       ∧ nextEnabled s' = false ∧ previousEnabled s' = false)
  ∧ ∀ change, currentPage (handleFilterChange change s') = 1.
Proof.
  intros s'. unfold pagingShown, nextEnabled, previousEnabled, nextPage, previousPage,
    setCurrentPage, totalPages.
  subst s'. unfold loadExecutions, fetchExecutions. cbn [fst snd loaded currentPage pageSize
    totalExecutions executions].
  set (shown := fetchedExecutions toLowerCase endOfDay newDate data (filters s)).
  set (total := Z.of_nat (length shown)).
  intros Hpage Hstale. pose proof (ceilDiv_bounds total (pageSize s) Hsize) as Hceil.
  fold (pageOf shown (pageSize s) (currentPage s)).
  split.
  { apply nil_length_inv, Nat2Z.inj. rewrite pageOf_length by lia. fold total. simpl. nia. }
  split; [done|]. split.
  { intros Hmany. apply Z.ltb_lt in Hmany as Hb. rewrite Hb. simpl.
    destruct (Z.eqb_spec (currentPage s) (ceilDiv total (pageSize s))); [lia|].
    destruct (Z.eqb_spec (currentPage s) 1); [lia|]. repeat split; lia. }
  split; [|done].
  intros Hfew. destruct (Z.ltb_spec 1 (ceilDiv total (pageSize s))); [lia|done].
Qed.

Lemma stale_page_witness :
  executions (loadExecutions toLowerCase endOfDayUTC ExecutionClientFacts.newDate response
                (setCurrentPage (λ _, 2) initialState)) = [].
Proof.
  refine (proj1 (stale_page toLowerCase endOfDayUTC ExecutionClientFacts.newDate response
                   (setCurrentPage (λ _, 2) initialState) _ _ _)).
  - simpl. lia.
  - simpl. lia.
  - by vm_compute.
Defined.

End PagingFacts.

(** ** The countdown and the other views of availability *)

Module CountdownFacts.
Import JS JSText ExecutionTypes Monitor MonitorFacts MonitorView CountdownTimer DateFacts.
Local Open Scope Z_scope.

(** A number written by [toString] starts with a digit. *)
Lemma digits_head (fuel : nat) (n : Z) (acc : string) :
  (0 < fuel)%nat →
  ∃ d r, 0 <= d <= 9 ∧ digits fuel n acc = String (asciiOfZ (48 + d)) r.
Proof.
  revert n acc. induction fuel as [|fuel IH]; intros n acc Hfuel; [lia|].
  cbn [digits]. pose proof (Z.mod_pos_bound n 10 ltac:(lia)).
  destruct (n <? 10); [exists (n mod 10); eexists; split; [lia | done]|].
  destruct fuel as [|fuel]; [exists (n mod 10); eexists; split; [lia | done]|].
  apply IH. lia.
Qed.

Lemma padStart_head (n : Z) :
  ∃ d r, 0 <= d <= 9 ∧ padStart 2 "0" (toString n) = String (asciiOfZ (48 + d)) r.
Proof.
  unfold padStart. destruct (2 - String.length (toString n))%nat as [|k] eqn:Hk.
  - simpl. apply digits_head. lia.
  - exists 0. eexists. split; [lia|]. simpl. done.
Qed.

(** Up to 99 the padded number is the two-digit form. *)
Lemma padStart_two (n : Z) : 0 <= n < 100 → padStart 2 "0" (toString n) = pad 2 n.
Proof.
  intros Hn.
  apply String.eqb_eq.
  apply (checkRange_spec (λ z, String.eqb (padStart 2 "0" (toString z)) (pad 2 z)) 100 0);
    [vm_compute; reflexivity | lia].
Qed.

(** Hours, minutes and seconds as the component computes them are the
    usual split of the whole seconds left. *)
Lemma time_split (d : Z) :
  0 <= d →
  d / (1000 * 60 * 60) = d / 1000 / 3600
  ∧ d mod (1000 * 60 * 60) / (1000 * 60) = d / 1000 / 60 mod 60
  ∧ d mod (1000 * 60) / 1000 = d / 1000 mod 60.
Proof.
  intros Hd.
  pose proof (Z.div_mod d 1000 ltac:(lia)). pose proof (Z.mod_pos_bound d 1000 ltac:(lia)).
  pose proof (Z.div_mod (d / 1000) 60 ltac:(lia)).
  pose proof (Z.mod_pos_bound (d / 1000) 60 ltac:(lia)).
  pose proof (Z.div_mod (d / 1000 / 60) 60 ltac:(lia)).
  pose proof (Z.mod_pos_bound (d / 1000 / 60) 60 ltac:(lia)).
  set (q := d / 1000) in *. set (m := q / 60) in *. set (h := m / 60) in *.
  assert (Hh : d / (1000 * 60 * 60) = h).
  { symmetry. apply (Z.div_unique_pos _ _ _ (d - 3600000 * h)); lia. }
  assert (Hr : d mod (1000 * 60 * 60) = d - 3600000 * h).
  { symmetry. apply (Z.mod_unique_pos _ _ h); lia. }
  assert (Hr2 : d mod (1000 * 60) = d - 60000 * m).
  { symmetry. apply (Z.mod_unique_pos _ _ m); lia. }
  split; [|split].
  - rewrite Hh. unfold h, m. rewrite Z.div_div by lia. done.
  - rewrite Hr. symmetry.
    apply (Z.div_unique_pos _ _ _ (d - 3600000 * h - 60000 * (m mod 60))); lia.
  - rewrite Hr2. symmetry.
    apply (Z.div_unique_pos _ _ _ (d - 60000 * m - 1000 * (q mod 60))); lia.
Qed.

(** X17.  While time is left the countdown reads the whole seconds left as
    hours, minutes and seconds: minutes and seconds on two digits and below
    60, the hours on two digits up to 99 and on as many as they need above;
    the expired flag is not touched. *)
Theorem countdown_reading (expiryDate now : Z) (s : Timer) (Hleft : now < expiryDate) :
  let seconds := (expiryDate - now) / 1000 in
  let h := seconds / 3600 in
  let m := seconds / 60 mod 60 in
  let sec := seconds mod 60 in
  h * 3600 + m * 60 + sec = seconds
  ∧ 0 <= h ∧ 0 <= m < 60 ∧ 0 <= sec < 60
  ∧ timeLeft (calculateTimeLeft expiryDate now s)
    = padStart 2 "0" (toString h) +:+ ":" +:+ pad 2 m +:+ ":" +:+ pad 2 sec
  ∧ (h < 100 →
     timeLeft (calculateTimeLeft expiryDate now s)
     = pad 2 h +:+ ":" +:+ pad 2 m +:+ ":" +:+ pad 2 sec)
  ∧ isExpired (calculateTimeLeft expiryDate now s) = isExpired s.
Proof.
  intros seconds h m sec.
  assert (0 <= seconds) by (apply Z.div_pos; lia).
  pose proof (Z.div_mod seconds 60 ltac:(lia)).
  pose proof (Z.mod_pos_bound seconds 60 ltac:(lia)).
  pose proof (Z.div_mod (seconds / 60) 60 ltac:(lia)).
  pose proof (Z.mod_pos_bound (seconds / 60) 60 ltac:(lia)).
  assert (Hh : h = seconds / 60 / 60) by (unfold h; rewrite Z.div_div by lia; done).
  assert (0 <= h) by (unfold h; apply Z.div_pos; lia).
  assert (Htext : timeLeft (calculateTimeLeft expiryDate now s)
                  = padStart 2 "0" (toString h) +:+ ":" +:+ pad 2 m +:+ ":" +:+ pad 2 sec).
  { unfold calculateTimeLeft. destruct (Z.leb_spec (expiryDate - now) 0); [lia|].
    cbn [timeLeft]. destruct (time_split (expiryDate - now)) as (-> & -> & ->); [lia|].
    fold seconds. fold h m sec.
    by rewrite (padStart_two m), (padStart_two sec) by (unfold m, sec; lia). }
  split; [unfold m, sec; lia|]. split; [done|].
  split; [unfold m; lia|]. split; [unfold sec; lia|]. split; [done|]. split.
  - intros Hsmall. rewrite Htext. by rewrite padStart_two by lia.
  - unfold calculateTimeLeft. by destruct (Z.leb_spec (expiryDate - now) 0); [lia|].
Qed.

Lemma countdown_reading_witness :
  timeLeft (calculateTimeLeft (hours 3) (minutes 1 + 1000) initialTimer)
  = pad 2 2 +:+ ":" +:+ pad 2 58 +:+ ":" +:+ pad 2 59.
Proof.
  refine (proj1 (proj2 (proj2 (proj2 (proj2 (proj2
    (countdown_reading (hours 3) (minutes 1 + 1000) initialTimer _)))))) _).
  - by vm_compute.
  - by vm_compute.
Defined.

(** X18.  The row and its countdown read two clocks: the row calls
    [Date.now()] when it is rendered, the countdown calls [new Date()] at
    each of its ticks, every second from then on.  When the row, rendered
    at [rendered], shows the countdown, the expiry date it passes is three
    hours after the finish and is not before [rendered]; the download
    button of the task is enabled whenever it is rendered up to the expiry
    date, and disabled after.  At a tick the countdown reads [Expirado]
    exactly from the expiry date on, and sets its expired flag then.  So at
    the expiry date itself the countdown reads [Expirado] while the
    download is still available, and after it the countdown of a row that
    has not been rendered again reads [Expirado] next to a button still
    enabled.  At a tick not before the finish at most three hours are
    shown. *)
Theorem countdown_last_instant (rendered tick expiryDate : Z) (e : Execution) (s : Timer)
    (Hcell : availabilityCell rendered e = Countdown expiryDate) :
  finishedAt e = Some (expiryDate - hours 3)
  ∧ rendered <= expiryDate
  ∧ (∀ clock, downloadDisabled clock e = false ↔ clock <= expiryDate)
  ∧ (timeLeft (calculateTimeLeft expiryDate tick s) = "Expirado" ↔ expiryDate <= tick)
  ∧ (isExpired (calculateTimeLeft expiryDate tick s) = true
     ↔ expiryDate <= tick ∨ isExpired s = true)
  ∧ (timeLeft (calculateTimeLeft expiryDate tick s) = "Expirado"
     ∧ isDownloadAvailable tick e = true ↔ tick = expiryDate)
  ∧ (expiryDate < tick →
     timeLeft (calculateTimeLeft expiryDate tick s) = "Expirado"
     ∧ downloadDisabled rendered e = false ∧ downloadDisabled tick e = true)
  ∧ (expiryDate - hours 3 <= tick → (expiryDate - tick) / 1000 / 3600 <= 3).
Proof.
  unfold availabilityCell in Hcell.
  destruct (finishedAt e) as [finished|] eqn:Hfinished; [|done].
  case_bool_decide as Hstatus; [|done].
  destruct (isDownloadAvailable rendered e) eqn:Havailable; [|done].
  injection Hcell as <-. unfold getExpiryDate.
  apply isDownloadAvailable_true in Havailable as (_ & f & Hf & Hwindow).
  rewrite Hfinished in Hf. injection Hf as <-.
  assert (Hbutton : ∀ clock, isDownloadAvailable clock e = true
                             ↔ clock <= finished + 3 * 60 * 60 * 1000).
  { intros clock. rewrite isDownloadAvailable_true. unfold hours. split.
    - intros (_ & f & Hf & Hw). rewrite Hfinished in Hf. injection Hf as <-. lia.
    - intros Hw. split; [done|]. exists finished. split; [done | lia]. }
  assert (Hdisabled : ∀ clock, downloadDisabled clock e = false
                               ↔ clock <= finished + 3 * 60 * 60 * 1000).
  { intros clock. unfold downloadDisabled. rewrite <-Hbutton.
    by destruct (isDownloadAvailable clock e). }
  assert (Htext : timeLeft (calculateTimeLeft (finished + 3 * 60 * 60 * 1000) tick s)
                  = "Expirado" ↔ finished + 3 * 60 * 60 * 1000 <= tick).
  { unfold calculateTimeLeft.
    destruct (Z.leb_spec (finished + 3 * 60 * 60 * 1000 - tick) 0) as [Hle | Hgt];
      cbn [timeLeft]; [split; [lia | done]|].
    split; [|lia]. intros Htext.
    destruct (padStart_head ((finished + 3 * 60 * 60 * 1000 - tick) / (1000 * 60 * 60)))
      as (d & r & Hd & Hhead).
    rewrite Hhead, append_cons in Htext. injection Htext as Hc _.
    apply (f_equal code) in Hc. unfold code, asciiOfZ in Hc.
    rewrite N_ascii_embedding in Hc by lia.
    change (N_of_ascii "E") with 69%N in Hc. lia. }
  unfold hours in *.
  split; [f_equal; lia|]. split; [lia|]. split; [done|]. split; [done|].
  split; [|split; [|split]].
  - unfold calculateTimeLeft.
    destruct (Z.leb_spec (finished + 3 * 60 * 60 * 1000 - tick) 0) as [Hle | Hgt];
      cbn [isExpired].
    + split; [intros _; left; lia | done].
    + split; [by right | intros [?|?]; [lia | done]].
  - rewrite Htext, Hbutton. lia.
  - intros Hlate. rewrite Htext. split; [lia|]. split; [apply Hdisabled; lia|].
    apply not_false_iff_true. rewrite Hdisabled. lia.
  - intros Hpast. apply Z.div_le_upper_bound; [lia|]. apply Z.div_le_upper_bound; lia.
Qed.

Lemma countdown_last_instant_witness :
  timeLeft (calculateTimeLeft (hours 4) (hours 4 + 5000) initialTimer) = "Expirado"
  ∧ downloadDisabled (hours 4 - 1000) (succeededAt (hours 1)) = false
  ∧ downloadDisabled (hours 4 + 5000) (succeededAt (hours 1)) = true.
Proof.
  refine (proj1 (proj2 (proj2 (proj2 (proj2 (proj2 (proj2
    (countdown_last_instant (hours 4 - 1000) (hours 4 + 5000) (hours 4)
       (succeededAt (hours 1)) initialTimer eq_refl))))))) _).
  by vm_compute.
Defined.

(** X19.  The views of a row agree on availability: the cell shows the
    countdown, the tooltip reads [Baixar arquivo] and a click requests the
    file exactly when the download is available, which is when the button is
    enabled.  When the cell reads [Expirado] the tooltip reads [Arquivo
    expirado] and the row is muted.  The converse does not hold: the
    tooltip reads [Arquivo expirado] for every successful task that is not
    available, with or without a finish date, and the row is muted for
    every finished task that is not available, failed ones included. *)
Theorem availability_views (now : Z) (e : Execution) :
  (isDownloadAvailable now e = true ↔ downloadDisabled now e = false)
  ∧ (isDownloadAvailable now e = true ↔ ∃ expiryDate, availabilityCell now e = Countdown expiryDate)
  ∧ (isDownloadAvailable now e = true ↔ downloadTooltip now e = "Baixar arquivo")
  ∧ (isDownloadAvailable now e = true ↔ handleDownload now e = Some (requestId e))
  ∧ (availabilityCell now e = Expirado →
       downloadTooltip now e = "Arquivo expirado" ∧ MonitorView.isExpired now e = true
       ∧ handleDownload now e = None)
  ∧ (downloadTooltip now e = "Arquivo expirado"
     ↔ status e = SUCCESS ∧ isDownloadAvailable now e = false)
  ∧ (MonitorView.isExpired now e = true
     ↔ is_Some (finishedAt e) ∧ isDownloadAvailable now e = false)
  ∧ (availabilityCell now e = Expirado
     ↔ status e = SUCCESS ∧ is_Some (finishedAt e) ∧ isDownloadAvailable now e = false)
  ∧ (∀ later, now <= later → isDownloadAvailable later e = true →
       isDownloadAvailable now e = true).
Proof.
  assert (Hlater : ∀ later, now <= later → isDownloadAvailable later e = true →
                     isDownloadAvailable now e = true).
  { intros later Hle (Hs & finished & Hf & Hwindow)%isDownloadAvailable_true.
    apply isDownloadAvailable_true. split; [done|]. exists finished. split; [done | lia]. }
  revert Hlater.
  unfold downloadDisabled, availabilityCell, downloadTooltip, handleDownload,
    MonitorView.isExpired.
  pose proof (isDownloadAvailable_true now e) as Havailable.
  destruct (isDownloadAvailable now e) eqn:Hd.
  - destruct (proj1 Havailable eq_refl) as (Hs & finished & -> & _).
    rewrite bool_decide_eq_true_2 by done. simpl.
    repeat split; try done; eauto; try (by intros [? ?]); try (by intros (? & ? & ?)).
  - simpl. destruct (finishedAt e) as [finished|]; case_bool_decide; simpl;
      repeat split; try done; try (by intros [? ?]); try (by intros (? & ? & ?)); eauto.
    all: try (by intros [? [? ?]]).
Qed.

(** X20.  The outcomes of [downloadMockFile] for a request id: the
    execution it judges is the first of the list with that id; it succeeds,
    with no message, exactly when the monitor's rule makes that execution
    available; it reports that the execution was not found exactly when no
    execution has the id, and otherwise the first of these that applies:
    not successful, not finished, expired. *)
Theorem mock_download_outcomes (mockExecutions : list Execution) (now : Z) (id : string) :
  let result := ExecutionClient.downloadMockFile mockExecutions now id in
  (ExecutionClient.success result = true ↔ ExecutionClient.message result = None)
  ∧ (ExecutionClient.message result = Some "Execução não encontrada"
     ↔ ∀ e, e ∈ mockExecutions → requestId e ≠ id)
  ∧ (ExecutionClient.success result = true
     ↔ ∃ e, ExecutionClient.getMockExecutionById mockExecutions id = Some e
            ∧ isDownloadAvailable now e = true)
  ∧ ∀ e, ExecutionClient.getMockExecutionById mockExecutions id = Some e →
      (∃ before after, mockExecutions = before ++ e :: after
         ∧ requestId e = id ∧ ∀ x, x ∈ before → requestId x ≠ id)
      ∧ (status e ≠ SUCCESS →
           ExecutionClient.message result
           = Some "Arquivo disponível apenas para execuções bem-sucedidas")
      ∧ (status e = SUCCESS → finishedAt e = None →
           ExecutionClient.message result = Some "Execução não finalizada")
      ∧ (status e = SUCCESS → ∀ finished, finishedAt e = Some finished →
           hours 3 < now - finished →
           ExecutionClient.message result
           = Some "Arquivo expirado (disponível por até 3 horas após a conclusão)").
Proof.
  intros result.
  assert (Hfind : ∀ l, match List.find (λ exec, String.eqb (requestId exec) id) l with
            | Some e => ∃ before after, l = before ++ e :: after
                          ∧ requestId e = id ∧ ∀ x, x ∈ before → requestId x ≠ id
            | None => ∀ x, x ∈ l → requestId x ≠ id
            end).
  { induction l as [|x l IH]; simpl.
    - intros x Hx. by apply elem_of_nil in Hx.
    - destruct (String.eqb_spec (requestId x) id) as [Heq | Hne].
      + exists [], l. split; [done|]. split; [done|]. intros y Hy. by apply elem_of_nil in Hy.
      + destruct (find _ l) as [e|].
        * destruct IH as (before & after & -> & Hid & Hbefore).
          exists (x :: before), after. split; [done|]. split; [done|].
          intros y [-> | Hy]%elem_of_cons; [done | by apply Hbefore].
        * intros y [-> | Hy]%elem_of_cons; [done | by apply IH]. }
  specialize (Hfind mockExecutions). fold (ExecutionClient.getMockExecutionById mockExecutions id) in Hfind.
  destruct (ExecutionClient.getMockExecutionById mockExecutions id) as [e|] eqn:Hget.
  - destruct Hfind as (before & after & Hl & Hid & Hbefore).
    assert (Hin : e ∈ mockExecutions) by (rewrite Hl; set_solver).
    pose proof (downloadMockFile_agrees mockExecutions now id e Hget) as Hsuccess.
    fold result in Hsuccess.
    assert (Hmessage : ExecutionClient.message result
      = if negb (bool_decide (status e = SUCCESS)) then
          Some "Arquivo disponível apenas para execuções bem-sucedidas"
        else match finishedAt e with
             | None => Some "Execução não finalizada"
             | Some finished =>
                 if 3 * 60 * 60 * 1000 <? now - finished then
                   Some "Arquivo expirado (disponível por até 3 horas após a conclusão)"
                 else None
             end).
    { subst result. unfold ExecutionClient.downloadMockFile. rewrite Hget.
      by repeat case_match. }
    rewrite Hsuccess, Hmessage. unfold isDownloadAvailable, hours.
    split; [|split; [|split]].
    + destruct (finishedAt e) as [finished|]; case_bool_decide; simpl; try done.
      destruct (Z.ltb_spec (3 * 60 * 60 * 1000) (now - finished));
        destruct (Z.leb_spec (now - finished) (3 * 60 * 60 * 1000)); try lia; done.
    + split; [|intros Hnone; by destruct (Hnone e Hin)].
      by repeat case_match.
    + split; [eauto | by intros (? & [= <-] & ?)].
    + intros ? [= <-]. split; [eauto|]. split; [|split].
      * intros Hs. by rewrite bool_decide_eq_false_2.
      * intros Hs ->. by rewrite bool_decide_eq_true_2.
      * intros Hs finished -> Hlate. rewrite bool_decide_eq_true_2 by done. simpl.
        by destruct (Z.ltb_spec (3 * 60 * 60 * 1000) (now - finished)); [|lia].
  - subst result. unfold ExecutionClient.downloadMockFile. rewrite Hget. simpl.
    split; [done|]. split; [done|]. split; [split; [done | by intros (? & ? & ?)]|]. done.
Qed.

End CountdownFacts.

(** ** The catalog over sequences of operations and over sessions *)

Module CatalogFacts.
Import JS PipelineTypes PipelineStore StoreFacts CatalogSession.

Lemma mount_persists (storage : option StoredText) (mounted : Store) :
  mount storage = Some mounted →
  localStorage mounted = Some (stringify (pipelines mounted))
  ∧ last (writes mounted) = Some (stringify (pipelines mounted))
  ∧ (1 ≤ length (writes mounted) ≤ 2)%nat.
Proof.
  unfold mount. destruct (loadEffect storage); intros [= <-]; simpl; repeat split; lia.
Qed.

Lemma mount_None (storage : option StoredText) :
  mount storage = None ↔ loadEffect storage = Foreign.
Proof. unfold mount. by destruct (loadEffect storage). Qed.

Lemma perform_persists (s : Store) (op : Operation) :
  localStorage (perform s op) = Some (stringify (pipelines (perform s op)))
  ∧ writes (perform s op) = writes s ++ [stringify (pipelines (perform s op))].
Proof. destruct op; apply setPipelinesState_persists. Qed.

Lemma operations_persist (mounted : Store) (ops : list Operation) :
  localStorage mounted = Some (stringify (pipelines mounted)) →
  last (writes mounted) = Some (stringify (pipelines mounted)) →
  let s := foldl perform mounted ops in
  localStorage s = Some (stringify (pipelines s))
  ∧ last (writes s) = Some (stringify (pipelines s))
  ∧ length (writes s) = (length (writes mounted) + length ops)%nat.
Proof.
  intros Hstorage Hlast. cbv zeta.
  induction ops as [|op ops IH] using rev_ind; [simpl; repeat split; done || lia|].
  rewrite foldl_app. cbn [foldl].
  destruct (perform_persists (foldl perform mounted ops) op) as [Hs Hw].
  split; [done|]. rewrite Hw, last_snoc. split; [done|].
  rewrite !length_app. simpl. destruct IH as (_ & _ & ->). lia.
Qed.

Lemma session_persists (storage : option StoredText) (ops : list Operation) (s : Store) :
  session storage ops = Some s →
  localStorage s = Some (stringify (pipelines s)).
Proof.
  unfold session. destruct (mount storage) as [mounted|] eqn:Hmount; [|done].
  intros [= <-]. destruct (mount_persists _ _ Hmount) as (Hs & Hl & _).
  by apply operations_persist.
Qed.

(** X21.  At every point of a session the text under [pipelines] in
    [localStorage] is [JSON.stringify] of the catalog in memory, and it is
    the text written last: the provider writes when it is mounted, twice if
    it loaded a catalog, and once more after every operation.  There is a
    session over every storage but one that holds an array with an entry
    that is not a pipeline. *)
Theorem storage_in_sync (storage : option StoredText) (ops : list Operation) :
  match session storage ops, mount storage with
  | Some s, Some mounted =>
      localStorage s = Some (stringify (pipelines s))
      ∧ last (writes s) = Some (stringify (pipelines s))
      ∧ length (writes s) = (length (writes mounted) + length ops)%nat
      ∧ (1 ≤ length (writes mounted) ≤ 2)%nat
  | None, None => loadEffect storage = Foreign
  | _, _ => False
  end.
Proof.
  unfold session. destruct (mount storage) as [mounted|] eqn:Hmount; simpl.
  - destruct (mount_persists _ _ Hmount) as (Hs & Hl & Hn).
    destruct (operations_persist mounted ops Hs Hl) as (? & ? & ?). done.
  - by apply mount_None.
Qed.

(** *** Sessions one after the other *)

(** A value that has gone through JSON goes through it unchanged. *)
Lemma jsonCopy_twice (v : JSValue) : jsonCopy (jsonCopy v) = jsonCopy v.
Proof.
  revert v. fix jsonCopy_twice 1. intros v.
  destruct v as [| b | x | s | items | props].
  - reflexivity.
  - reflexivity.
  - destruct x; reflexivity.
  - reflexivity.
  - cbn [jsonCopy]. f_equal.
    induction items as [|i items IH]; [reflexivity|].
    cbn [map]. rewrite (jsonCopy_twice i), IH. reflexivity.
  - cbn [jsonCopy]. f_equal.
    induction props as [|[k x] props IH]; [reflexivity|].
    cbn [map]. rewrite (jsonCopy_twice x), IH. reflexivity.
Qed.

Lemma storedParameter_twice (param : PipelineParameter) :
  storedParameter (storedParameter param) = storedParameter param.
Proof. unfold storedParameter. simpl. by rewrite jsonCopy_twice. Qed.

(** The entry has a creation date that is a time. *)
Definition hasCreationTime (p : Pipeline) : Prop :=
  match dates p with
  | Mapped (TimeValue _) | Declared _ (Some (TimeValue _)) => True
  | _ => False
  end.

(** An entry with a creation time comes back from a second reload as it
    came back from the first. *)
Lemma storedPipeline_twice (p : Pipeline) :
  hasCreationTime p → storedPipeline (storedPipeline p) = storedPipeline p.
Proof.
  unfold hasCreationTime, storedPipeline. simpl. intros Htime. f_equal.
  - destruct (dates p) as [[|t] | c [[|t]|]]; try done. by destruct c as [[|t']| |].
  - rewrite <-list_fmap_compose.
    apply list_fmap_ext. intros _ param _. apply storedParameter_twice.
Qed.

(** Every entry comes back from a third reload as it came back from the
    second: the Invalid Date has become the epoch. *)
Lemma storedPipeline_thrice (p : Pipeline) :
  storedPipeline (storedPipeline (storedPipeline p)) = storedPipeline (storedPipeline p).
Proof.
  unfold storedPipeline. simpl. f_equal.
  - destruct (dates p) as [[|t] | c [[|t]|]]; try done; by destruct c as [[|t']| |].
  - rewrite <-!list_fmap_compose.
    apply list_fmap_ext. intros _ param _. simpl. by rewrite !storedParameter_twice.
Qed.

Lemma storedDates_valid (d : Dates) : validDates d → validDates (storedDates d).
Proof.
  assert (validTime 0) by (by vm_compute).
  destruct d as [[|t] | c [[|t]|]]; simpl; try done;
    (intros [_ ?]; split; [by destruct c as [[|t']| |] | done]).
Qed.

Lemma stored_datesValid (l : list Pipeline) :
  datesValid l → datesValid (storedPipeline <$> l).
Proof.
  intros Hvalid. apply Forall_fmap. eapply Forall_impl; [exact Hvalid|].
  intros p. apply storedDates_valid.
Qed.

Lemma filter_all_in {A} (P : A → Prop) `{!∀ x, Decision (P x)} (l : list A) :
  (∀ x, x ∈ l → P x) → filter P l = l.
Proof.
  induction l as [|x l IH]; intros HP; [done|].
  rewrite filter_cons_True by (apply HP; by left).
  f_equal. apply IH. intros y Hy. apply HP. by right.
Qed.

Lemma reload_pipelines (s : Store) :
  localStorage s = Some (stringify (pipelines s)) → datesValid (pipelines s) →
  ∃ later, reload s = Some later
    ∧ pipelines later = storedPipeline <$> pipelines s
    ∧ localStorage later = Some (stringify (pipelines later)).
Proof.
  intros Hsync Hdates. unfold reload. rewrite Hsync, mount_stringify by done.
  by eexists.
Qed.

(** X22.  A later session starts with the catalog the earlier one ended
    with, whatever operations that one performed, as JSON and the load
    effect carry it: pipeline for pipeline in the same order, with the same
    ids, names, descriptions and parameter keys and types, the parameter
    values as JSON carries them, and [createdAt] read back as a [Date].  A
    catalog of pipelines whose dates and values come back as they were is
    the same in the later session.  A session after that one finds the
    same catalog again when every entry has a creation date that is a time;
    an Invalid Date, written as [null], comes back from it as the epoch,
    and nothing changes from then on.  The time values of the dates are
    time values of Dates. *)
Theorem reload_restores (storage : option StoredText) (ops : list Operation) (s : Store)
    (Hsession : session storage ops = Some s)
    (Hdates : datesValid (pipelines s)) :
  ∃ later second third,
    reload s = Some later ∧ reload later = Some second ∧ reload second = Some third
    ∧ pipelines later = storedPipeline <$> pipelines s
    ∧ id <$> pipelines later = id <$> pipelines s
    ∧ (Forall persistable (pipelines s) → pipelines later = pipelines s)
    ∧ pipelines second = storedPipeline <$> pipelines later
    ∧ (Forall hasCreationTime (pipelines s) → pipelines second = pipelines later)
    ∧ pipelines third = pipelines second.
Proof.
  destruct (reload_pipelines s) as (later & Hlater & Hl & Hsl);
    [by eapply session_persists | done |].
  assert (Hdl : datesValid (pipelines later)) by (rewrite Hl; by apply stored_datesValid).
  destruct (reload_pipelines later Hsl Hdl) as (second & Hsecond & Hs2 & Hss).
  assert (Hds : datesValid (pipelines second)) by (rewrite Hs2; by apply stored_datesValid).
  destruct (reload_pipelines second Hss Hds) as (third & Hthird & Ht & _).
  exists later, second, third. split; [done|]. split; [done|]. split; [done|].
  split; [done|]. split; [|split; [|split; [done|split]]].
  - rewrite Hl, <-list_fmap_compose. by apply list_fmap_ext.
  - intros Hp. rewrite Hl. rewrite <-(list_fmap_id (pipelines s)) at 2.
    apply Forall_fmap_ext_1. eapply Forall_impl; [exact Hp|].
    intros p. apply storedPipeline_persistable.
  - intros Htimes. rewrite Hs2, Hl, <-list_fmap_compose.
    apply Forall_fmap_ext_1. eapply Forall_impl; [exact Htimes|].
    intros p. apply storedPipeline_twice.
  - rewrite Ht, Hs2, Hl, <-!list_fmap_compose. apply list_fmap_ext.
    intros _ p _. apply storedPipeline_thrice.
Qed.

Lemma reload_restores_witness :
  ∃ later,
    reload (addPipeline (examplePipeline "a" "extract" (VNumber NaN)) (firstCommit None))
    = Some later
    ∧ pipelines later = [examplePipeline "a" "extract" VNull].
Proof.
  destruct (reload_restores None [Add (examplePipeline "a" "extract" (VNumber NaN))]
              (addPipeline (examplePipeline "a" "extract" (VNumber NaN)) (firstCommit None))
              eq_refl)
    as (later & _ & _ & Hlater & _ & _ & Hl & _).
  - repeat constructor; vm_compute; discriminate.
  - exists later. split; [exact Hlater | exact Hl].
Defined.

(** X23.  Mounting the provider over a storage with no snapshot, with a
    text that is not JSON or with JSON that is not an array: the catalog
    starts empty, and the saving effect replaces what was stored by the
    empty catalog.  Over a snapshot of a catalog the same effect writes the
    empty catalog first and the loaded catalog after it. *)
Theorem unreadable_snapshot (storage : option StoredText) :
  (storage = None ∨ storage = Some Unparsable
   ∨ (∃ v, storage = Some (TextOf v) ∧ isArray v = false) →
   mount storage
   = Some {| pipelines := []; localStorage := Some (stringify []);
             writes := [stringify []] |})
  ∧ (∀ l, storage = Some (stringify l) → datesValid l →
       mount storage
       = Some {| pipelines := storedPipeline <$> l;
                 localStorage := Some (stringify (storedPipeline <$> l));
                 writes := [stringify []; stringify (storedPipeline <$> l)] |}).
Proof.
  split.
  - intros [-> | [-> | (v & -> & Hv)]]; try done. by destruct v.
  - intros l -> Hdates. by rewrite mount_stringify.
Qed.

(** *** Identifiers *)

Definition ids (s : Store) : list string := id <$> pipelines s.

Lemma updatePipeline_ids (p : Pipeline) (s : Store) : ids (updatePipeline p s) = ids s.
Proof.
  unfold ids, updatePipeline. simpl. rewrite <-list_fmap_compose.
  apply list_fmap_ext. intros _ q _. simpl. by destruct (decide _) as [->|].
Qed.

Lemma deletePipeline_ids (i : string) (s : Store) :
  ids (deletePipeline i s) = filter (λ j, j ≠ i) (ids s).
Proof.
  unfold ids, deletePipeline. simpl.
  induction (pipelines s) as [|q l IH]; [done|].
  rewrite fmap_cons, (filter_cons (λ j, j ≠ i)), (filter_cons (λ q, id q ≠ i)).
  destruct (decide (id q ≠ i)); by rewrite ?fmap_cons, IH.
Qed.

(** A catalog with one entry per id has one position for each. *)
Lemma unique_position (l : list Pipeline) (k : nat) (p : Pipeline) :
  NoDup (id <$> l) → l !! k = Some p →
  ∀ j q, l !! j = Some q → id q = id p → j = k.
Proof.
  intros Hnd Hk j q Hj Hid.
  apply (NoDup_lookup _ _ _ (id p) Hnd); by rewrite list_lookup_fmap, ?Hj, ?Hk; simpl; f_equal.
Qed.

(** In a catalog with one entry per id, an update replaces the entry at
    the position of the id and a delete takes it out. *)
Lemma unique_replace (s : Store) (p q : Pipeline) (k : nat) :
  NoDup (ids s) → pipelines s !! k = Some q → id q = id p →
  pipelines (updatePipeline p s) = <[k := p]> (pipelines s)
  ∧ pipelines (deletePipeline (id p) s) = delete k (pipelines s).
Proof.
  intros Hunique Hk Hid.
  assert (Hother : ∀ j r, pipelines s !! j = Some r → j ≠ k → id r ≠ id p).
  { intros j r Hj Hne Hr. apply Hne.
    apply (unique_position _ _ _ Hunique Hk j r Hj). congruence. }
  split.
  - unfold updatePipeline. simpl. apply list_eq. intros j.
    rewrite list_lookup_fmap. destruct (decide (j = k)) as [->|Hne].
    + rewrite list_lookup_insert_eq by (by eapply lookup_lt_Some).
      rewrite Hk. simpl. by rewrite decide_True.
    + rewrite list_lookup_insert_ne by done.
      destruct (pipelines s !! j) as [r|] eqn:Hj; [|done]. simpl.
      by rewrite decide_False by (by eapply Hother).
  - unfold deletePipeline. simpl. unfold ids in Hunique.
    revert k Hk Hother. clear Hunique.
    induction (pipelines s) as [|r l IH]; intros k Hk Hother; [done|].
    destruct k as [|k].
    + injection Hk as ->. rewrite filter_cons_False by (intros Hne; by apply Hne).
      simpl. apply filter_all_in. intros r Hr.
      apply list_elem_of_lookup in Hr as [j Hj]. by apply (Hother (S j) r).
    + rewrite filter_cons_True by (by apply (Hother 0%nat r)).
      simpl. f_equal. apply IH; [done|].
      intros j r' Hj Hne. apply (Hother (S j) r' Hj). lia.
Qed.

(** X24.  [updatePipeline] and [deletePipeline] keep the ids of the catalog
    different from one another when they are, and [addPipeline], which
    does not look at the id, does so exactly when the id is new.  In such a
    catalog an update replaces the one entry at the position of the id and
    leaves every other position as it is, and a delete takes out that one
    entry. *)
Theorem unique_ids_kept (s : Store) (Hunique : NoDup (ids s)) :
  (∀ p, ids (updatePipeline p s) = ids s ∧ NoDup (ids (updatePipeline p s)))
  ∧ (∀ i, NoDup (ids (deletePipeline i s)))
  ∧ (∀ p, NoDup (ids (addPipeline p s)) ↔ id p ∉ ids s)
  ∧ (∀ p q k, pipelines s !! k = Some q → id q = id p →
       pipelines (updatePipeline p s) = <[k := p]> (pipelines s)
       ∧ pipelines (deletePipeline (id p) s) = delete k (pipelines s)
       ∧ S (length (pipelines (deletePipeline (id p) s))) = length (pipelines s)).
Proof.
  split; [|split; [|split]].
  - intros p. by rewrite updatePipeline_ids.
  - intros i. rewrite deletePipeline_ids. by apply NoDup_filter.
  - intros p. unfold ids, addPipeline. simpl. rewrite fmap_app. simpl.
    rewrite NoDup_app. split.
    + intros (_ & Hfresh & _) Hin. apply (Hfresh _ Hin). by left.
    + intros Hfresh. split; [done|]. split; [|apply NoDup_singleton].
      intros i Hi [-> | Hnil%elem_of_nil]%elem_of_cons; done.
  - intros p q k Hk Hid.
    destruct (unique_replace s p q k Hunique Hk Hid) as [Hupdate Hdelete].
    split; [done|]. split; [done|].
    rewrite Hdelete, length_delete by (by eexists).
    apply lookup_lt_Some in Hk. lia.
Qed.

Lemma unique_ids_kept_witness :
  NoDup (ids (deletePipeline "a" exampleStore)).
Proof.
  refine (proj1 (proj2 (unique_ids_kept exampleStore _)) "a").
  vm_compute. repeat constructor; set_solver.
Defined.

(** X25.  Adding a pipeline with a new id and deleting it again gives the
    catalog back, and an update in between does not change that; an update
    with the same pipeline twice is an update once, and so is a delete. *)
Theorem add_then_delete (s : Store) (p : Pipeline) (Hfresh : id p ∉ ids s) :
  pipelines (deletePipeline (id p) (addPipeline p s)) = pipelines s
  ∧ (∀ q, id q = id p →
       pipelines (updatePipeline q (addPipeline p s)) = pipelines s ++ [q]
       ∧ pipelines (deletePipeline (id p) (updatePipeline q (addPipeline p s)))
         = pipelines s)
  ∧ (∀ q, pipelines (updatePipeline q (updatePipeline q s))
          = pipelines (updatePipeline q s))
  ∧ (∀ i, pipelines (deletePipeline i (deletePipeline i s))
          = pipelines (deletePipeline i s)).
Proof.
  assert (Hkeep : filter (λ q, id q ≠ id p) (pipelines s) = pipelines s).
  { apply filter_all_in. intros q Hq Hid. apply Hfresh. unfold ids.
    apply list_elem_of_fmap. eauto. }
  assert (Hsame : ∀ q, id q = id p →
    (λ r, if decide (id r = id q) then q else r) <$> pipelines s = pipelines s).
  { intros q Hq. rewrite <-(list_fmap_id (pipelines s)) at 2.
    apply list_fmap_ext. intros _ r Hr%list_elem_of_lookup_2.
    destruct (decide _) as [Heq|]; [|done]. destruct Hfresh. unfold ids.
    apply list_elem_of_fmap. exists r. split; [congruence | done]. }
  split; [|split; [|split]].
  - unfold deletePipeline, addPipeline. simpl. rewrite filter_app, Hkeep.
    rewrite filter_cons_False by (intros Hne; by apply Hne). by rewrite app_nil_r.
  - intros q Hq.
    assert (Hupdate : pipelines (updatePipeline q (addPipeline p s)) = pipelines s ++ [q]).
    { unfold updatePipeline, addPipeline. simpl. rewrite fmap_app, (Hsame q Hq). simpl.
      by rewrite decide_True. }
    split; [done|]. unfold deletePipeline. cbn [setPipelinesState saveEffect pipelines].
    rewrite Hupdate, filter_app, Hkeep.
    rewrite filter_cons_False by (intros Hne; by apply Hne). by rewrite app_nil_r.
  - intros q. unfold updatePipeline. simpl. rewrite <-list_fmap_compose.
    apply list_fmap_ext. intros _ r _. simpl.
    destruct (decide (id r = id q)); [by rewrite decide_True | by rewrite decide_False].
  - intros i. unfold deletePipeline. simpl. rewrite list_filter_filter.
    apply list_filter_iff. tauto.
Qed.

Lemma add_then_delete_witness :
  pipelines (deletePipeline "c" (addPipeline (examplePipeline "c" "report" VNull) exampleStore))
  = pipelines exampleStore.
Proof.
  refine (proj1 (add_then_delete exampleStore (examplePipeline "c" "report" VNull) _)).
  vm_compute. set_solver.
Defined.

(** *** The edit modal *)

Import EditPipelineModal EditPipelineActions.

(** X26.  The edit modal on a catalog with one entry per id, opened for the
    pipeline at position [k].  A save that passes the validation puts the
    edited pipeline at position [k] and leaves every other entry and the
    ids as they are; the pipeline keeps its id and its creation date and
    takes the name, the description and the keys and types of the form, in
    the order of the table.  A save that fails the validation leaves the
    store as it is, with nothing written.  A delete takes out the entry at
    position [k] and no other. *)
Theorem modal_edits_in_place (s : Store) (m : Modal) (k : nat)
    (Hunique : NoDup (ids s)) (Hk : pipelines s !! k = Some (pipeline m)) :
  (∀ updated, handleSave m = Some updated →
     pipelines (saveChanges m s) = <[k := updated]> (pipelines s)
     ∧ ids (saveChanges m s) = ids s
     ∧ id updated = id (pipeline m)
     ∧ dates updated = dates (pipeline m)
     ∧ PipelineTypes.name updated = name m
     ∧ PipelineTypes.description updated = description m
     ∧ key <$> PipelineTypes.parameters updated = key <$> parameters m
     ∧ type <$> PipelineTypes.parameters updated = type <$> parameters m)
  ∧ (handleSave m = None → saveChanges m s = s)
  ∧ pipelines (handleDelete m s) = delete k (pipelines s)
  ∧ ids (handleDelete m s) = delete k (ids s).
Proof.
  split; [|split; [|split]].
  - intros updated Hsave. unfold saveChanges. rewrite Hsave.
    unfold handleSave in Hsave.
    destruct (PipelineForm.validateForm _ _ _); [|done]. injection Hsave as <-.
    split.
    { by apply (unique_replace s _ (pipeline m) k Hunique Hk). }
    split; [apply updatePipeline_ids|]. simpl.
    rewrite <-!list_fmap_compose. done.
  - intros Hsave. unfold saveChanges. by rewrite Hsave.
  - unfold handleDelete. by apply (unique_replace s (pipeline m) (pipeline m) k Hunique Hk).
  - unfold handleDelete.
    destruct (unique_replace s (pipeline m) (pipeline m) k Hunique Hk eq_refl) as [_ Hd].
    unfold ids. rewrite Hd. clear. revert k.
    induction (pipelines s) as [|q l IH]; intros [|k]; simpl; by rewrite ?IH.
Qed.

Lemma modal_edits_in_place_witness :
  pipelines (handleDelete exampleModal
               (addPipeline (pipeline exampleModal) (firstCommit None)))
  = delete 0%nat (pipelines (addPipeline (pipeline exampleModal) (firstCommit None))).
Proof.
  refine (proj1 (proj2 (proj2 (modal_edits_in_place
    (addPipeline (pipeline exampleModal) (firstCommit None)) exampleModal 0 _ _)))).
  - vm_compute. repeat constructor; set_solver.
  - reflexivity.
Defined.

End CatalogFacts.

(** ** [JSON.parse] reads back what [JSON.stringify] writes *)

Module JSONTextFacts.
Import JS JSText PipelineTypes PipelineStore DateFacts NumberFacts JSONFacts DecimalFacts.
Local Open Scope Z_scope.

(** *** Characters *)

Lemma code_range (c : ascii) : 0 <= code c < 256.
Proof.
  unfold code. pose proof (N_ascii_bounded c). lia.
Qed.

Lemma asciiOfZ_code (c : ascii) : asciiOfZ (code c) = c.
Proof. unfold asciiOfZ, code. by rewrite N2Z.id, ascii_N_embedding. Qed.

Lemma code_asciiOfZ (n : Z) : 0 <= n < 256 → code (asciiOfZ n) = n.
Proof.
  intros Hn. unfold asciiOfZ, code. rewrite N_ascii_embedding by lia. lia.
Qed.

Lemma append_assoc (a b c : string) : (a +:+ b) +:+ c = a +:+ (b +:+ c).
Proof. induction a as [|x a IH]; [done|]. by rewrite !append_cons, IH. Qed.

Lemma append_nil_r (a : string) : a +:+ "" = a.
Proof. induction a as [|x a IH]; [done|]. by rewrite append_cons, IH. Qed.

(** *** Strings *)

(** The parser on the reverse solidus and the letter of an escape. *)
Definition scanned (c : ascii) (t : string) : option (string * string) :=
  match scanStringChars t with
  | Some (str, rest) => Some (String c str, rest)
  | None => None
  end.

Lemma scan_quote (t : string) :
  scanStringChars (reverseSolidus +:+ String (asciiOfZ 34) t) = scanned (asciiOfZ 34) t.
Proof. reflexivity. Qed.

Lemma scan_solidus (t : string) :
  scanStringChars (reverseSolidus +:+ String (asciiOfZ 92) t) = scanned (asciiOfZ 92) t.
Proof. reflexivity. Qed.

Lemma scan_b (t : string) :
  scanStringChars ((reverseSolidus +:+ "b") +:+ t) = scanned (asciiOfZ 8) t.
Proof. reflexivity. Qed.

Lemma scan_f (t : string) :
  scanStringChars ((reverseSolidus +:+ "f") +:+ t) = scanned (asciiOfZ 12) t.
Proof. reflexivity. Qed.

Lemma scan_n (t : string) :
  scanStringChars ((reverseSolidus +:+ "n") +:+ t) = scanned (asciiOfZ 10) t.
Proof. reflexivity. Qed.

Lemma scan_r (t : string) :
  scanStringChars ((reverseSolidus +:+ "r") +:+ t) = scanned (asciiOfZ 13) t.
Proof. reflexivity. Qed.

Lemma scan_t (t : string) :
  scanStringChars ((reverseSolidus +:+ "t") +:+ t) = scanned (asciiOfZ 9) t.
Proof. reflexivity. Qed.

Lemma scan_u (a b : ascii) (t : string) :
  scanStringChars
    ((reverseSolidus +:+ "u00" +:+ String a (String b EmptyString)) +:+ t)
  = match digitValue 16 a, digitValue 16 b with
    | Some x, Some y =>
        match scanStringChars t with
        | Some (str, rest) =>
            if ((0 * 16 + 0) * 16 + x) * 16 + y <? 256
            then Some (String (asciiOfZ (((0 * 16 + 0) * 16 + x) * 16 + y)) str, rest)
            else Some (String.append
                         (String (asciiOfZ 92)
                            (String "u" (String "0" (String "0" (String a (String b ""))))))
                         str, rest)
        | None => None
        end
    | _, _ => None
    end.
Proof.
  change ((reverseSolidus +:+ "u00" +:+ String a (String b "")) +:+ t)
    with (String (asciiOfZ 92) (String "u" (String "0" (String "0" (String a (String b t)))))).
  cbn [scanStringChars]. cbv zeta.
  change (code (asciiOfZ 92)) with 92. change (code "u") with 117.
  cbn [Z.eqb Z.ltb Z.compare Pos.compare Pos.compare_cont orb].
  unfold scanHex4. change (digitValue 16 "0") with (Some 0).
  by destruct (digitValue 16 a), (digitValue 16 b).
Qed.

Lemma digitValue_hexDigit (k : Z) : 0 <= k < 16 → digitValue 16 (hexDigit k) = Some k.
Proof.
  intros Hk.
  pose proof (checkRange_spec
    (λ z, match digitValue 16 (hexDigit z) with Some y => y =? z | None => false end)
    16 0 k) as Hcheck.
  cbv beta in Hcheck. destruct (digitValue 16 (hexDigit k)) as [y|].
  - f_equal. apply Z.eqb_eq, Hcheck; [vm_compute; reflexivity | lia].
  - discriminate Hcheck; [vm_compute; reflexivity | lia].
Qed.

(** A character as [JSON.stringify] writes it is read as the character. *)
Lemma scan_escapeChar (c : ascii) (t : string) :
  scanStringChars (escapeChar c +:+ t) = scanned c t.
Proof.
  unfold escapeChar. pose proof (code_range c) as Hc.
  pose proof (asciiOfZ_code c) as Hchar.
  destruct (Z.eqb_spec (code c) 34) as [H34|H34].
  { rewrite H34 in Hchar. subst c. apply scan_quote. }
  destruct (Z.eqb_spec (code c) 92) as [H92|H92].
  { rewrite H92 in Hchar. subst c. apply scan_solidus. }
  cbn [orb].
  destruct (Z.eqb_spec (code c) 8) as [H8|H8].
  { rewrite H8 in Hchar. subst c. apply scan_b. }
  destruct (Z.eqb_spec (code c) 12) as [H12|H12].
  { rewrite H12 in Hchar. subst c. apply scan_f. }
  destruct (Z.eqb_spec (code c) 10) as [H10|H10].
  { rewrite H10 in Hchar. subst c. apply scan_n. }
  destruct (Z.eqb_spec (code c) 13) as [H13|H13].
  { rewrite H13 in Hchar. subst c. apply scan_r. }
  destruct (Z.eqb_spec (code c) 9) as [H9|H9].
  { rewrite H9 in Hchar. subst c. apply scan_t. }
  destruct (Z.ltb_spec (code c) 32) as [Hlow|Hhigh].
  - rewrite scan_u.
    pose proof (Z.div_mod (code c) 16 ltac:(lia)) as Hdiv.
    pose proof (Z.mod_pos_bound (code c) 16 ltac:(lia)) as Hmod.
    rewrite (digitValue_hexDigit (code c / 16))
      by (split; [apply Z.div_pos; lia | apply Z.div_lt_upper_bound; lia]).
    rewrite (digitValue_hexDigit (code c mod 16)) by exact Hmod.
    replace (((0 * 16 + 0) * 16 + code c / 16) * 16 + code c mod 16) with (code c) by lia.
    unfold scanned. destruct (scanStringChars t) as [[str rest]|]; [|done].
    destruct (Z.ltb_spec (code c) 256); [|lia]. by rewrite Hchar.
  - rewrite append_cons. change ("" +:+ t) with t.
    cbn [scanStringChars]. cbv zeta.
    destruct (Z.eqb_spec (code c) 34); [done|].
    destruct (Z.ltb_spec (code c) 32); [lia|].
    destruct (Z.eqb_spec (code c) 92); [done|]. done.
Qed.

(** A string as [JSON.stringify] writes it, after its opening quote. *)
Lemma scan_escape (s rest : string) :
  scanStringChars (escape s +:+ quotationMark +:+ rest) = Some (s, rest).
Proof.
  induction s as [|c s IH]; [done|].
  cbn [escape]. rewrite append_assoc, scan_escapeChar. unfold scanned. by rewrite IH.
Qed.

(** *** Numbers *)

(** What follows a value in a text: nothing, a comma, or the bracket or
    brace that closes the array or object around it. *)
Definition closes (rest : string) : bool :=
  match rest with
  | EmptyString => true
  | String c _ => (code c =? 44) || (code c =? 93) || (code c =? 125)
  end.

Lemma closes_code (c : ascii) (r : string) :
  closes (String c r) = true → code c = 44 ∨ code c = 93 ∨ code c = 125.
Proof. simpl. lia. Qed.

Lemma scanDigits_closes (rest : string) (a c : Z) :
  closes rest = true → scanDigits 10 rest a c = (a, c, rest).
Proof.
  destruct rest as [|x r]; [done|]. intros Hx%closes_code. cbn [scanDigits].
  unfold digitValue. by destruct Hx as [-> | [-> | ->]].
Qed.

Lemma scanExponent_closes (rest : string) :
  closes rest = true → scanExponent rest = (0, rest).
Proof.
  destruct rest as [|x r]; [done|]. intros Hx%closes_code. unfold scanExponent.
  by destruct Hx as [-> | [-> | ->]].
Qed.

Lemma digits_append (fuel : nat) (n : Z) (acc rest : string) :
  digits fuel n acc +:+ rest = digits fuel n (acc +:+ rest).
Proof.
  revert n acc. induction fuel as [|fuel IH]; intros n acc; [done|].
  cbn [digits]. destruct (n <? 10); [done|]. by rewrite IH.
Qed.

(** The digits of a number are read back as the number. *)
Lemma scan_digits (fuel : nat) (n : Z) :
  0 <= n < 2 ^ Z.of_nat fuel → (0 < fuel)%nat →
  ∃ k, 1 <= k ∧ (n < 10 → k = 1) ∧
    ∀ acc a c, scanDigits 10 (digits fuel n acc) a c
               = scanDigits 10 acc (a * 10 ^ k + n) (c + k).
Proof.
  revert n. induction fuel as [|fuel IH]; intros n Hn Hfuel; [lia|].
  pose proof (Z.mod_pos_bound n 10 ltac:(lia)) as Hmod.
  pose proof (Z.div_mod n 10 ltac:(lia)) as Hdiv.
  cbn [digits]. destruct (Z.ltb_spec n 10) as [Hsmall|Hbig].
  - exists 1. split; [lia|]. split; [done|]. intros acc a c. cbn [scanDigits].
    rewrite digitValue_digit by lia. f_equal. rewrite Z.mod_small; lia.
  - rewrite Nat2Z.inj_succ, Z.pow_succ_r in Hn by lia.
    destruct (IH (n / 10)) as (k & Hk & _ & Hscan).
    + split; [apply Z.div_pos; lia | apply Z.div_lt_upper_bound; lia].
    + destruct fuel; [simpl in Hn; lia | lia].
    + exists (k + 1). split; [lia|]. split; [lia|]. intros acc a c.
      rewrite Hscan. cbn [scanDigits]. rewrite digitValue_digit by lia.
      f_equal; [|lia]. rewrite Z.pow_add_r by lia. lia.
Qed.

(** The first digit is [0] for the number 0 only. *)
Lemma digits_leading (fuel : nat) (n : Z) (acc : string) :
  0 <= n < 2 ^ Z.of_nat fuel → (0 < fuel)%nat →
  ∃ d r, 0 <= d <= 9 ∧ (d = 0 → n = 0) ∧ digits fuel n acc = String (asciiOfZ (48 + d)) r.
Proof.
  revert n acc. induction fuel as [|fuel IH]; intros n acc Hn Hfuel; [lia|].
  cbn [digits]. destruct (Z.ltb_spec n 10) as [Hsmall|Hbig].
  - exists n. eexists. rewrite Z.mod_small by lia. split; [lia|]. by split.
  - rewrite Nat2Z.inj_succ, Z.pow_succ_r in Hn by lia.
    destruct (IH (n / 10) (String (asciiOfZ (48 + n mod 10)) acc)) as (d & r & Hd & Hzero & ->).
    + split; [apply Z.div_pos; lia | apply Z.div_lt_upper_bound; lia].
    + destruct fuel; [simpl in Hn; lia | lia].
    + exists d, r. split; [done|]. split; [|done]. intros H0%Hzero.
      pose proof (Z.div_le_mono 10 n 10 ltac:(lia) Hbig) as Hle.
      rewrite Z.div_same in Hle by lia. lia.
Qed.

Lemma toString_bound (n : Z) :
  0 <= n → 0 <= n < 2 ^ Z.of_nat (S (Z.to_nat (Z.log2 n))).
Proof.
  intros Hn. split; [done|]. pose proof (Z.log2_nonneg n) as Hlog.
  rewrite Nat2Z.inj_succ, Z2Nat.id by done.
  destruct (Z.eq_dec n 0) as [->|Hne]; [done|]. apply Z.log2_spec. lia.
Qed.

(** The text of an integer below [2 ^ 53], with or without a minus sign in
    front of it, is read as the number. *)
Lemma scan_integer (s : string) (neg : bool) (n : Z) (rest : string) :
  match s with
  | String c r => if Ascii.eqb c "-" then (true, r) else (false, s)
  | EmptyString => (false, s)
  end = (neg, toString n +:+ rest) →
  0 <= n < 2 ^ 53 → closes rest = true →
  scanJSONNumber s = Some ((if neg then negate (ofZ n) else ofZ n), rest).
Proof.
  intros Hsign Hn Hrest. unfold scanJSONNumber. rewrite Hsign. clear Hsign.
  unfold toString. rewrite digits_append. change ("" +:+ rest) with rest.
  pose proof (toString_bound n ltac:(lia)) as Hbound.
  destruct (scan_digits _ n Hbound ltac:(lia)) as (k & Hk & Hone & Hscan).
  rewrite Hscan, scanDigits_closes by done.
  destruct (digits_leading _ n rest Hbound ltac:(lia)) as (d & r & Hd & Hzero & ->).
  rewrite code_eqb, code_asciiOfZ by lia. change (code "0") with 48.
  replace ((0 + k =? 0) || (48 + d =? 48) && (1 <? 0 + k)) with false by lia.
  cbv iota. change (0 * 10 ^ k + n) with n.
  assert (Hfraction :
    match rest with
    | String c r2 =>
        if Ascii.eqb c "." then
          let '(m, total, r3) := scanDigits 10 r2 n 0 in
          if 0 <? total then Some (m, total, r3) else None
        else Some (n, 0, rest)
    | EmptyString => Some (n, 0, rest)
    end = Some (n, 0, rest)).
  { destruct rest as [|c r2]; [done|].
    apply closes_code in Hrest. rewrite code_eqb. change (code ".") with 46.
    by destruct (Z.eqb_spec (code c) 46); [lia|]. }
  rewrite Hfraction, scanExponent_closes by done.
  unfold decimalToDouble. change (0 <=? 0 - 0) with true. cbv iota.
  change (10 ^ (0 - 0)) with 1. rewrite Z.mul_1_r, roundToDouble_integer by done. done.
Qed.

Lemma numberText_scan (q : Q) (text rest : string) :
  numberText (Finite q) = Some text → closes rest = true →
  scanJSONNumber (text +:+ rest) = Some (Finite q, rest).
Proof.
  destruct q as [a d]. unfold numberText. cbn [Qnum Qden].
  destruct (Pos.eqb_spec d 1) as [->|]; [|done].
  destruct (Z.ltb_spec (Z.abs a) (2 ^ 53)) as [Ha|]; [|done].
  cbn [andb]. intros [= <-] Hrest. rewrite append_assoc.
  destruct (Z.ltb_spec a 0) as [Hneg|Hpos].
  - rewrite (scan_integer _ true (Z.abs a) rest); [| done | lia | done].
    unfold negate, ofZ.
    change (Qopp (inject_Z (Z.abs a))) with (inject_Z (- Z.abs a)).
    rewrite Qred_inject_Z. unfold inject_Z. by replace (- Z.abs a) with a by lia.
  - change ("" +:+ toString (Z.abs a) +:+ rest) with (toString (Z.abs a) +:+ rest).
    rewrite (scan_integer _ false (Z.abs a) rest); [| | lia | done].
    + unfold ofZ, inject_Z. by replace (Z.abs a) with a by lia.
    + unfold toString. rewrite digits_append.
      destruct (digits_leading _ (Z.abs a) ("" +:+ rest) (toString_bound _ (Z.abs_nonneg a))
                  ltac:(lia)) as (d & r & Hd & _ & Heq).
      rewrite Heq. rewrite code_eqb, code_asciiOfZ by lia.
      change (code "-") with 45. by destruct (Z.eqb_spec (48 + d) 45); [lia|].
Qed.

Lemma numberText_head (q : Q) (text : string) :
  numberText (Finite q) = Some text →
  ∃ c r, text = String c r ∧ (code c = 45 ∨ 48 <= code c <= 57).
Proof.
  unfold numberText. destruct (_ && _); [|done]. intros [= <-].
  destruct (Qnum q <? 0).
  - exists "-"%char. eexists. split; [done|]. by left.
  - change ("" +:+ toString (Z.abs (Qnum q))) with (toString (Z.abs (Qnum q))).
    destruct (digits_leading _ (Z.abs (Qnum q)) "" (toString_bound _ (Z.abs_nonneg _))
                ltac:(lia)) as (d & r & Hd & _ & Heq).
    exists (asciiOfZ (48 + d)), r. split; [done|]. rewrite code_asciiOfZ by lia. lia.
Qed.

(** *** Values *)

(** The first character of the text of a value is no white space and
    closes no array or object. *)
Definition opens (text : string) : bool :=
  match text with
  | String c _ => negb (isJSONWhiteSpace c) && negb (code c =? 93) && negb (code c =? 125)
  | EmptyString => false
  end.

Lemma opens_append (a t : string) : opens a = true → opens (a +:+ t) = true.
Proof. by destruct a. Qed.

Lemma opens_skipWhiteSpace (s : string) : opens s = true → skipWhiteSpace s = s.
Proof.
  destruct s as [|c r]; [done|]. simpl. by destruct (isJSONWhiteSpace c).
Qed.

Lemma opens_expect (c : ascii) (s : string) :
  opens s = true → code c = 93 ∨ code c = 125 → expect c s = None.
Proof.
  destruct s as [|x r]; [done|]. intros Hopens Hc. unfold expect. rewrite code_eqb.
  simpl in Hopens. destruct (Z.eqb_spec (code c) (code x)); [lia | done].
Qed.

Lemma stringify_opens (v : JSValue) (text : string) :
  JSON_stringify v = Some text → opens text = true.
Proof.
  destruct v as [| b | x | s | items | props]; cbn [JSON_stringify].
  - by intros [= <-].
  - intros [= <-]. by destruct b.
  - destruct x as [| negative | q]; [by intros [= <-] | by intros [= <-] |].
    intros (c & r & -> & Hc)%numberText_head. unfold opens, isJSONWhiteSpace. lia.
  - by intros [= <-].
  - destruct (joinTexts _); [|done]. by intros [= <-].
  - destruct (joinTexts _); [|done]. by intros [= <-].
Qed.

Lemma joinTexts_cons (x y : option string) (l : list (option string)) :
  joinTexts (x :: y :: l)
  = match x, joinTexts (y :: l) with
    | Some a, Some b => Some (a +:+ "," +:+ b)
    | _, _ => None
    end.
Proof. reflexivity. Qed.

Lemma joinTexts_opens (l : list (option string)) (a body : string) :
  joinTexts (Some a :: l) = Some body → opens a = true → opens body = true.
Proof.
  destruct l as [|y l]; [by intros [= <-]|]. rewrite joinTexts_cons.
  destruct (joinTexts (y :: l)); [|done]. intros [= <-]. apply opens_append.
Qed.

Lemma length_append (a b : string) :
  String.length (a +:+ b) = (String.length a + String.length b)%nat.
Proof. induction a as [|c a IH]; [done|]. rewrite append_cons. simpl. by rewrite IH. Qed.

Lemma parseValue_fuel (fuel : nat) (s : string) (v : JSValue) (r : string) :
  parseValue fuel s = Some (v, r) →
  ∀ fuel', (2 * String.length s + 1 ≤ fuel')%nat → parseValue fuel' s = Some (v, r).
Proof.
  intros Hparse fuel' Hfuel'. destruct (parse_bounds fuel) as (HV & _ & _).
  destruct (HV _ _ _ Hparse) as [_ Hfuel]. apply Hfuel. lia.
Qed.

Lemma parseElements_fuel (fuel : nat) (s : string) (acc : list JSValue)
    (v : JSValue) (r : string) :
  parseElements fuel s acc = Some (v, r) →
  ∀ fuel', (2 * String.length s ≤ fuel')%nat → parseElements fuel' s acc = Some (v, r).
Proof.
  intros Hparse fuel' Hfuel'. destruct (parse_bounds fuel) as (_ & HE & _).
  destruct (HE _ _ _ _ Hparse) as [_ Hfuel]. apply Hfuel. lia.
Qed.

Lemma parseMembers_fuel (fuel : nat) (s : string) (acc : list (string * JSValue))
    (v : JSValue) (r : string) :
  parseMembers fuel s acc = Some (v, r) →
  ∀ fuel', (2 * String.length s ≤ fuel')%nat → parseMembers fuel' s acc = Some (v, r).
Proof.
  intros Hparse fuel' Hfuel'. destruct (parse_bounds fuel) as (_ & _ & HM).
  destruct (HM _ _ _ _ Hparse) as [_ Hfuel]. apply Hfuel. lia.
Qed.

(** Induction on a value, with the property at hand for the elements of an
    array and the values of an object. *)
Lemma JSValue_nested_ind (P : JSValue → Prop) :
  P VNull → (∀ b, P (VBool b)) → (∀ x, P (VNumber x)) → (∀ s, P (VString s)) →
  (∀ items, Forall P items → P (VArray items)) →
  (∀ props, Forall (λ kv, P kv.2) props → P (VObject props)) →
  ∀ v, P v.
Proof.
  intros Hnull Hbool Hnumber Hstring Harray Hobject. fix IH 1.
  intros [| b | x | s | items | props].
  - exact Hnull.
  - apply Hbool.
  - apply Hnumber.
  - apply Hstring.
  - apply Harray. induction items as [|x items IHitems]; constructor.
    + apply IH.
    + exact IHitems.
  - apply Hobject. induction props as [|[k x] props IHprops]; constructor.
    + apply IH.
    + exact IHprops.
Qed.

(** The text of a value, in front of what may follow a value, is read as
    the copy of the value. *)
Definition readBack (v : JSValue) : Prop :=
  ∀ text rest, JSON_stringify v = Some text → distinctKeys v = true →
    closes rest = true →
    ∃ fuel, parseValue fuel (text +:+ rest) = Some (jsonCopy v, rest).

Lemma readBack_number (x : number) : readBack (VNumber x).
Proof.
  intros text rest Htext _ Hrest. exists 1%nat. cbn [JSON_stringify] in Htext.
  destruct x as [| negative | q]; [by injection Htext as <- | by injection Htext as <- |].
  destruct (numberText_head _ _ Htext) as (c & r & Hc & Hcode).
  pose proof (numberText_scan _ _ _ Htext Hrest) as Hscan.
  rewrite Hc, append_cons in *. cbn [parseValue jsonCopy].
  rewrite opens_skipWhiteSpace by (unfold opens, isJSONWhiteSpace; lia).
  unfold isQuote. rewrite !code_eqb.
  change (code "n") with 110. change (code "t") with 116. change (code "f") with 102.
  change (code "[") with 91. change (code "{") with 123.
  destruct (Z.eqb_spec (code c) 110); [lia|]. destruct (Z.eqb_spec (code c) 116); [lia|].
  destruct (Z.eqb_spec (code c) 102); [lia|]. destruct (Z.eqb_spec (code c) 34); [lia|].
  destruct (Z.eqb_spec (code c) 91); [lia|]. destruct (Z.eqb_spec (code c) 123); [lia|].
  by rewrite Hscan.
Qed.

Lemma readBack_string (s : string) : readBack (VString s).
Proof.
  intros text rest [= <-] _ Hrest. exists 1%nat. unfold quoteJSONString.
  change (quotationMark +:+ escape s +:+ quotationMark)
    with (String (asciiOfZ 34) (escape s +:+ quotationMark)).
  rewrite append_cons, append_assoc. cbn [parseValue].
  change (skipWhiteSpace (String (asciiOfZ 34) ?t)) with (String (asciiOfZ 34) t).
  change (Ascii.eqb (asciiOfZ 34) "n") with false.
  change (Ascii.eqb (asciiOfZ 34) "t") with false.
  change (Ascii.eqb (asciiOfZ 34) "f") with false.
  change (isQuote (asciiOfZ 34)) with true. cbv iota.
  by rewrite scan_escape.
Qed.

(** The elements of an array after its opening bracket. *)
Lemma parse_elements (items : list JSValue) :
  Forall readBack items → items ≠ [] →
  ∀ body rest acc,
    joinTexts (map JSON_stringify items) = Some body →
    forallb distinctKeys items = true →
    ∃ fuel, parseElements fuel (body +:+ "]" +:+ rest) acc
            = Some (VArray (acc ++ map jsonCopy items), rest).
Proof.
  induction 1 as [|x items Hx _ IH]; [done|]. intros _ body rest acc Hbody Hkeys.
  cbn [forallb] in Hkeys. apply andb_true_iff in Hkeys as [Hkx Hkeys].
  destruct items as [|y items].
  - cbn [map joinTexts] in Hbody.
    destruct (Hx body ("]" +:+ rest) Hbody Hkx eq_refl) as [f1 Hvalue].
    exists (S (2 * String.length (body +:+ "]" +:+ rest) + 1)).
    cbn [parseElements]. rewrite (parseValue_fuel _ _ _ _ Hvalue) by lia. done.
  - cbn [map] in Hbody. rewrite joinTexts_cons in Hbody.
    destruct (JSON_stringify x) as [a|] eqn:Ha; [|done].
    destruct (joinTexts (JSON_stringify y :: map JSON_stringify items)) as [b|] eqn:Hb;
      [|done].
    injection Hbody as <-.
    destruct (Hx a ("," +:+ b +:+ "]" +:+ rest) Ha Hkx eq_refl) as [f1 Hvalue].
    destruct (IH ltac:(done) b rest (acc ++ [jsonCopy x]) Hb Hkeys) as [f2 Hrest].
    rewrite !append_assoc.
    exists (S (2 * String.length (a +:+ "," +:+ b +:+ "]" +:+ rest) + 1)).
    cbn [parseElements]. rewrite (parseValue_fuel _ _ _ _ Hvalue) by lia.
    change (skipWhiteSpace ("," +:+ ?t)) with (String ","%char t). cbv iota.
    change (Ascii.eqb "," ",") with true. cbv iota.
    rewrite (parseElements_fuel _ _ _ _ _ Hrest).
    + by rewrite <-app_assoc.
    + rewrite !length_append. simpl. lia.
Qed.

Definition propertyText (kv : string * JSValue) : option string :=
  let '(k, x) := kv in
  match JSON_stringify x with
  | Some a => Some (quoteJSONString k +:+ ":" +:+ a)
  | None => None
  end.

Lemma setProperty_fresh (acc : list (string * JSValue)) (k : string) (v : JSValue) :
  k ∉ acc.*1 → setProperty acc k v = acc ++ [(k, v)].
Proof.
  induction acc as [|[k' v'] acc IH]; [done|]. cbn [fmap list_fmap fst setProperty].
  intros Hk. destruct (String.eqb_spec k' k) as [->|_]; [set_solver|].
  rewrite IH; [done | set_solver].
Qed.

(** One member of an object: its key, the colon and its value. *)
Lemma parseMembers_member (fuel : nat) (k t : string) (acc : list (string * JSValue)) :
  parseMembers (S fuel) (quoteJSONString k +:+ ":" +:+ t) acc
  = match parseValue fuel t with
    | Some (v, r3) =>
        match skipWhiteSpace r3 with
        | String c' r' =>
            if Ascii.eqb c' "," then parseMembers fuel r' (setProperty acc k v)
            else if Ascii.eqb c' "}" then Some (VObject (setProperty acc k v), r')
            else None
        | EmptyString => None
        end
    | None => None
    end.
Proof.
  unfold quoteJSONString.
  change (quotationMark +:+ escape k +:+ quotationMark)
    with (String (asciiOfZ 34) (escape k +:+ quotationMark)).
  rewrite append_cons, append_assoc. cbn [parseMembers].
  change (skipWhiteSpace (String (asciiOfZ 34) ?u)) with (String (asciiOfZ 34) u).
  cbv iota. change (isQuote (asciiOfZ 34)) with true. cbv iota.
  rewrite scan_escape. reflexivity.
Qed.

(** The members of an object after its opening brace. *)
Lemma parse_members (props : list (string * JSValue)) :
  Forall (λ kv, readBack kv.2) props → props ≠ [] →
  ∀ body rest acc,
    joinTexts (map propertyText props) = Some body →
    forallb (λ kv, let '(_, x) := kv in distinctKeys x) props = true →
    NoDup (acc.*1 ++ props.*1) →
    ∃ fuel, parseMembers fuel (body +:+ "}" +:+ rest) acc
            = Some (VObject (acc ++ map (λ kv, let '(k, x) := kv in (k, jsonCopy x)) props),
                    rest).
Proof.
  induction 1 as [|[k x] props Hx _ IH]; [done|].
  intros _ body rest acc Hbody Hkeys Hdup.
  cbn [forallb] in Hkeys. apply andb_true_iff in Hkeys as [Hkx Hkeys].
  cbn [snd] in Hx.
  assert (Hfresh : k ∉ acc.*1).
  { apply NoDup_app in Hdup as (_ & Hdisjoint & _). intros Hin.
    apply (Hdisjoint k Hin). cbn. left. }
  assert (Hnext : NoDup ((acc ++ [(k, jsonCopy x)]).*1 ++ props.*1)).
  { rewrite fmap_app, <-app_assoc. exact Hdup. }
  destruct props as [|y props].
  - cbn [map joinTexts propertyText] in Hbody.
    destruct (JSON_stringify x) as [a|] eqn:Ha; [|done]. injection Hbody as <-.
    destruct (Hx a ("}" +:+ rest) Ha Hkx eq_refl) as [f1 Hvalue].
    rewrite !append_assoc.
    exists (S (2 * String.length (a +:+ "}" +:+ rest) + 1)).
    rewrite parseMembers_member, (parseValue_fuel _ _ _ _ Hvalue) by lia.
    by rewrite setProperty_fresh.
  - cbn [map] in Hbody. rewrite joinTexts_cons in Hbody. cbn [propertyText] in Hbody.
    destruct (JSON_stringify x) as [a|] eqn:Ha; [|done].
    destruct (joinTexts (propertyText y :: map propertyText props)) as [b|] eqn:Hb; [|done].
    injection Hbody as <-.
    destruct (Hx a ("," +:+ b +:+ "}" +:+ rest) Ha Hkx eq_refl) as [f1 Hvalue].
    destruct (IH ltac:(done) b rest (acc ++ [(k, jsonCopy x)]) Hb Hkeys Hnext) as [f2 Hrest].
    rewrite !append_assoc.
    exists (S (2 * String.length (a +:+ "," +:+ b +:+ "}" +:+ rest) + 1)).
    rewrite parseMembers_member, (parseValue_fuel _ _ _ _ Hvalue) by lia.
    change (skipWhiteSpace ("," +:+ ?t)) with (String ","%char t). cbv iota.
    change (Ascii.eqb "," ",") with true. cbv iota.
    rewrite setProperty_fresh by done.
    rewrite (parseMembers_fuel _ _ _ _ _ Hrest).
    + by rewrite <-app_assoc.
    + rewrite !length_append. simpl. lia.
Qed.

Lemma propertyText_opens (kv : string * JSValue) (a : string) :
  propertyText kv = Some a → opens a = true.
Proof.
  destruct kv as [k x]. cbn [propertyText]. destruct (JSON_stringify x); [|done].
  by intros [= <-].
Qed.

(** [JSON.parse] on a text of [JSON.stringify], with what follows it. *)
Lemma stringify_readBack (v : JSValue) : readBack v.
Proof.
  induction v as [| b | x | s | items IH | props IH] using JSValue_nested_ind.
  - intros text rest [= <-] _ _. by exists 1%nat.
  - intros text rest [= <-] _ _. exists 1%nat. by destruct b.
  - apply readBack_number.
  - apply readBack_string.
  - intros text rest Htext Hkeys Hrest. cbn [JSON_stringify] in Htext.
    destruct (joinTexts (map JSON_stringify items)) as [body|] eqn:Hbody; [|done].
    injection Htext as <-. cbn [distinctKeys] in Hkeys.
    destruct items as [|x items]; [injection Hbody as <-; by exists 1%nat|].
    destruct (parse_elements _ IH ltac:(done) body rest [] Hbody Hkeys) as [fuel Hparse].
    exists (S fuel).
    change (("[" +:+ body +:+ "]") +:+ rest) with (String "[" ((body +:+ "]") +:+ rest)).
    rewrite append_assoc. cbn [parseValue].
    change (skipWhiteSpace (String "[" ?t)) with (String "["%char t). cbv iota.
    change (Ascii.eqb "[" "n") with false. change (Ascii.eqb "[" "t") with false.
    change (Ascii.eqb "[" "f") with false. change (isQuote "[") with false.
    change (Ascii.eqb "[" "[") with true. cbv iota.
    assert (Hopens : opens (body +:+ "]" +:+ rest) = true).
    { apply opens_append. cbn [map] in Hbody.
      destruct (JSON_stringify x) as [a|] eqn:Ha.
      - eapply joinTexts_opens; [done|]. by eapply stringify_opens.
      - by destruct items. }
    rewrite opens_skipWhiteSpace, opens_expect by (done || by left). exact Hparse.
  - intros text rest Htext Hkeys Hrest.
    change (JSON_stringify (VObject props))
      with (match joinTexts (map propertyText props) with
            | Some body => Some ("{" +:+ body +:+ "}")
            | None => None
            end) in Htext.
    destruct (joinTexts (map propertyText props)) as [body|] eqn:Hbody; [|done].
    injection Htext as <-. cbn [distinctKeys] in Hkeys.
    apply andb_true_iff in Hkeys as [Hdup%bool_decide_eq_true Hkeys].
    destruct props as [|kv props]; [injection Hbody as <-; by exists 1%nat|].
    destruct (parse_members _ IH ltac:(done) body rest [] Hbody Hkeys Hdup) as [fuel Hparse].
    exists (S fuel).
    change (("{" +:+ body +:+ "}") +:+ rest) with (String "{" ((body +:+ "}") +:+ rest)).
    rewrite append_assoc. cbn [parseValue].
    change (skipWhiteSpace (String "{" ?t)) with (String "{"%char t). cbv iota.
    change (Ascii.eqb "{" "n") with false. change (Ascii.eqb "{" "t") with false.
    change (Ascii.eqb "{" "f") with false. change (isQuote "{") with false.
    change (Ascii.eqb "{" "[") with false. change (Ascii.eqb "{" "{") with true. cbv iota.
    assert (Hopens : opens (body +:+ "}" +:+ rest) = true).
    { apply opens_append. cbn [map] in Hbody.
      destruct (propertyText kv) as [a|] eqn:Ha.
      - eapply joinTexts_opens; [done|]. by eapply propertyText_opens.
      - by destruct props. }
    rewrite opens_skipWhiteSpace, opens_expect by (done || by right). exact Hparse.
Qed.

(** [JSON.parse(JSON.stringify(v))] is the copy of [v]. *)
Lemma parse_stringify (v : JSValue) (text : string) :
  JSON_stringify v = Some text → distinctKeys v = true →
  JSON_parse text = Some (jsonCopy v).
Proof.
  intros Htext Hkeys.
  destruct (stringify_readBack v text "" Htext Hkeys eq_refl) as [fuel Hparse].
  rewrite append_nil_r in Hparse. by eapply JSON_parse_complete.
Qed.

End JSONTextFacts.

(** ** The text the store keeps in [localStorage] *)

Module StorageTextFacts.
Import JS JSText PipelineTypes PipelineStore StorageText ExecutionForm.
Import JSONTextFacts StoreFacts.

Lemma jsonCopy_parameterValue (ps : list PipelineParameter) :
  map jsonCopy (parameterValue <$> ps) = stringifyParameter <$> ps.
Proof. induction ps as [|param ps IH]; [done|]. csimpl. by rewrite IH. Qed.

Lemma jsonCopy_pipelineValue (l : list Pipeline) :
  map jsonCopy (pipelineValue <$> l) = stringifyPipeline <$> l.
Proof.
  induction l as [|p l IH]; [done|]. csimpl. rewrite IH. f_equal.
  unfold stringifyPipeline, pipelineValue. rewrite <-jsonCopy_parameterValue.
  destruct (dates p) as [[|t] | c [[|t]|]]; try destruct c as [[|t']| |]; reflexivity.
Qed.

(** The parameter values of a catalog are values of the kind an object
    can be. *)
Definition valuesDistinct (l : list Pipeline) : Prop :=
  Forall (λ p, Forall (λ param, distinctKeys (value param) = true) (parameters p)) l.

Lemma distinctKeys_parameters (ps : list PipelineParameter) :
  Forall (λ param, distinctKeys (value param) = true) ps →
  forallb distinctKeys (parameterValue <$> ps) = true.
Proof.
  induction 1 as [|param ps Hparam _ IH]; [done|]. csimpl. rewrite IH, andb_true_r.
  cbn [distinctKeys parameterValue forallb]. rewrite Hparam. done.
Qed.

Lemma distinctKeys_catalog (l : list Pipeline) :
  valuesDistinct l → distinctKeys (VArray (pipelineValue <$> l)) = true.
Proof.
  cbn [distinctKeys]. induction 1 as [|p l Hp _ IH]; [done|]. csimpl.
  rewrite IH, andb_true_r. pose proof (distinctKeys_parameters _ Hp) as Hps.
  unfold pipelineValue.
  destruct (dates p) as [[|t] | c [[|t]|]]; try destruct c as [[|t']| |];
    cbn [distinctKeys stringifyDates app dateToJSON datePropertyJSON forallb
         fmap list_fmap fst snd map];
    rewrite Hps; reflexivity.
Qed.

(** The text written is a text [JSON.parse] reads as the snapshot the
    store is known by. *)
Lemma storedText_storedAs (l : list Pipeline) (text : string) :
  storedText l = Some text → valuesDistinct l → storedAs text = stringify l.
Proof.
  intros Htext Hvalues. unfold storedAs, storedText in *.
  rewrite (parse_stringify _ _ Htext (distinctKeys_catalog l Hvalues)).
  cbn [jsonCopy]. unfold stringify. by rewrite jsonCopy_pipelineValue.
Qed.

Lemma joinTexts_is_Some (l : list (option string)) :
  Forall is_Some l → is_Some (joinTexts l).
Proof.
  induction 1 as [|x l [a ->] Hl IH]; [done|].
  destruct l as [|y l]; [done|]. rewrite joinTexts_cons.
  by destruct IH as [b ->].
Qed.

Lemma parameters_text (ps : list PipelineParameter) :
  Forall (λ param, value param = VNull) ps →
  is_Some (JSON_stringify (VArray (parameterValue <$> ps))).
Proof.
  intros Hnull. cbn [JSON_stringify].
  destruct (joinTexts_is_Some (map JSON_stringify (parameterValue <$> ps))) as [body ->];
    [|done].
  induction Hnull as [|param ps Hparam _ IH]; [done|]. csimpl. constructor; [|exact IH].
  unfold parameterValue. rewrite Hparam. done.
Qed.

Lemma object_text (props : list (string * JSValue)) :
  Forall (λ kv, is_Some (JSON_stringify kv.2)) props →
  is_Some (JSON_stringify (VObject props)).
Proof.
  intros Hprops.
  change (JSON_stringify (VObject props))
    with (match joinTexts (map propertyText props) with
          | Some body => Some ("{" +:+ body +:+ "}")
          | None => None
          end).
  destruct (joinTexts_is_Some (map propertyText props)) as [body ->]; [|done].
  induction Hprops as [|[k x] props [a Ha] _ IH]; [done|]. cbn [map]. constructor; [|exact IH].
  unfold propertyText. simpl in Ha. by rewrite Ha.
Qed.

Lemma catalog_text (l : list Pipeline) :
  Forall (λ p, Forall (λ param, value param = VNull) (parameters p)) l →
  is_Some (storedText l).
Proof.
  intros Hnull. unfold storedText. cbn [JSON_stringify].
  destruct (joinTexts_is_Some (map JSON_stringify (pipelineValue <$> l))) as [body ->];
    [|done].
  induction Hnull as [|p l Hp _ IH]; [done|]. rewrite fmap_cons. cbn [map].
  constructor; [|exact IH].
  pose proof (parameters_text _ Hp) as Hps.
  apply object_text. unfold pipelineValue.
  destruct (dates p) as [[|t] | c [[|t]|]]; try destruct c as [[|t']| |];
    repeat (constructor; [first [exact Hps | by eexists]|]); constructor.
Qed.

Lemma null_valuesDistinct (l : list Pipeline) :
  Forall (λ p, Forall (λ param, value param = VNull) (parameters p)) l → valuesDistinct l.
Proof.
  intros Hnull. eapply Forall_impl; [exact Hnull|]. intros p Hp.
  eapply Forall_impl; [exact Hp|]. by intros param ->.
Qed.

(** The dates of an entry as a load leaves them, and as the mapping of
    [MyPipelines] does: [createdAt] is a [Date] with a time value, and
    [created_at], where the entry has it, is a text or [null]. *)
Definition datesLoaded (d : Dates) : Prop :=
  match d with
  | Mapped (TimeValue t) => validTime t
  | Declared (AText _ | ANull) (Some (TimeValue t)) => validTime t
  | _ => False
  end.

Lemma datesLoaded_stored (d : Dates) : datesLoaded d → validDates d ∧ storedDates d = d.
Proof. destruct d as [[|t] | [[|t']| |] [[|t]|]]; simpl; try done. Qed.

Lemma null_persistable (p : Pipeline) :
  datesLoaded (dates p) → Forall (λ param, value param = VNull) (parameters p) →
  persistable p.
Proof.
  intros [Hvalid Hdates]%datesLoaded_stored Hnull. split; [done|]. split; [done|].
  eapply Forall_impl; [exact Hnull|]. by intros param ->.
Qed.

Lemma null_stored (l : list Pipeline) :
  Forall (λ q, datesLoaded (dates q)) l →
  Forall (λ p, Forall (λ param, value param = VNull) (parameters p)) l →
  storedPipeline <$> l = l.
Proof.
  intros Hdates Hnull. induction Hnull as [|p l Hp _ IH]; [done|].
  apply Forall_cons in Hdates as [Hdate Hdates]. csimpl. rewrite IH by done.
  by rewrite (storedPipeline_persistable p (null_persistable p Hdate Hp)).
Qed.

(** X27.  The saving effect and the loading effect agree on the text in
    [localStorage]: what [JSON.parse] reads from the text that
    [JSON.stringify] writes for a catalog is the array of the pipelines with
    their ids, names, descriptions, dates as [toJSON] writes them and
    parameters, in the order of the catalog and each with its properties in
    their order, and a session mounted over the text starts with that
    catalog as the load effect reads it when the time values of its dates
    are time values of Dates.  The parameter values are values of
    JavaScript, where an object has a key once, and the text is one the
    model writes: every finite number in a parameter value is an integer
    below [2 ^ 53] in magnitude. *)
Theorem stored_text_read_back (l : list Pipeline) (text : string)
    (Htext : storedText l = Some text) (Hvalues : valuesDistinct l) :
  JSON_parse text = Some (VArray (stringifyPipeline <$> l))
  ∧ storedAs text = stringify l
  ∧ (datesValid l →
       pipelines <$> mount (Some (storedAs text)) = Some (storedPipeline <$> l)).
Proof.
  pose proof (storedText_storedAs l text Htext Hvalues) as Hstored.
  split; [|split].
  - unfold storedAs, stringify in Hstored.
    destruct (JSON_parse text) as [v|]; [|done]. by injection Hstored as ->.
  - exact Hstored.
  - intros Hdates. by rewrite Hstored, mount_stringify.
Qed.

Definition textCatalog : list Pipeline :=
  [ {| id := "p-1"; name := "Carga"; description := "Carga diária";
       dates := Mapped (TimeValue 1700000000000);
       parameters :=
         [ {| key := "dias"; type := TList;
              value := VArray [VNumber (ofZ 1); VNumber (ofZ (-20)); VNumber NaN] |};
           {| key := "nota"; type := TDict;
              value := VObject [("linha", VString (String (asciiOfZ 10) "fim"));
                                ("vazio", VObject [])] |} ] |};
    {| id := "p-2"; name := "Limpeza"; description := "";
       dates := Declared (ADate (TimeValue 0)) None; parameters := [] |} ].

Definition textOfCatalog : string := default EmptyString (storedText textCatalog).

Lemma stored_text_read_back_witness :
  JSON_parse textOfCatalog = Some (VArray (stringifyPipeline <$> textCatalog))
  ∧ storedAs textOfCatalog = stringify textCatalog
  ∧ (datesValid textCatalog →
       pipelines <$> mount (Some (storedAs textOfCatalog))
       = Some (storedPipeline <$> textCatalog)).
Proof.
  apply (stored_text_read_back textCatalog textOfCatalog).
  - vm_compute. reflexivity.
  - repeat constructor.
Defined.

(** X28.  A catalog whose pipelines have their parameter values empty, as
    the parameters table and the edit modal make them, and their dates as
    a load or the mapping of [MyPipelines] leaves them, always has a text,
    and a session mounted over that text has the catalog itself: the same
    pipelines in the same order; it writes the empty catalog and then the
    text's snapshot, which is what it leaves in the storage. *)
Theorem form_catalog_restored (l : list Pipeline)
    (Hdates : Forall (λ q, datesLoaded (dates q)) l)
    (Hnull : Forall (λ p, Forall (λ param, value param = VNull) (parameters p)) l) :
  ∃ text, storedText l = Some text
    ∧ mount (Some (storedAs text))
      = Some {| pipelines := l; localStorage := Some (storedAs text);
                writes := [stringify []; storedAs text] |}.
Proof.
  destruct (catalog_text l Hnull) as [text Htext]. exists text. split; [done|].
  rewrite (storedText_storedAs l text Htext (null_valuesDistinct l Hnull)).
  rewrite mount_stringify.
  - cbn [setPipelinesState saveEffect firstCommit pipelines localStorage writes app].
    by rewrite (null_stored l Hdates Hnull).
  - eapply Forall_impl; [exact Hdates|]. intros q Hq. by apply datesLoaded_stored.
Qed.

Definition formCatalog : list Pipeline :=
  [ {| id := "p-1"; name := "Carga"; description := "Carga diária";
       dates := Mapped (TimeValue 1700000000000);
       parameters := [ {| key := "dias"; type := TInt; value := VNull |} ] |};
    {| id := "p-2"; name := "Limpeza"; description := "";
       dates := Declared (AText "2024-05-01") (Some (TimeValue 0));
       parameters := [] |} ].

Lemma form_catalog_restored_witness :
  ∃ text, storedText formCatalog = Some text
    ∧ mount (Some (storedAs text))
      = Some {| pipelines := formCatalog; localStorage := Some (storedAs text);
                writes := [stringify []; storedAs text] |}.
Proof.
  apply (form_catalog_restored formCatalog).
  - repeat constructor; unfold validTime, maxTimeValue; simpl; lia.
  - repeat constructor.
Defined.

(** X29.  A text that [JSON.stringify] wrote, entered in the execution
    form: it passes the check of a list parameter exactly when the value
    written was an array, and the check of a dictionary parameter exactly
    when it was an object; null, a boolean, a number and a string fail both.
    What is submitted for it is the value as JSON carries it.  The value is
    one whose objects have a key once and whose text the model writes:
    every finite number in it is an integer below [2 ^ 53] in magnitude. *)
Theorem stringified_entry (k : string) (v : JSValue) (text : string)
    (Htext : JSON_stringify v = Some text) (Hkeys : distinctKeys v = true) :
  (validateParameterValue k text TList = Normal ↔ isArray v = true)
  ∧ (validateParameterValue k text TDict = Normal ↔ ∃ props, v = VObject props)
  ∧ coerce TList text = Some (jsonCopy v)
  ∧ coerce TDict text = Some (jsonCopy v).
Proof.
  pose proof (parse_stringify v text Htext Hkeys) as Hparse.
  unfold validateParameterValue, coerce. rewrite Hparse.
  split; [|split; [|done]].
  - destruct v as [| b | [| negative | q] | s | items | props]; simpl; split; done.
  - destruct v as [| b | [| negative | q] | s | items | props]; simpl;
      split; try done; try (by intros [props' [=]]). by exists props.
Qed.

Definition entryValue : JSValue :=
  VObject [("dias", VArray [VNumber (ofZ 1); VNumber (ofZ 2)]); ("nota", VString "fim")].

Definition entryText : string := default EmptyString (JSON_stringify entryValue).

Lemma stringified_entry_witness :
  (validateParameterValue "k" entryText TList = Normal ↔ isArray entryValue = true)
  ∧ (validateParameterValue "k" entryText TDict = Normal ↔ ∃ props, entryValue = VObject props)
  ∧ coerce TList entryText = Some (jsonCopy entryValue)
  ∧ coerce TDict entryText = Some (jsonCopy entryValue).
Proof.
  apply (stringified_entry "k" entryValue entryText).
  - vm_compute. reflexivity.
  - vm_compute. reflexivity.
Defined.

End StorageTextFacts.
